(** * Blocked-layout lowering: index algebra, per-thread element mapping,
      aggregate helpers and the operation lowering rules

    A shallow embedding of
    [lib/Conversion/TritonGPUToLLVM/TritonGPUToLLVM.cpp].

    Conventions of the embedding.
    - A C++ integer of a fixed width is a [Z]; every operation that can leave
      the range of its type ([+], [*], a narrowing conversion) is followed by
      the reduction of that type ([u32], [s32], [s64]).  Signed overflow is
      undefined in C++; the reduction gives it the two's complement result.
    - C++ [/] and [%] are [Z.quot] and [Z.rem] (truncation towards zero).
      Division by zero is undefined in C++; [Z.quot] by zero is [0] here, and
      the theorems exclude zero divisors by hypothesis.
    - [assert], an out-of-range subscript of a [SmallVector] or [ArrayRef]
      (an assertion of LLVM's containers) and [report_fatal_error] abort the
      compiler: the embedded function returns [None] (or [FatalError]).
    - The lowering rules emit LLVM operations on SSA values; the embedding
      gives an emitted value its run-time meaning for one thread, so
      [LLVM::URemOp], [LLVM::UDivOp], [LLVM::AddOp], [LLVM::MulOp] on the
      32-bit index type are arithmetic modulo [2^32]. *)

From Stdlib Require Import ZArith Lia.
From stdpp Require Import base option list gmap strings.

#[local] Open Scope Z_scope.

(** * Part I: the embedding *)

(** ** Machine integers *)

Definition u32 (z : Z) : Z := z mod 2 ^ 32.
Definition s32 (z : Z) : Z := (z + 2 ^ 31) mod 2 ^ 32 - 2 ^ 31.
Definition s64 (z : Z) : Z := (z + 2 ^ 63) mod 2 ^ 64 - 2 ^ 63.

(** The integer type [T] of the templates [getMultiDimIndex<T>] and
    [getLinearIndex<T>]: its reduction [wrap] and its largest value. *)
Class IntType := {
  wrap : Z → Z;
  tmax : Z
}.

(** On the values of the type the reduction is the identity. *)
Class IntTypeLaws (T : IntType) : Prop :=
  wrap_small : ∀ z, 0 ≤ z ≤ tmax → wrap z = z.

#[export] Instance unsigned_int : IntType := {| wrap := u32; tmax := 2 ^ 32 - 1 |}.
#[export] Instance int64_t : IntType := {| wrap := s64; tmax := 2 ^ 63 - 1 |}.

(** Product of the extents of a shape (over [Z], no reduction). *)
Definition product (shape : list Z) : Z := foldr Z.mul 1 shape.

(** ** Containers and loops *)

(** [v[i]]: the subscript of a [SmallVector] or [ArrayRef] with its range
    assertion. *)
Definition at_ {A} (v : list A) (i : Z) : option A :=
  if decide (0 ≤ i) then v !! Z.to_nat i else None.

(** [v[i] = x] *)
Definition set_at {A} (v : list A) (i : Z) (x : A) : option (list A) :=
  if decide (0 ≤ i < Z.of_nat (length v)) then Some (<[Z.to_nat i := x]> v) else None.

(** A loop whose body may abort: the state is threaded through the
    iterations in order. *)
Fixpoint foldM {S A} (body : S → A → option S) (s : S) (l : list A) : option S :=
  match l with
  | [] => Some s
  | x :: l => s' ← body s x; foldM body s' l
  end.

(** [llvm::enumerate] *)
Definition enumerate {A} (l : list A) : list (Z * A) :=
  zip (seqZ 0 (Z.of_nat (length l))) l.

(** ** Index algebra *)

Section IndexAlgebra.
Context {T : IntType}.

(** [acc_mul = 1; for (i = 1; i < rank; ++i) acc_mul *= shape[i];] *)
Definition acc_mul_init (shape : list Z) : Z :=
  foldl (λ acc s, wrap (acc * s)) 1 (tail shape).

(** [if (i != rank - 1) acc_mul = acc_mul / shape[i + 1];] where [rest] is
    [shape[i+1 ..]]. *)
Definition acc_mul_next (acc : Z) (rest : list Z) : Z :=
  match rest with
  | [] => acc
  | s :: _ => Z.quot acc s
  end.

(** The second loop of [getMultiDimIndex]; [shape] is [shape[i ..]]. *)
Fixpoint getMultiDimIndex_loop (acc_mul linear_remain : Z) (shape : list Z)
    : list Z :=
  match shape with
  | [] => []
  | _ :: rest =>
      Z.quot linear_remain acc_mul ::
      getMultiDimIndex_loop (acc_mul_next acc_mul rest)
                            (Z.rem linear_remain acc_mul) rest
  end.

Definition getMultiDimIndex (linear_index : Z) (shape : list Z) : list Z :=
  getMultiDimIndex_loop (acc_mul_init shape) linear_index shape.

(** The second loop of [getLinearIndex]; the lists are
    [multidim_index[i ..]] and [shape[i ..]]. *)
Fixpoint getLinearIndex_loop (acc_mul linear_index : Z)
    (multidim_index shape : list Z) : Z :=
  match multidim_index, shape with
  | m :: idx, _ :: rest =>
      getLinearIndex_loop (acc_mul_next acc_mul rest)
                          (wrap (linear_index + wrap (m * acc_mul))) idx rest
  | _, _ => linear_index
  end.

(** [assert(multidim_index.size() == shape.size())] *)
Definition getLinearIndex (multidim_index shape : list Z) : option Z :=
  if decide (length multidim_index = length shape)
  then Some (getLinearIndex_loop (acc_mul_init shape) 0 multidim_index shape)
  else None.

End IndexAlgebra.

(** An index is valid for a shape when it has the shape's rank and every
    coordinate lies in [[0, extent)]. *)
Definition valid_index (idx shape : list Z) : Prop :=
  Forall2 (λ m s, 0 ≤ m < s) idx shape.

Definition positive_shape (shape : list Z) : Prop := Forall (λ s, 0 < s) shape.

(** The row-major value [sum idx[d] * product shape[d+1 ..]]. *)
Fixpoint rowMajor (idx shape : list Z) : Z :=
  match idx, shape with
  | m :: idx', _ :: rest => m * product rest + rowMajor idx' rest
  | _, _ => 0
  end.

(** ** Aggregate value helpers *)

Section Aggregate.
(** Run-time values of the scalar slots; [undef] is the content of a slot
    of [LLVM::UndefOp].  An LLVM struct value is the list of its fields. *)
Context {V : Type} (undef : V).

(** The loop of [getStructFromElements]: [LLVM::InsertValueOp] at position
    [v.index()], which has to be a field of the struct type. *)
Fixpoint insertValues (llvmStruct : list V) (index : Z) (resultVals : list V)
    : option (list V) :=
  match resultVals with
  | [] => Some llvmStruct
  | v :: vals =>
      llvmStruct' ← set_at llvmStruct index v;
      insertValues llvmStruct' (index + 1) vals
  end.

(** [structType] is given by its number of fields. *)
Definition getStructFromElements (resultVals : list V) (structType : nat)
    : option (list V) :=
  insertValues (replicate structType undef) 0 resultVals.

(** [LLVM::ExtractValueOp] at positions [0 .. elems). *)
Definition getElementsFromStruct (llvmStruct : list V) (elems : Z)
    : option (list V) :=
  mapM (at_ llvmStruct) (seqZ 0 elems).

End Aggregate.

(** ** Layout descriptor *)

(** The fields of [TritonGPUBlockedEncodingAttr], all [ArrayRef<unsigned>]. *)
Record TritonGPUBlockedEncodingAttr := {
  getSizePerThread : list Z;
  getThreadsPerWarp : list Z;
  getWarpsPerCTA : list Z;
  getOrder : list Z
}.

(** [shape[d]] is an [int64_t], the layout fields are [unsigned]: the divisor
    is an [unsigned] product, the quotient an [int64_t], and [elems *= q]
    multiplies in [int64_t] and converts back to [unsigned]. *)
Definition getElemsPerThread (layout : TritonGPUBlockedEncodingAttr)
    (shape : list Z) : option Z :=
  if decide (length shape = length (getThreadsPerWarp layout)) then
    foldM (λ elems d,
             s ← at_ shape d;
             t ← at_ (getThreadsPerWarp layout) d;
             w ← at_ (getWarpsPerCTA layout) d;
             Some (u32 (s64 (elems * Z.quot s (u32 (t * w))))))
          1 (seqZ 0 (Z.of_nat (length shape)))
  else None.

(** Threads along each dimension of one CTA tile, and the extent of the
    tile. *)
Definition threadsPerDimOfTile (layout : TritonGPUBlockedEncodingAttr) : list Z :=
  zip_with Z.mul (getThreadsPerWarp layout) (getWarpsPerCTA layout).

Definition tileShape (layout : TritonGPUBlockedEncodingAttr) : list Z :=
  zip_with Z.mul (getSizePerThread layout) (threadsPerDimOfTile layout).

(** The divisibility invariant of the data model, per dimension. *)
Definition divisible (layout : TritonGPUBlockedEncodingAttr) (shape : list Z) : Prop :=
  Forall2 (λ s tile, Z.rem s tile = 0) shape (tileShape layout).

(** A layout of the given rank with positive entries. *)
Definition wf_layout (layout : TritonGPUBlockedEncodingAttr) (rank : nat) : Prop :=
  length (getSizePerThread layout) = rank ∧
  length (getThreadsPerWarp layout) = rank ∧
  length (getWarpsPerCTA layout) = rank ∧
  positive_shape (getSizePerThread layout) ∧
  positive_shape (getThreadsPerWarp layout) ∧
  positive_shape (getWarpsPerCTA layout).

(** The element count of the specification: the product over the dimensions
    of [shape[d] / (threadsPerWarp[d] * warpsPerCTA[d])]. *)
Definition elementsPerLane (layout : TritonGPUBlockedEncodingAttr)
    (shape : list Z) : Z :=
  product (zip_with Z.div shape (threadsPerDimOfTile layout)).

(** The body of the loop of [getElemsPerThread] on one dimension
    [(s, (t, w))], and the quotients it multiplies. *)
Definition elemsStep (elems : Z) (d : Z * (Z * Z)) : option Z :=
  Some (u32 (s64 (elems * Z.quot d.1 (u32 (d.2.1 * d.2.2))))).

Definition quotients (dims : list (Z * (Z * Z))) : list Z :=
  (λ d, Z.quot d.1 (u32 (d.2.1 * d.2.2))) <$> dims.

(** ** Type resolution *)

Inductive Encoding :=
  | BlockedEncoding (layout : TritonGPUBlockedEncodingAttr)
  | MmaEncoding
  | SharedEncoding
  | OtherEncoding.

Section TypeConverter.
(** Element types, their LLVM counterparts and the scalar conversion of
    [LLVMTypeConverter::convertType], which this file does not define. *)
Context {ElemType LLVMElemType : Type} (convertType : ElemType → LLVMElemType).

Inductive LLVMStructType := getLiteral (body : list LLVMElemType).

(** The inner [option] is the [llvm::Optional] of the source. *)
Definition convertTritonTensorType (encoding : Encoding) (shape : list Z)
    (elementType : ElemType) : option (option LLVMStructType) :=
  match encoding with
  | BlockedEncoding blocked_layout =>
      numElementsPerThread ← getElemsPerThread blocked_layout shape;
      Some (Some (getLiteral
        (replicate (Z.to_nat numElementsPerThread) (convertType elementType))))
  | _ => Some None
  end.

End TypeConverter.

(** ** Module configuration *)

(** Attributes of a module; an [IntegerAttr] carries the zero-extended value
    of its [APInt]. *)
Inductive Attribute :=
  | IntegerAttr (value : Z)
  | StringAttr (value : string)
  | UnitAttr.

(** What a call does: return, [llvm::report_fatal_error], or undefined
    behaviour (a member call on a null attribute). *)
Inductive outcome (A : Type) :=
  | Returns (a : A)
  | FatalError (msg : string)
  | Undefined.
Arguments Returns {A} a.
Arguments FatalError {A} msg.
Arguments Undefined {A}.

(** Modelled from the spec: the constant [AttrNumWarpsName] is declared in a
    header of the TritonGPU dialect that is not among the sources; its value
    is the attribute name of the diagnostic of [extractNumWarps]. *)
Definition AttrNumWarpsName : string := "triton_gpu.num-warps".

(** [getZExtValue] is a [uint64_t]; the result is converted to [int]. *)
Definition extractNumWarps (module : gmap string Attribute) : outcome Z :=
  match module !! AttrNumWarpsName with
  | Some attr =>
      match attr with
      | IntegerAttr value => Returns (s32 value)
      | _ => Undefined
      end
  | None =>
      FatalError "TritonGPU module should contain a triton_gpu.num-warps attribute"
  end.

(** [FuncOpConversion]: the [nvvm.maxntid] annotation of a converted
    function. *)
Definition maxntid (NumWarps : Z) : Z := s32 (32 * NumWarps).

(** ** Per-thread element mapping *)

(** [delinearize(rewriter, loc, linear, shape)].  The emitted [URemOp] and
    [UDivOp] act on 32-bit values; [multiDim(rank)] starts with null values,
    written here as [0], all of which the function overwrites. *)
Definition delinearize (linear : Z) (shape : list Z) : option (list Z) :=
  let rank := Z.of_nat (length shape) in
  if decide (0 < rank) then
    let multiDim := replicate (length shape) 0 in
    if decide (rank = 1) then set_at multiDim 0 linear
    else
      '(remained, multiDim) ←
        foldM (λ '(remained, multiDim) '(index, dimSize),
                 multiDim' ← set_at multiDim (rank - 1 - index)
                                    (remained `mod` dimSize);
                 Some (remained `div` dimSize, multiDim'))
              (linear, multiDim) (enumerate (reverse (drop 1 shape)));
      set_at multiDim 0 remained
  else None.

(** [delinearize(rewriter, loc, linear, shape, order)] *)
Definition delinearize_order (linear : Z) (shape order : list Z)
    : option (list Z) :=
  if decide (length shape = length order) then
    reordered ← mapM (λ i, o ← at_ order i; at_ shape o)
                     (seqZ 0 (Z.of_nat (length shape)));
    delinearize linear reordered
  else None.

(** The four nested loops that fill [offset[k]] for a dimension of extent
    [s] with [sizePerThread[k] = S], [threadsPerWarp[k] = T] and
    [warpsPerCTA[k] = W]. *)
Definition offsetsOfDim (s S T W : Z) : list Z :=
  blockOffset ← seqZ 0 (Z.quot s (u32 (u32 (S * T) * W)));
  warpOffset ← seqZ 0 W;
  threadOffset ← seqZ 0 T;
  elemOffset ← seqZ 0 S;
  [u32 (blockOffset * S * T * W + warpOffset * S * T + threadOffset * S
        + elemOffset)].

(** [std::accumulate(sizePerThread.begin(), sizePerThread.end(), 1,
    std::multiplies<unsigned>())]: the accumulator is an [int], each product
    an [unsigned]. *)
Definition accumSizePerThread (layout : TritonGPUBlockedEncodingAttr) : Z :=
  u32 (foldl (λ acc s, s32 (u32 (u32 acc * s))) 1 (getSizePerThread layout)).

Definition linearNanoTileId (layout : TritonGPUBlockedEncodingAttr) (n : Z) : Z :=
  Z.quot n (accumSizePerThread layout).

Definition linearElemsInNanoTileId (layout : TritonGPUBlockedEncodingAttr) (n : Z) : Z :=
  Z.rem n (accumSizePerThread layout).

Definition multiElemsInNanoTileId (layout : TritonGPUBlockedEncodingAttr) (n : Z)
    : list Z :=
  getMultiDimIndex (T := unsigned_int) (linearElemsInNanoTileId layout n)
                   (getSizePerThread layout).

(** Step 1: the base index of the thread. *)
Definition multiDimBaseOf (blocked_layout : TritonGPUBlockedEncodingAttr)
    (shape : list Z) (threadId : Z) : option (list Z) :=
  let warpSize := 32 in
  let laneId := threadId `mod` warpSize in
  let warpId := threadId `div` warpSize in
  multiDimWarpId ←
    delinearize_order warpId (getWarpsPerCTA blocked_layout) (getOrder blocked_layout);
  multiDimThreadId ←
    delinearize_order laneId (getThreadsPerWarp blocked_layout) (getOrder blocked_layout);
  mapM (λ k,
          threadsPerWarpK ← at_ (getThreadsPerWarp blocked_layout) k;
          sizePerThreadK ← at_ (getSizePerThread blocked_layout) k;
          tid ← at_ multiDimThreadId k;
          wid ← at_ multiDimWarpId k;
          Some (u32 (sizePerThreadK * u32 (tid + u32 (wid * threadsPerWarpK)))))
       (seqZ 0 (Z.of_nat (length shape))).

(** Step 2: [elemsPerThread] and the table [offset] (one loop over [k] in the
    source). *)
Definition elemsPerThreadOf (blocked_layout : TritonGPUBlockedEncodingAttr)
    (shape : list Z) : option Z :=
  foldM (λ elemsPerThread k,
           s ← at_ shape k;
           t ← at_ (getThreadsPerWarp blocked_layout) k;
           w ← at_ (getWarpsPerCTA blocked_layout) k;
           Some (u32 (elemsPerThread * u32 (Z.quot (Z.quot s t) w))))
        1 (seqZ 0 (Z.of_nat (length shape))).

Definition offsetOf (blocked_layout : TritonGPUBlockedEncodingAttr)
    (shape : list Z) : option (list (list Z)) :=
  mapM (λ k,
          s ← at_ shape k;
          S ← at_ (getSizePerThread blocked_layout) k;
          T ← at_ (getThreadsPerWarp blocked_layout) k;
          W ← at_ (getWarpsPerCTA blocked_layout) k;
          Some (offsetsOfDim s S T W))
       (seqZ 0 (Z.of_nat (length shape))).

(** Step 3: [threadsPerDim] and [multiDimIdx[n][k]]. *)
Definition threadsPerDimOf (blocked_layout : TritonGPUBlockedEncodingAttr)
    (shape : list Z) : option (list Z) :=
  mapM (λ k,
          s ← at_ shape k;
          S ← at_ (getSizePerThread blocked_layout) k;
          Some (u32 (Z.quot s S)))
       (seqZ 0 (Z.of_nat (length shape))).

Definition multiDimIdxAt (blocked_layout : TritonGPUBlockedEncodingAttr)
    (multiDimBase : list Z) (offset : list (list Z)) (threadsPerDim : list Z)
    (n k : Z) : option Z :=
  let multiDimNanoTileId :=
    getMultiDimIndex (T := unsigned_int) (linearNanoTileId blocked_layout n)
                     threadsPerDim in
  let multiElemsInNanoTileId := multiElemsInNanoTileId blocked_layout n in
  tile ← at_ multiDimNanoTileId k;
  S ← at_ (getSizePerThread blocked_layout) k;
  T ← at_ (getThreadsPerWarp blocked_layout) k;
  W ← at_ (getWarpsPerCTA blocked_layout) k;
  elem ← at_ multiElemsInNanoTileId k;
  let reorderedMultiDimId := u32 (u32 (tile * u32 (u32 (S * T) * W)) + elem) in
  base ← at_ multiDimBase k;
  offset_k ← at_ offset k;
  off ← at_ offset_k reorderedMultiDimId;
  Some (u32 (base + off)).

(** The multi-dimensional indices of the elements of the thread [threadId],
    as run-time values of the emitted code. *)
Definition emitIndicesForBlockedLayout (blocked_layout : TritonGPUBlockedEncodingAttr)
    (shape : list Z) (threadId : Z) : option (list (list Z)) :=
  multiDimBase ← multiDimBaseOf blocked_layout shape threadId;
  elemsPerThread ← elemsPerThreadOf blocked_layout shape;
  offset ← offsetOf blocked_layout shape;
  threadsPerDim ← threadsPerDimOf blocked_layout shape;
  mapM (λ n, mapM (multiDimIdxAt blocked_layout multiDimBase offset threadsPerDim n)
                  (seqZ 0 (Z.of_nat (length shape))))
       (seqZ 0 elemsPerThread).

(** The indices of all the threads of a block of [numThreads] threads, one
    list per thread. *)
Definition emitIndicesOfBlock (layout : TritonGPUBlockedEncodingAttr)
    (shape : list Z) (numThreads : Z) : option (list (list (list Z))) :=
  mapM (emitIndicesForBlockedLayout layout shape) (seqZ 0 numThreads).

(** The logical indices of a tensor of the given shape. *)
Definition tensorIndices (shape : list Z) : list (list Z) :=
  foldr (λ s rest, i ← seqZ 0 s; (cons i <$> rest)) [[]] shape.

(** ** Broadcast *)

(** The vectors built by the first loop of
    [BroadcastOpConversion::matchAndRewrite]. *)
Record BroadcastShapes := {
  srcLogicalShape : list Z;
  resultLogicalShape : list Z;
  broadcastDims : list Z;
  broadcastSizes : list Z;
  duplicates : Z
}.

(** One iteration of [for (unsigned d = 0; d < rank; ++d)]. *)
Definition broadcastShapesStep (resultLayout : TritonGPUBlockedEncodingAttr)
    (srcShape resultShape : list Z) (st : BroadcastShapes) (d : Z)
    : option BroadcastShapes :=
  let rank := Z.of_nat (length srcShape) in
  resultShapeD ← at_ resultShape d;
  S ← at_ (getSizePerThread resultLayout) d;
  T ← at_ (getThreadsPerWarp resultLayout) d;
  W ← at_ (getWarpsPerCTA resultLayout) d;
  let numCtas := Z.quot resultShapeD (u32 (u32 (S * T) * W)) in
  srcShapeD ← at_ srcShape d;
  st' ←
    (if decide (srcShapeD ≠ resultShapeD) then
       if decide (srcShapeD = 1) then
         srcLogical ← set_at (srcLogicalShape st) d 1;
         srcLogical' ← set_at srcLogical (d + rank) 1;
         Some {| srcLogicalShape := srcLogical';
                 resultLogicalShape := resultLogicalShape st;
                 broadcastDims := broadcastDims st ++ [d];
                 broadcastSizes := broadcastSizes st ++ [resultShapeD];
                 duplicates := s64 (duplicates st * resultShapeD) |}
       else None
     else
       srcLogical ← set_at (srcLogicalShape st) d numCtas;
       srcLogical' ← set_at srcLogical (d + rank) S;
       Some {| srcLogicalShape := srcLogical';
               resultLogicalShape := resultLogicalShape st;
               broadcastDims := broadcastDims st;
               broadcastSizes := broadcastSizes st;
               duplicates := duplicates st |});
  resultLogical ← set_at (resultLogicalShape st') d numCtas;
  resultLogical' ← set_at resultLogical (d + rank) S;
  Some {| srcLogicalShape := srcLogicalShape st';
          resultLogicalShape := resultLogical';
          broadcastDims := broadcastDims st';
          broadcastSizes := broadcastSizes st';
          duplicates := duplicates st' |}.

Definition broadcastShapes (resultLayout : TritonGPUBlockedEncodingAttr)
    (srcShape resultShape : list Z) : option BroadcastShapes :=
  let rank := length srcShape in
  foldM (broadcastShapesStep resultLayout srcShape resultShape)
        {| srcLogicalShape := replicate (2 * rank) 0;
           resultLogicalShape := replicate (2 * rank) 0;
           broadcastDims := [];
           broadcastSizes := [];
           duplicates := 1 |}
        (seqZ 0 (Z.of_nat rank)).

(** [resultMultiDim[bcastDim.value()] = bcastMultiDim[bcastDim.index()]] for
    every broadcast dimension. *)
Definition overwriteBroadcastDims (broadcastDims bcastMultiDim resultMultiDim : list Z)
    : option (list Z) :=
  foldM (λ resultMultiDim '(index, value),
           b ← at_ bcastMultiDim index;
           set_at resultMultiDim value b)
        resultMultiDim (enumerate broadcastDims).

Section Broadcast.
Context {V : Type} (undef : V).

(** The body of [for (int64_t j = 0; j < duplicates; ++j)] for the source
    element [i]; the state is [resultMultiDim] and [resultVals], whose
    unwritten slots are null ([None]). *)
Definition broadcastCopy (st : BroadcastShapes) (srcVals : list V) (i : Z)
    (state : list Z * list (option V)) (j : Z)
    : option (list Z * list (option V)) :=
  let '(resultMultiDim, resultVals) := state in
  let bcastMultiDim := getMultiDimIndex (T := int64_t) j (broadcastSizes st) in
  resultMultiDim' ←
    overwriteBroadcastDims (broadcastDims st) bcastMultiDim resultMultiDim;
  resultLinearIndex ←
    getLinearIndex (T := int64_t) resultMultiDim' (resultLogicalShape st);
  v ← at_ srcVals i;
  resultVals' ← set_at resultVals resultLinearIndex (Some v);
  Some (resultMultiDim', resultVals').

(** The body of [for (unsigned i = 0; i < srcElems; ++i)]. *)
Definition broadcastElem (st : BroadcastShapes) (srcVals : list V)
    (resultVals : list (option V)) (i : Z) : option (list (option V)) :=
  let srcMultiDim := getMultiDimIndex (T := int64_t) i (srcLogicalShape st) in
  state ← foldM (broadcastCopy st srcVals i) (srcMultiDim, resultVals)
                (seqZ 0 (duplicates st));
  Some state.2.

(** [BroadcastOpConversion::matchAndRewrite] on the struct [src] of one
    thread.  Source and result types carry the same layout
    ([assert(srcLayout && (srcLayout == resultLayout))]); the result struct
    type has [getElemsPerThread(resultLayout, resultShape)] fields; a null
    value cannot be an operand of [LLVM::InsertValueOp]. *)
Definition BroadcastOpConversion (layout : TritonGPUBlockedEncodingAttr)
    (srcShape resultShape : list Z) (src : list V) : option (list V) :=
  if decide (length srcShape = length resultShape) then
    st ← broadcastShapes layout srcShape resultShape;
    srcElems ← getElemsPerThread layout srcShape;
    srcVals ← getElementsFromStruct src srcElems;
    resultElems ← getElemsPerThread layout resultShape;
    resultVals ← foldM (broadcastElem st srcVals)
                       (replicate (Z.to_nat resultElems) None)
                       (seqZ 0 srcElems);
    vals ← mapM id resultVals;
    getStructFromElements undef vals (Z.to_nat resultElems)
  else None.

End Broadcast.

(** ** Masked vectorized load *)

(** [blockedLayout.getSizePerThread()[blockedLayout.getOrder()[0]]] *)
Definition vecWidthOf (blockedLayout : TritonGPUBlockedEncodingAttr) : option Z :=
  o ← at_ (getOrder blockedLayout) 0;
  at_ (getSizePerThread blockedLayout) o.

(** [nbits] and [vecWidth] are [unsigned], the widths are [int]. *)
Definition max_word_width (nbits : Z) : Z := Z.max 32 (s32 nbits).
Definition tot_width (nbits vecWidth : Z) : Z := s32 (u32 (nbits * vecWidth)).
Definition width (nbits vecWidth : Z) : Z :=
  Z.min (tot_width nbits vecWidth) (max_word_width nbits).
Definition n_words (nbits vecWidth : Z) : Z :=
  Z.max 1 (Z.quot (tot_width nbits vecWidth) (width nbits vecWidth)).

(** The result types of the inline assembly: one integer of [width] bits per
    hardware word. *)
Definition retTys (nbits vecWidth : Z) : list Z :=
  replicate (Z.to_nat (n_words nbits vecWidth)) (width nbits vecWidth).

Section Load.
Context {V : Type}.

(** The extraction loop of one group.  [rets[ii]] is the word [ii] returned
    by the inline assembly, bit-cast to a vector of [width / nbits]
    elements and given here as the list of these elements;
    [LLVM::ExtractElementOp] takes element [ii % tmp] of word [ii / tmp]. *)
Definition extractLoaded (nbits vecWidth : Z) (rets : list (list V))
    : option (list V) :=
  let tmp := s32 (Z.quot (u32 (width nbits vecWidth)) nbits) in
  mapM (λ ii, word ← at_ rets (Z.quot ii tmp); at_ word (Z.rem ii tmp))
       (seqZ 0 vecWidth).

(** The fallback words of the group that starts at element [i]:
    [otherVals[i + ii * size + s]] is element [s] of word [ii]. *)
Definition othersOfGroup (nbits vecWidth : Z) (otherVals : list V) (i : Z)
    : option (list (list V)) :=
  let size := Z.quot (u32 (width nbits vecWidth)) nbits in
  mapM (λ ii, mapM (λ s, at_ otherVals (i + ii * size + s)) (seqZ 0 size))
       (seqZ 0 (n_words nbits vecWidth)).

(** The starts of the groups: [for (size_t i = 0; i < numElems; i += vecWidth)]. *)
Definition groupStarts (numElems vecWidth : Z) : list Z :=
  (λ g, g * vecWidth) <$> seqZ 0 ((numElems + vecWidth - 1) `div` vecWidth).

End Load.

(** ** The vectors of the broadcast, dimension by dimension *)

(** [srcShape[d] != resultShape[d]] *)
Definition isBroadcastDim (srcShape resultShape : list Z) : list bool :=
  zip_with (λ s r, bool_decide (s ≠ r)) srcShape resultShape.

(** [numCtas] of every dimension, without reduction of the divisor. *)
Definition numCtasOf (layout : TritonGPUBlockedEncodingAttr)
    (resultShape : list Z) : list Z :=
  zip_with Z.quot resultShape (tileShape layout).

(** Extent [1] in the broadcast dimensions. *)
Definition selectBroadcast (B : list bool) (extents : list Z) : list Z :=
  zip_with (λ (b : bool) x, if b then 1 else x) B extents.

(** The broadcast dimensions, counted from [d]. *)
Fixpoint broadcastDimsOf (d : Z) (B : list bool) : list Z :=
  match B with
  | [] => []
  | b :: B => (if b then [d] else []) ++ broadcastDimsOf (d + 1) B
  end.

(** The entries of [l] in the broadcast dimensions. *)
Fixpoint atBroadcastDims (B : list bool) (l : list Z) : list Z :=
  match B, l with
  | b :: B, x :: l => (if b then [x] else []) ++ atBroadcastDims B l
  | _, _ => []
  end.

(** The coordinates of the marked dimensions set to [0]. *)
Definition zeroAt (B : list bool) (idx : list Z) : list Z :=
  zip_with (λ (b : bool) x, if b then 0 else x) B idx.

(** A position of the doubled-rank logical index space with the coordinates
    of the broadcast dimensions, outer and inner, set to [0]. *)
Definition zeroBroadcastDims (B : list bool) (idx : list Z) : list Z :=
  zeroAt (B ++ B) idx.

(** The coordinates of the marked dimensions replaced, in order, by the
    entries of [bcastMultiDim]. *)
Fixpoint overwriteAt (B : list bool) (bcastMultiDim idx : list Z) : list Z :=
  match B, idx with
  | true :: B', _ :: idx' =>
      match bcastMultiDim with
      | b :: bcastMultiDim' => b :: overwriteAt B' bcastMultiDim' idx'
      | [] => idx
      end
  | false :: B', x :: idx' => x :: overwriteAt B' bcastMultiDim idx'
  | _, _ => idx
  end.

(** The state of the first loop after [d] dimensions. *)
Definition broadcastShapesAfter (layout : TritonGPUBlockedEncodingAttr)
    (srcShape resultShape : list Z) (d : nat) : BroadcastShapes :=
  let rank := length srcShape in
  let B := isBroadcastDim srcShape resultShape in
  let numCtas := numCtasOf layout resultShape in
  let S := getSizePerThread layout in
  {| srcLogicalShape :=
       (take d (selectBroadcast B numCtas) ++ replicate (rank - d) 0) ++
       (take d (selectBroadcast B S) ++ replicate (rank - d) 0);
     resultLogicalShape :=
       (take d numCtas ++ replicate (rank - d) 0) ++
       (take d S ++ replicate (rank - d) 0);
     broadcastDims := broadcastDimsOf 0 (take d B);
     broadcastSizes := atBroadcastDims (take d B) resultShape;
     duplicates := product (atBroadcastDims (take d B) resultShape) |}.

(** ** Element types *)

(** The element types of the tensors handled by the rules: [IntegerType] and
    [FloatType] with their bit widths, and the remaining types. *)
Inductive ElementType :=
  | IntegerType (width : Z)
  | FloatType (width : Z)
  | OtherType.

(** [elemTy.isInteger(width)] *)
Definition isInteger (elemTy : ElementType) (width : Z) : bool :=
  match elemTy with
  | IntegerType w => bool_decide (w = width)
  | _ => false
  end.

(** [elemTy.isa<FloatType>() ? elemTy.cast<FloatType>().getWidth()
                              : elemTy.cast<IntegerType>().getWidth()];
    the [cast] asserts. *)
Definition nbitsOf (elemTy : ElementType) : option Z :=
  match elemTy with
  | FloatType w => Some w
  | IntegerType w => Some w
  | OtherType => None
  end.

(** ** View and range *)

Section View.
Context {V : Type} (undef : V).

(** [ViewOpConversion::matchAndRewrite] on the struct [src] of one thread,
    for a result type with a blocked layout: the fields [0 .. elems) of the
    source are read ([getBody()[i]] is a checked subscript) and packed again
    into a struct of [elems] fields. *)
Definition ViewOpConversion (resultLayout : TritonGPUBlockedEncodingAttr)
    (resultShape : list Z) (src : list V) : option (list V) :=
  elems ← getElemsPerThread resultLayout resultShape;
  vals ← getElementsFromStruct src elems;
  getStructFromElements undef vals (Z.to_nat elems).

End View.

(** [MakeRangeOpConversion::matchAndRewrite] for the thread [threadId]: the
    fields of the result as 32-bit run-time values.  [start] is the constant
    of the element type made from [op.start()]; every index has to have one
    coordinate ([assert(multiDim.value().size() == 1)]); the struct type has
    [idxs.size()] fields. *)
Definition MakeRangeOpConversion (undef : Z)
    (blocked_layout : TritonGPUBlockedEncodingAttr) (shape : list Z)
    (elemTy : ElementType) (start : Z) (threadId : Z) : option (list Z) :=
  if isInteger elemTy 32 then
    idxs ← emitIndicesForBlockedLayout blocked_layout shape threadId;
    retVals ← mapM (λ multiDim : list Z,
                      if decide (length multiDim = 1%nat) then
                        idx ← at_ multiDim 0;
                        Some (u32 (idx + u32 start))
                      else None)
                   idxs;
    getStructFromElements undef retVals (length idxs)
  else None.

(** ** The load rule on one thread *)

(** The output and the input constraint letter for a word of [width] bits. *)
Definition outConstraint (width : Z) : string :=
  if decide (width = 64) then "=l" else if decide (width = 32) then "=r" else "=c".

Definition inConstraint (width : Z) : string :=
  if decide (width = 64) then "l" else if decide (width = 32) then "r" else "c".

(** [asmCstrt]: the constraint string of the inline assembly of one group;
    [numOthers] is [others.size()]. *)
Definition asmCstrt (width n_words : Z) (numOthers : nat)
    (has_l2_evict_policy : bool) : string :=
  let outputs :=
    foldl (λ (asmCstrt : string) (ii : Z),
             (if decide (0 < ii) then asmCstrt +:+ "," else asmCstrt)
               +:+ outConstraint width)
          "" (seqZ 0 n_words) in
  let inputs :=
    foldl (λ (asmCstrt : string) (_ : nat), (asmCstrt +:+ ",") +:+ inConstraint width)
          (outputs +:+ ",b,l") (seq 0 numOthers) in
  if has_l2_evict_policy then inputs +:+ ",l" else inputs.

(** [others]: a fallback word is pushed unless the fallback is a splat
    integer constant. *)
Definition othersPushed {V} (otherIsSplatConstInt : bool) (words : list (list V))
    : list (list V) :=
  if otherIsSplatConstInt then [] else words.

Section LoadOp.
Context {P M V : Type} (undef : V).
(** The run-time meaning of the inline assembly of the operation: the words
    that the predicated load returns for its two operands [pred] and [ptr],
    each word given as the list of its [width / nbits] elements. *)
Context (inlineAsm : M → P → list (list V)).

(** The body of [for (size_t i = 0; i < numElems; i += vecWidth)]: the
    values pushed to [loadedVals] by the group that starts at element [i]. *)
Definition loadGroup (nbits vecWidth : Z) (ptrVals : list P) (maskVals : list M)
    (otherVals : list V) (i : Z) : option (list V) :=
  ptr ← at_ ptrVals i;
  pred ← at_ maskVals i;
  _ ← othersOfGroup nbits vecWidth otherVals i;
  extractLoaded nbits vecWidth (inlineAsm pred ptr).

(** [LoadOpConversion::matchAndRewrite] on the structs of one thread;
    [blockedLayout] is the layout of the result type, asserted to be
    blocked.  With [vecWidth = 0] and elements to load the loop of the source
    does not terminate: no result. *)
Definition LoadOpConversion (blockedLayout : TritonGPUBlockedEncodingAttr)
    (shape : list Z) (elemTy : ElementType)
    (ptr : list P) (mask : list M) (other : list V) : option (list V) :=
  vecWidth ← vecWidthOf blockedLayout;
  numElems ← getElemsPerThread blockedLayout shape;
  ptrVals ← getElementsFromStruct ptr numElems;
  maskVals ← getElementsFromStruct mask numElems;
  otherVals ← getElementsFromStruct other numElems;
  nbits ← nbitsOf elemTy;
  if decide (0 < vecWidth ∨ numElems = 0) then
    groups ← mapM (loadGroup nbits vecWidth ptrVals maskVals otherVals)
                  (groupStarts numElems vecWidth);
    getStructFromElements undef (concat groups) (Z.to_nat numElems)
  else None.

End LoadOp.

(** ** Function conversion *)

Section FuncOp.
(** Attributes, linkages and the types of MLIR used by the conversion of a
    function, with the operations of MLIR's function interface and of the
    type converter that the file calls and does not define. *)
Context {Attr Linkage FunctionType LLVMFunctionType SignatureConversion Region : Type}.
Context (SymbolAttrName TypeAttrName ArgDictAttrName : string).
Context (External : Linkage).
Context (dyn_cast_LinkageAttr : Attr → option Linkage).
Context (dyn_cast_BoolAttr : Attr → option bool).
Context (getArrayAttr : list (option Attr) → Attr).
Context (convertFunctionSignature :
           FunctionType → bool → option LLVMFunctionType * SignatureConversion).
Context (getNumParams : LLVMFunctionType → Z).
Context (getInputMapping : SignatureConversion → Z → option (Z * Z)).
Context (convertRegionTypes : Region → SignatureConversion → bool).

Definition NamedAttribute : Type := string * Attr.

(** The names that [filterFuncAttributes] drops. *)
Definition isFiltered (filterArgAttrs : bool) (name : string) : bool :=
  bool_decide (name = SymbolAttrName) || bool_decide (name = TypeAttrName) ||
  bool_decide (name = "std.varargs") ||
  (filterArgAttrs && bool_decide (name = ArgDictAttrName)).

(** [filterFuncAttributes(attrs, filterArgAttrs, result)]; the retained
    attributes are pushed to [result]. *)
Definition filterFuncAttributes (attrs : list NamedAttribute) (filterArgAttrs : bool)
    (result : list NamedAttribute) : list NamedAttribute :=
  foldl (λ result attr,
           if isFiltered filterArgAttrs attr.1 then result else result ++ [attr])
        result attrs.

Record FuncOp := {
  getAttrs : list NamedAttribute;
  getName : string;
  getType : FunctionType;
  getNumArguments : Z;
  getAllArgAttrs : option (list Attr);
  getBody : Region
}.

Record LLVMFuncOp := {
  sym_name : string;
  function_type : LLVMFunctionType;
  linkage : Linkage;
  dso_local : bool;
  attributes : list NamedAttribute;
  body : Region
}.

(** [funcOp->getAttr(name)]; [funcOp->hasAttr(name)] is whether it is not
    null. *)
Definition getAttr (funcOp : FuncOp) (name : string) : option Attr :=
  found ← list_find (λ attr : NamedAttribute, attr.1 = name) (getAttrs funcOp);
  Some found.2.2.

(** The loops that fill [newArgAttrs]: every converted argument obtained
    from the original argument [i] gets [argAttrDicts[i]]. *)
Definition propagateArgAttrs (numArguments numParams : Z)
    (result : SignatureConversion) (argAttrDicts : list Attr)
    : option (list (option Attr)) :=
  foldM (λ newArgAttrs i,
           '(inputNo, size) ← getInputMapping result i;
           foldM (λ newArgAttrs j,
                    a ← at_ argAttrDicts i;
                    set_at newArgAttrs (inputNo + j) (Some a))
                 newArgAttrs (seqZ 0 size))
        (replicate (Z.to_nat numParams) None) (seqZ 0 numArguments).

(** The loop that erases the first attribute named [name] and breaks. *)
Fixpoint eraseFirst (name : string) (attributes : list NamedAttribute)
    : list NamedAttribute :=
  match attributes with
  | [] => []
  | attr :: rest =>
      if decide (attr.1 = name) then rest else attr :: eraseFirst name rest
  end.

(** The linkage of the new function: external unless the function has an
    attribute [llvm.linkage]; [None] when that attribute is not a
    [LinkageAttr] (an error is emitted). *)
Definition linkageOf (funcOp : FuncOp) : option Linkage :=
  match getAttr funcOp "llvm.linkage" with
  | Some attr => dyn_cast_LinkageAttr attr
  | None => Some External
  end.

(** [convertFuncOpToLLVMFuncOp]: [None] is a failed assertion, [Some None]
    the null result. *)
Definition convertFuncOpToLLVMFuncOp (funcOp : FuncOp) : option (option LLVMFuncOp) :=
  let varargsAttr := getAttr funcOp "std.varargs" ≫= dyn_cast_BoolAttr in
  let '(llvmType, result) :=
    convertFunctionSignature (getType funcOp) (default false varargsAttr) in
  llvmType ← llvmType;
  let attributes := filterFuncAttributes (getAttrs funcOp) true [] in
  attributes ←
    match getAllArgAttrs funcOp with
    | Some argAttrDicts =>
        newArgAttrs ← propagateArgAttrs (getNumArguments funcOp)
                                        (getNumParams llvmType) result argAttrDicts;
        Some (attributes ++ [(ArgDictAttrName, getArrayAttr newArgAttrs)])
    | None => Some attributes
    end;
  let attributes := eraseFirst "llvm.linkage" attributes in
  match linkageOf funcOp with
  | None => Some None
  | Some linkage =>
      if convertRegionTypes (getBody funcOp) result then
        Some (Some {| sym_name := getName funcOp; function_type := llvmType;
                      linkage := linkage; dso_local := false;
                      attributes := attributes; body := getBody funcOp |})
      else Some None
  end.

End FuncOp.

(** * Part II: properties *)

(** ** Machine integers *)

Lemma u32_small z : 0 ≤ z < 2 ^ 32 → u32 z = z.
Proof. intros. unfold u32. by apply Z.mod_small. Qed.

Lemma s32_small z : - 2 ^ 31 ≤ z < 2 ^ 31 → s32 z = z.
Proof. intros. unfold s32. rewrite Z.mod_small; lia. Qed.

Lemma s64_small z : - 2 ^ 63 ≤ z < 2 ^ 63 → s64 z = z.
Proof. intros. unfold s64. rewrite Z.mod_small; lia. Qed.

Lemma u32_range x : 0 ≤ u32 x < 2 ^ 32.
Proof. unfold u32. apply Z.mod_pos_bound. lia. Qed.

Lemma u32_s64 x : u32 (s64 x) = u32 x.
Proof.
  unfold u32, s64.
  pose proof (Z.div_mod (x + 2 ^ 63) (2 ^ 64) ltac:(lia)) as H.
  replace ((x + 2 ^ 63) `mod` 2 ^ 64 - 2 ^ 63)
    with (x + (- 2 ^ 32 * ((x + 2 ^ 63) `div` 2 ^ 64)) * 2 ^ 32) by lia.
  apply Z_mod_plus_full.
Qed.

Lemma u32_mul_l a b : u32 (u32 a * b) = u32 (a * b).
Proof. unfold u32. by rewrite Zmult_mod_idemp_l. Qed.

Lemma u32_add_l a b : u32 (u32 a + b) = u32 (a + b).
Proof. unfold u32. by rewrite Zplus_mod_idemp_l. Qed.

Lemma u32_add_r a b : u32 (a + u32 b) = u32 (a + b).
Proof. unfold u32. by rewrite Zplus_mod_idemp_r. Qed.

#[export] Instance unsigned_int_laws : IntTypeLaws unsigned_int.
Proof. intros z Hz. apply u32_small. simpl in Hz. lia. Qed.

#[export] Instance int64_t_laws : IntTypeLaws int64_t.
Proof. intros z Hz. apply s64_small. simpl in Hz. lia. Qed.

(** ** Containers and loops *)

Lemma foldM_app {S A} (body : S → A → option S) s l1 l2 :
  foldM body s (l1 ++ l2) = s' ← foldM body s l1; foldM body s' l2.
Proof.
  revert s. induction l1 as [|x l1 IH]; intros s; simpl; [done|].
  destruct (body s x); simpl; auto.
Qed.

Lemma at_lookup {A} (v : list A) (i : nat) : at_ v (Z.of_nat i) = v !! i.
Proof. unfold at_. rewrite decide_True by lia. by rewrite Nat2Z.id. Qed.

Lemma at_Some {A} (v : list A) (i : Z) x :
  at_ v i = Some x ↔ 0 ≤ i ∧ v !! Z.to_nat i = Some x.
Proof. unfold at_. destruct (decide (0 ≤ i)); intuition congruence. Qed.

Lemma at_lt {A} (v : list A) (i : Z) x :
  at_ v i = Some x → 0 ≤ i < Z.of_nat (length v).
Proof.
  rewrite at_Some. intros [? Hl]. apply lookup_lt_Some in Hl. lia.
Qed.

Lemma seqZ_0_S (n : nat) :
  seqZ 0 (Z.of_nat (S n)) = seqZ 0 (Z.of_nat n) ++ [Z.of_nat n].
Proof. by rewrite seqZ_S. Qed.

(** An index loop over [0 .. length l) that reads [l[i]] is a fold over [l]. *)
Lemma foldM_seqZ {S A} (f : S → Z → option S) (g : S → A → option S) (l : list A) s :
  (∀ s (i : nat) x, l !! i = Some x → f s (Z.of_nat i) = g s x) →
  foldM f s (seqZ 0 (Z.of_nat (length l))) = foldM g s l.
Proof.
  revert s. induction l as [|x l IH] using rev_ind; intros s Hfg; [done|].
  rewrite length_app. simpl length. rewrite Nat.add_1_r, seqZ_0_S, !foldM_app.
  rewrite IH.
  - destruct (foldM g s l) as [s'|]; simpl; [|done].
    erewrite Hfg; [done|]. by rewrite lookup_app_r, Nat.sub_diag by lia.
  - intros s' i y Hi. apply Hfg. by rewrite lookup_app_l by by eapply lookup_lt_Some.
Qed.

(** ** Index algebra *)

Section IndexAlgebraFacts.
Context {T : IntType} {HT : IntTypeLaws T}.

Lemma product_pos shape : positive_shape shape → 0 < product shape.
Proof. induction 1; simpl; lia. Qed.

Lemma product_cons s shape : product (s :: shape) = s * product shape.
Proof. done. Qed.

Lemma product_app l1 l2 : product (l1 ++ l2) = product l1 * product l2.
Proof. induction l1; simpl; lia. Qed.

Lemma product_nonneg l : Forall (λ s, 0 ≤ s) l → 0 ≤ product l.
Proof. induction 1; simpl; lia. Qed.

(** Without overflow the first loop computes the product of [shape[1 ..]]. *)
Lemma foldl_acc_mul acc rest :
  positive_shape rest → 0 ≤ acc → acc * product rest ≤ tmax →
  foldl (λ a s, wrap (a * s)) acc rest = acc * product rest.
Proof.
  intros Hpos. revert acc.
  induction Hpos as [|s rest Hs Hpos IH]; intros acc Hacc Hfit.
  - simpl. lia.
  - simpl in *. pose proof (product_pos _ Hpos).
    rewrite wrap_small by nia. rewrite IH by nia. lia.
Qed.

Lemma acc_mul_init_product s rest :
  positive_shape rest → product rest ≤ tmax →
  acc_mul_init (s :: rest) = product rest.
Proof.
  intros. unfold acc_mul_init. cbn [tail].
  rewrite foldl_acc_mul; [lia|done|lia|lia].
Qed.

Lemma acc_mul_next_product rest :
  positive_shape rest →
  acc_mul_next (product rest) rest = product (tail rest).
Proof.
  destruct 1 as [|s rest Hs Hpos]; [done|]. simpl.
  rewrite Z.mul_comm. rewrite Z.quot_mul; lia.
Qed.

Lemma getMultiDimIndex_loop_cons acc l s rest :
  getMultiDimIndex_loop acc l (s :: rest)
  = Z.quot l acc :: getMultiDimIndex_loop (acc_mul_next acc rest) (Z.rem l acc) rest.
Proof. done. Qed.

Lemma getLinearIndex_loop_cons acc lin m idx s rest :
  getLinearIndex_loop acc lin (m :: idx) (s :: rest)
  = getLinearIndex_loop (acc_mul_next acc rest)
      (wrap (lin + wrap (m * acc))) idx rest.
Proof. done. Qed.

(** Composing the two loops gives back the linear index: the sum of the
    digits weighted by [acc_mul] telescopes. *)
Lemma linear_of_multi_loop s rest lin l :
  positive_shape rest → 0 ≤ lin → 0 ≤ l → lin + l ≤ tmax →
  getLinearIndex_loop (product rest) lin
    (getMultiDimIndex_loop (product rest) l (s :: rest)) (s :: rest) = lin + l.
Proof.
  intros Hpos. revert s lin l.
  induction Hpos as [|s1 rest Hs1 Hpos IH]; intros s lin l Hlin Hl Hfit.
  - simpl. rewrite Z.quot_1_r, Z.mul_1_r.
    rewrite (wrap_small l) by lia. rewrite wrap_small by lia. done.
  - pose proof (product_pos _ Hpos) as Hp.
    rewrite getMultiDimIndex_loop_cons, getLinearIndex_loop_cons.
    rewrite (acc_mul_next_product (s1 :: rest)) by by constructor.
    cbn [tail].
    set (acc := product (s1 :: rest)).
    assert (0 < acc) by (unfold acc; simpl; nia).
    rewrite Z.quot_div_nonneg, Z.rem_mod_nonneg by lia.
    pose proof (Z.div_mod l acc ltac:(lia)).
    pose proof (Z.mod_pos_bound l acc ltac:(lia)).
    assert (0 ≤ l `div` acc) by (apply Z.div_pos; lia).
    rewrite (wrap_small (_ * _)) by nia.
    rewrite wrap_small by nia.
    rewrite IH by nia. nia.
Qed.

Lemma length_getMultiDimIndex_loop acc l shape :
  length (getMultiDimIndex_loop acc l shape) = length shape.
Proof. revert acc l. induction shape; intros; simpl; auto. Qed.

Lemma length_getMultiDimIndex l shape :
  length (getMultiDimIndex l shape) = length shape.
Proof. apply length_getMultiDimIndex_loop. Qed.

Lemma getLinearIndex_getMultiDimIndex l shape :
  positive_shape (tail shape) → product (tail shape) ≤ tmax →
  0 ≤ l ≤ tmax → (shape = [] → l = 0) →
  getLinearIndex (getMultiDimIndex l shape) shape = Some l.
Proof.
  intros Hpos Hfit Hl Hnil. unfold getLinearIndex.
  rewrite decide_True by apply length_getMultiDimIndex.
  f_equal. unfold getMultiDimIndex.
  destruct shape as [|s rest]; [simpl; by rewrite Hnil|].
  simpl in Hpos, Hfit. rewrite acc_mul_init_product by done.
  rewrite linear_of_multi_loop; [lia|done|lia..].
Qed.

Lemma getLinearIndex_getMultiDimIndex_lt l shape :
  positive_shape shape → product shape ≤ tmax → 0 ≤ l < product shape →
  getLinearIndex (getMultiDimIndex l shape) shape = Some l.
Proof.
  intros Hpos Hfit Hl. apply getLinearIndex_getMultiDimIndex; [| |lia|].
  - destruct Hpos; [constructor|done].
  - destruct Hpos as [|s rest Hs Hrest]; simpl in *; [lia|].
    pose proof (product_pos _ Hrest). nia.
  - intros ->. simpl in Hl. lia.
Qed.

Lemma rowMajor_bounds idx shape :
  valid_index idx shape → 0 ≤ rowMajor idx shape < product shape.
Proof.
  induction 1 as [|m s idx rest Hm Hv IH]; simpl; [lia|]. nia.
Qed.

Lemma valid_index_positive idx shape :
  valid_index idx shape → positive_shape shape.
Proof. induction 1; constructor; auto; lia. Qed.

Lemma getLinearIndex_loop_rowMajor m s idx rest lin :
  valid_index (m :: idx) (s :: rest) → 0 ≤ lin →
  lin + rowMajor (m :: idx) (s :: rest) ≤ tmax →
  getLinearIndex_loop (product rest) lin (m :: idx) (s :: rest)
  = lin + rowMajor (m :: idx) (s :: rest).
Proof.
  intros Hv. revert lin. remember (m :: idx) as i eqn:Hi.
  remember (s :: rest) as sh eqn:Hsh. revert m s idx rest Hi Hsh.
  induction Hv as [|m' s' idx' rest' Hm Hv IH];
    intros m s idx rest Hi Hsh lin Hlin Hfit; simplify_eq.
  pose proof (rowMajor_bounds _ _ Hv) as Hb.
  pose proof (valid_index_positive _ _ Hv) as Hpos.
  rewrite getLinearIndex_loop_cons. cbn [rowMajor] in *.
  rewrite (wrap_small (_ * _)) by nia. rewrite wrap_small by nia.
  destruct Hv as [|m1 s1 idx1 rest1 Hm1 Hv1].
  - simpl. lia.
  - rewrite (acc_mul_next_product (s1 :: rest1)) by done. cbn [tail].
    erewrite IH; [|done|done|nia|lia]. lia.
Qed.

Lemma getMultiDimIndex_loop_rowMajor m s idx rest :
  valid_index (m :: idx) (s :: rest) →
  getMultiDimIndex_loop (product rest) (rowMajor (m :: idx) (s :: rest)) (s :: rest)
  = m :: idx.
Proof.
  intros Hv. remember (m :: idx) as i eqn:Hi.
  remember (s :: rest) as sh eqn:Hsh. revert m s idx rest Hi Hsh.
  induction Hv as [|m' s' idx' rest' Hm Hv IH]; intros m s idx rest Hi Hsh;
    simplify_eq.
  pose proof (rowMajor_bounds _ _ Hv) as Hb.
  pose proof (valid_index_positive _ _ Hv) as Hpos.
  pose proof (product_pos _ Hpos) as Hp.
  rewrite getMultiDimIndex_loop_cons. cbn [rowMajor].
  rewrite Z.quot_div_nonneg, Z.rem_mod_nonneg by nia.
  assert ((m * product rest + rowMajor idx rest) `div` product rest = m) as ->.
  { symmetry. apply (Z.div_unique_pos _ _ m (rowMajor idx rest)); lia. }
  assert ((m * product rest + rowMajor idx rest) `mod` product rest
          = rowMajor idx rest) as ->.
  { symmetry. apply (Z.mod_unique_pos _ _ m (rowMajor idx rest)); lia. }
  f_equal. destruct Hv as [|m1 s1 idx1 rest1 Hm1 Hv1]; [done|].
  rewrite (acc_mul_next_product (s1 :: rest1)) by done. cbn [tail].
  by apply (IH m1 s1 idx1 rest1).
Qed.

Lemma getLinearIndex_rowMajor idx shape :
  valid_index idx shape → product shape ≤ tmax →
  getLinearIndex idx shape = Some (rowMajor idx shape).
Proof.
  intros Hv Hfit. unfold getLinearIndex.
  rewrite decide_True by by eapply Forall2_length.
  f_equal. pose proof (rowMajor_bounds _ _ Hv) as Hb.
  pose proof (valid_index_positive _ _ Hv) as Hpos.
  destruct Hv as [|m s idx rest Hm Hv]; [done|].
  inversion Hpos; subst.
  assert (0 < product rest) by by apply product_pos.
  rewrite acc_mul_init_product; [|done|simpl in *; nia].
  rewrite getLinearIndex_loop_rowMajor; [lia|by constructor|lia|lia].
Qed.

Lemma getMultiDimIndex_rowMajor idx shape :
  valid_index idx shape → product shape ≤ tmax →
  getMultiDimIndex (rowMajor idx shape) shape = idx.
Proof.
  intros Hv Hfit. unfold getMultiDimIndex.
  pose proof (valid_index_positive _ _ Hv) as Hpos.
  destruct Hv as [|m s idx rest Hm Hv]; [done|].
  inversion Hpos; subst.
  assert (0 < product rest) by by apply product_pos.
  rewrite acc_mul_init_product; [|done|simpl in *; nia].
  apply getMultiDimIndex_loop_rowMajor. by constructor.
Qed.

End IndexAlgebraFacts.

(** C4. Round trip of the row-major conversions.  For a shape with positive
    extents whose product fits the integer type [T]: every linear index
    [0 <= l < product shape] is recovered by [getLinearIndex] from
    [getMultiDimIndex l shape], and every valid multi-dimensional index is
    recovered by [getMultiDimIndex] from its [getLinearIndex], which lies in
    [[0, product shape)]. *)
Theorem index_round_trip {T : IntType} {HT : IntTypeLaws T} (shape : list Z)
    (Hpos : positive_shape shape) (Hfit : product shape ≤ tmax) :
  (∀ l, 0 ≤ l < product shape →
        getLinearIndex (getMultiDimIndex l shape) shape = Some l) ∧
  (∀ idx, valid_index idx shape →
        ∃ l, getLinearIndex idx shape = Some l ∧ 0 ≤ l < product shape ∧
             getMultiDimIndex l shape = idx).
Proof.
  split.
  - intros l Hl. by apply getLinearIndex_getMultiDimIndex_lt.
  - intros idx Hv. exists (rowMajor idx shape). split_and!.
    + by apply getLinearIndex_rowMajor.
    + by apply rowMajor_bounds.
    + by apply rowMajor_bounds.
    + by apply getMultiDimIndex_rowMajor.
Qed.

Lemma index_round_trip_witness :
  getLinearIndex (T := unsigned_int)
    (getMultiDimIndex (T := unsigned_int) 17 [2; 3; 4]) [2; 3; 4] = Some 17 ∧
  ∃ l, getLinearIndex (T := unsigned_int) [1; 1; 1] [2; 3; 4] = Some l ∧
       0 ≤ l < product [2; 3; 4] ∧
       getMultiDimIndex (T := unsigned_int) l [2; 3; 4] = [1; 1; 1].
Proof.
  assert (positive_shape [2; 3; 4]) as Hpos by (repeat constructor; lia).
  assert (product [2; 3; 4] ≤ tmax (IntType := unsigned_int)) as Hfit
    by (simpl; lia).
  destruct (index_round_trip (T := unsigned_int) [2; 3; 4] Hpos Hfit) as [H1 H2].
  split.
  - apply H1. simpl. lia.
  - apply H2. repeat constructor; lia.
Defined.

(** ** Aggregate value helpers *)

Section AggregateFacts.
Context {V : Type} (undef : V).

Lemma insertValues_app (pre suf vals : list V) :
  (length vals ≤ length suf)%nat →
  insertValues (pre ++ suf) (Z.of_nat (length pre)) vals
  = Some (pre ++ vals ++ drop (length vals) suf).
Proof.
  revert pre suf. induction vals as [|v vals IH]; intros pre suf Hlen.
  - simpl. by rewrite drop_0.
  - destruct suf as [|x suf]; [simpl in Hlen; lia|].
    cbn [insertValues]. unfold set_at.
    rewrite decide_True by (rewrite length_app; simpl; lia).
    simpl. rewrite Nat2Z.id.
    rewrite insert_app_r_alt, Nat.sub_diag by lia. simpl.
    replace (Z.of_nat (length pre) + 1) with (Z.of_nat (length (pre ++ [v])))
      by (rewrite length_app; simpl; lia).
    rewrite (cons_middle v pre suf), app_assoc.
    rewrite IH by (simpl in Hlen; lia).
    by rewrite <- app_assoc.
Qed.

Lemma getStructFromElements_fields (vals : list V) n :
  (length vals ≤ n)%nat →
  getStructFromElements undef vals n
  = Some (vals ++ replicate (n - length vals) undef).
Proof.
  intros Hlen. unfold getStructFromElements.
  pose proof (insertValues_app [] (replicate n undef) vals) as H.
  cbn [app length] in H. change (Z.of_nat 0) with 0 in H.
  rewrite H by by rewrite length_replicate.
  by rewrite drop_replicate.
Qed.

Lemma getElementsFromStruct_app (vals more : list V) :
  getElementsFromStruct (vals ++ more) (Z.of_nat (length vals)) = Some vals.
Proof.
  unfold getElementsFromStruct. apply mapM_Some_2.
  apply Forall2_same_length_lookup_2.
  - by rewrite length_seqZ, Nat2Z.id.
  - intros i x y Hx Hy. apply lookup_seqZ in Hx as [-> Hi].
    rewrite Z.add_0_l, at_lookup. by rewrite lookup_app_l by lia.
Qed.

End AggregateFacts.

(** C6. Pack/unpack round trip.  Packing [values] into a struct type that has
    room for them succeeds, the fields of the packed struct are the values in
    input order (followed by the untouched [undef] fields, if any), and
    unpacking [length values] elements gives back [values]. *)
Theorem pack_unpack_round_trip {V} (undef : V) (values : list V) (structType : nat) :
  (length values ≤ structType)%nat →
  ∃ llvmStruct,
    getStructFromElements undef values structType = Some llvmStruct ∧
    llvmStruct = values ++ replicate (structType - length values) undef ∧
    getElementsFromStruct llvmStruct (Z.of_nat (length values)) = Some values.
Proof.
  intros Hlen. eexists. split_and!.
  - by apply getStructFromElements_fields.
  - done.
  - apply getElementsFromStruct_app.
Qed.

Lemma pack_unpack_round_trip_witness :
  ∃ llvmStruct,
    getStructFromElements 0 [7; 8; 9] 3 = Some llvmStruct ∧
    llvmStruct = [7; 8; 9] ++ replicate (3 - 3) 0 ∧
    getElementsFromStruct llvmStruct 3 = Some [7; 8; 9].
Proof. apply (pack_unpack_round_trip 0 [7; 8; 9] 3). simpl. lia. Defined.

(** ** Element count and type resolution *)

Lemma foldM_elemsStep elems dims :
  0 ≤ elems < 2 ^ 32 →
  foldM elemsStep elems dims = Some (u32 (elems * product (quotients dims))).
Proof.
  revert elems. induction dims as [|d dims IH]; intros elems Helems.
  - simpl. by rewrite Z.mul_1_r, u32_small.
  - cbn [foldM elemsStep quotients fmap list_fmap mbind option_bind].
    rewrite IH by apply u32_range.
    rewrite u32_s64, u32_mul_l. f_equal. f_equal.
    fold (quotients dims). rewrite product_cons. lia.
Qed.

Lemma getElemsPerThread_closed layout shape :
  length shape = length (getThreadsPerWarp layout) →
  (length shape ≤ length (getWarpsPerCTA layout))%nat →
  getElemsPerThread layout shape
  = Some (u32 (product (quotients
      (zip shape (zip (getThreadsPerWarp layout) (getWarpsPerCTA layout)))))).
Proof.
  intros Hlen Hlen'. unfold getElemsPerThread. rewrite decide_True by done.
  set (dims := zip shape (zip (getThreadsPerWarp layout) (getWarpsPerCTA layout))).
  assert (length dims = length shape) as Hdims.
  { unfold dims. rewrite !length_zip. lia. }
  rewrite <- Hdims. erewrite (foldM_seqZ _ elemsStep dims).
  - rewrite foldM_elemsStep by lia. by rewrite Z.mul_1_l.
  - intros elems i [s [t w]] Hi. unfold dims in Hi.
    apply lookup_zip_with_Some in Hi as (s' & tw & [= <- <-] & Hs & Htw).
    apply lookup_zip_with_Some in Htw as (t' & w' & [= <- <-] & Ht & Hw).
    rewrite !at_lookup, Hs, Ht, Hw. done.
Qed.

Lemma quotients_zip shape tpw wpc :
  Forall (λ s, 0 ≤ s) shape →
  Forall (λ tw, 0 < tw < 2 ^ 32) (zip_with Z.mul tpw wpc) →
  quotients (zip shape (zip tpw wpc)) = zip_with Z.div shape (zip_with Z.mul tpw wpc).
Proof.
  intros Hs. revert tpw wpc.
  induction Hs as [|s shape Hs Hshape IH]; intros tpw wpc Htw; [done|].
  destruct tpw as [|t tpw], wpc as [|w wpc]; try done.
  simpl in Htw. inversion Htw as [|? ? Htw1 Htw2]; subst.
  unfold quotients in *. cbn [zip zip_with fmap list_fmap fst snd].
  rewrite u32_small, Z.quot_div_nonneg by lia.
  f_equal. by apply IH.
Qed.

Lemma quotients_zip_quot shape tpw wpc :
  Forall (λ tw, 0 < tw < 2 ^ 32) (zip_with Z.mul tpw wpc) →
  quotients (zip shape (zip tpw wpc)) = zip_with Z.quot shape (zip_with Z.mul tpw wpc).
Proof.
  revert tpw wpc.
  induction shape as [|s shape IH]; intros tpw wpc Htw; [done|].
  destruct tpw as [|t tpw], wpc as [|w wpc]; try done.
  simpl in Htw. inversion Htw as [|? ? Htw1 Htw2]; subst.
  unfold quotients in *. cbn [zip zip_with fmap list_fmap fst snd].
  rewrite u32_small by lia. f_equal. by apply IH.
Qed.

Lemma zip_with_div_nonneg shape divs :
  Forall (λ s, 0 ≤ s) shape → Forall (λ d, 0 < d) divs →
  Forall (λ q, 0 ≤ q) (zip_with Z.div shape divs).
Proof.
  intros Hs. revert divs. induction Hs; intros divs Hd; [constructor|].
  destruct Hd; simpl; constructor; auto. apply Z.div_pos; lia.
Qed.

Lemma getElemsPerThread_elementsPerLane layout shape :
  length shape = length (getThreadsPerWarp layout) →
  length shape = length (getWarpsPerCTA layout) →
  Forall (λ s, 0 ≤ s) shape →
  Forall (λ tw, 0 < tw < 2 ^ 32) (threadsPerDimOfTile layout) →
  elementsPerLane layout shape < 2 ^ 32 →
  0 ≤ elementsPerLane layout shape ∧
  getElemsPerThread layout shape = Some (elementsPerLane layout shape).
Proof.
  intros Ht Hw Hs Htw Hfit.
  assert (0 ≤ elementsPerLane layout shape) as Hnonneg.
  { apply product_nonneg, zip_with_div_nonneg; [done|].
    eapply Forall_impl; [exact Htw|]. simpl. lia. }
  split; [done|].
  rewrite getElemsPerThread_closed by lia.
  rewrite quotients_zip by done. by rewrite u32_small.
Qed.

(** C9. For a blocked layout and a shape of the same rank, with non-negative
    extents, non-zero thread counts and an element count that fits
    [unsigned], [getElemsPerThread] is the product over the dimensions of
    [shape[d] / (threadsPerWarp[d] * warpsPerCTA[d])], and the converted
    tensor type is a literal struct with exactly that many fields, each of the
    converted element type. *)
Theorem getElemsPerThread_product {ElemType LLVMElemType : Type}
    (convertType : ElemType → LLVMElemType)
    (layout : TritonGPUBlockedEncodingAttr) (shape : list Z) (elementType : ElemType) :
  length shape = length (getThreadsPerWarp layout) →
  length shape = length (getWarpsPerCTA layout) →
  Forall (λ s, 0 ≤ s) shape →
  Forall (λ tw, 0 < tw < 2 ^ 32) (threadsPerDimOfTile layout) →
  elementsPerLane layout shape < 2 ^ 32 →
  getElemsPerThread layout shape = Some (elementsPerLane layout shape) ∧
  ∃ body,
    convertTritonTensorType convertType (BlockedEncoding layout) shape elementType
      = Some (Some (getLiteral body)) ∧
    Z.of_nat (length body) = elementsPerLane layout shape ∧
    Forall (λ ty, ty = convertType elementType) body.
Proof.
  intros Ht Hw Hs Htw Hfit.
  destruct (getElemsPerThread_elementsPerLane layout shape) as [Hnonneg He];
    [done..|].
  split; [done|]. eexists. split_and!.
  - unfold convertTritonTensorType. by rewrite He.
  - rewrite length_replicate. lia.
  - apply Forall_replicate. done.
Qed.

Lemma getElemsPerThread_product_witness :
  let layout := {| getSizePerThread := [1; 4]; getThreadsPerWarp := [4; 8];
                   getWarpsPerCTA := [2; 2]; getOrder := [1; 0] |} in
  getElemsPerThread layout [16; 128] = Some 16 ∧
  ∃ body,
    convertTritonTensorType (λ n : nat, S n) (BlockedEncoding layout) [16; 128] 5%nat
      = Some (Some (getLiteral body)) ∧
    Z.of_nat (length body) = 16 ∧
    Forall (λ ty, ty = 6%nat) body.
Proof.
  intros layout.
  apply (getElemsPerThread_product (λ n : nat, S n) layout [16; 128] 5%nat).
  - reflexivity.
  - reflexivity.
  - repeat constructor; lia.
  - repeat constructor; simpl; lia.
  - vm_compute. reflexivity.
Defined.

(** C7, as stated, fails: the shape [[48]] is not divisible by the tile
    [1 * 32 * 1], yet [getElemsPerThread] returns the truncated quotient [1]
    instead of aborting. *)
Lemma getElemsPerThread_truncates :
  let layout := {| getSizePerThread := [1]; getThreadsPerWarp := [32];
                   getWarpsPerCTA := [1]; getOrder := [0] |} in
  ¬ divisible layout [48] ∧ getElemsPerThread layout [48] = Some 1.
Proof.
  intros layout. split; [|reflexivity].
  intros Hdiv. apply Forall2_cons_1 in Hdiv as [Hrem _]. by vm_compute in Hrem.
Qed.

(** [assert(rank == layout.getThreadsPerWarp().size())] is the only check of
    [getElemsPerThread]. *)
Lemma getElemsPerThread_rank_assert layout shape :
  length shape ≠ length (getThreadsPerWarp layout) →
  getElemsPerThread layout shape = None.
Proof. intros Hne. unfold getElemsPerThread. by rewrite decide_False. Qed.

(** C7, amended.  [getElemsPerThread] has no divisibility check: for every
    layout and shape whose ranks agree and whose thread counts are non-zero
    and fit [unsigned], divisible or not, it returns normally, and its result
    is the ([unsigned]) product of the truncated quotients
    [shape[d] / (threadsPerWarp[d] * warpsPerCTA[d])]. *)
Theorem getElemsPerThread_no_divisibility_check
    (layout : TritonGPUBlockedEncodingAttr) (shape : list Z) :
  length shape = length (getThreadsPerWarp layout) →
  length shape = length (getWarpsPerCTA layout) →
  Forall (λ tw, 0 < tw < 2 ^ 32) (threadsPerDimOfTile layout) →
  getElemsPerThread layout shape
  = Some (u32 (product (zip_with Z.quot shape (threadsPerDimOfTile layout)))).
Proof.
  intros Ht Hw Htw. rewrite getElemsPerThread_closed by lia.
  by rewrite quotients_zip_quot.
Qed.

Lemma getElemsPerThread_no_divisibility_check_witness :
  let layout := {| getSizePerThread := [1]; getThreadsPerWarp := [32];
                   getWarpsPerCTA := [1]; getOrder := [0] |} in
  ¬ divisible layout [48] ∧
  getElemsPerThread layout [48]
  = Some (u32 (product (zip_with Z.quot [48] (threadsPerDimOfTile layout)))).
Proof.
  intros layout. split.
  - intros Hdiv. apply Forall2_cons_1 in Hdiv as [Hrem _]. by vm_compute in Hrem.
  - apply (getElemsPerThread_no_divisibility_check layout [48]).
    + reflexivity.
    + reflexivity.
    + repeat constructor; simpl; lia.
Defined.

(** ** Module configuration *)

(** C8. [extractNumWarps] on a module whose [triton_gpu.num-warps] attribute
    is [numWarps] ([None] when the module has no such attribute): without the
    attribute it reports the fatal error, with it it returns the attribute's
    integer value (a value of type [int]). *)
Theorem extractNumWarps_spec (module : gmap string Attribute) (numWarps : option Z) :
  module !! AttrNumWarpsName = IntegerAttr <$> numWarps →
  (∀ v, numWarps = Some v → 0 ≤ v < 2 ^ 31) →
  extractNumWarps module =
    match numWarps with
    | Some v => Returns v
    | None =>
        FatalError "TritonGPU module should contain a triton_gpu.num-warps attribute"
    end.
Proof.
  intros Hattr Hrange. unfold extractNumWarps. rewrite Hattr.
  destruct numWarps as [v|]; simpl; [|done].
  pose proof (Hrange v eq_refl). by rewrite s32_small by lia.
Qed.

Lemma extractNumWarps_spec_witness :
  extractNumWarps (<[AttrNumWarpsName := IntegerAttr 4]> ∅) = Returns 4 ∧
  extractNumWarps (<["sym_name" := StringAttr "kernel"]> ∅)
  = FatalError "TritonGPU module should contain a triton_gpu.num-warps attribute".
Proof.
  split.
  - apply (extractNumWarps_spec _ (Some 4)).
    + reflexivity.
    + intros v [= <-]. lia.
  - apply (extractNumWarps_spec _ None).
    + reflexivity.
    + intros v [=].
Defined.

(** ** Per-thread element mapping *)

Example emitIndices_1d :
  emitIndicesForBlockedLayout
    {| getSizePerThread := [2]; getThreadsPerWarp := [32]; getWarpsPerCTA := [2];
       getOrder := [0] |} [256] 33
  = Some [[66]; [67]; [194]; [195]].
Proof. vm_compute. reflexivity. Qed.

Example emitIndices_2d :
  emitIndicesForBlockedLayout
    {| getSizePerThread := [2; 2]; getThreadsPerWarp := [4; 8]; getWarpsPerCTA := [1; 1];
       getOrder := [0; 1] |} [8; 16] 9
  = Some [[2; 2]; [2; 3]; [3; 2]; [3; 3]].
Proof. vm_compute. reflexivity. Qed.

(** C1 fails on the code.  A row-major layout ([order = [1, 0]]) of one warp
    over a [4 x 8] tensor satisfies the divisibility invariant, yet
    [delinearize] leaves the thread coordinates in the reordered positions:
    thread 20 is given the index [[5, 0]], which is outside the tensor, and no
    thread of the block is given [[0, 5]].  Independently, with the identity
    order, decomposing the tile number by [shape[k] / sizePerThread[k]] makes
    the subscript of [offset[k]] leave its range for a [2 x 64] tensor: no
    index list is produced at all. *)
Theorem emitIndices_coverage_defect :
  let layout := {| getSizePerThread := [1; 1]; getThreadsPerWarp := [4; 8];
                   getWarpsPerCTA := [1; 1]; getOrder := [1; 0] |} in
  let layout' := {| getSizePerThread := [1; 1]; getThreadsPerWarp := [1; 32];
                    getWarpsPerCTA := [1; 1]; getOrder := [0; 1] |} in
  (divisible layout [4; 8] ∧
   emitIndicesForBlockedLayout layout [4; 8] 20 = Some [[5; 0]] ∧
   ([5; 0] ∉ tensorIndices [4; 8]) ∧
   ([0; 5] ∈ tensorIndices [4; 8]) ∧
   ∃ idxs, emitIndicesOfBlock layout [4; 8] 32 = Some idxs ∧ [0; 5] ∉ concat idxs) ∧
  (divisible layout' [2; 64] ∧
   emitIndicesForBlockedLayout layout' [2; 64] 0 = None).
Proof.
  intros layout layout'. split_and!.
  - repeat constructor.
  - vm_compute. reflexivity.
  - apply (bool_decide_unpack _). vm_compute. exact I.
  - apply (bool_decide_unpack _). vm_compute. exact I.
  - eexists. split; [vm_compute; reflexivity|].
    apply (bool_decide_unpack _). vm_compute. exact I.
  - repeat constructor.
  - vm_compute. reflexivity.
Qed.

(** ** Masked vectorized load *)

Lemma widths_exact nbits vecWidth :
  0 < nbits → 0 < vecWidth → nbits * vecWidth < 2 ^ 31 →
  tot_width nbits vecWidth = nbits * vecWidth ∧
  max_word_width nbits = Z.max 32 nbits ∧
  0 < width nbits vecWidth < 2 ^ 31.
Proof.
  intros Hn Hv Hfit. unfold width, tot_width, max_word_width.
  assert (nbits < 2 ^ 31) by nia.
  rewrite (u32_small (nbits * vecWidth)) by nia.
  rewrite !s32_small by nia. split_and!; [done|done|nia|nia].
Qed.

(** Element [i] of the concatenation of words of [t] elements each is element
    [i mod t] of word [i / t]. *)
Lemma lookup_concat_uniform {V} (rets : list (list V)) (t i : nat) y :
  (0 < t)%nat → Forall (λ word, length word = t) rets →
  concat rets !! i = Some y →
  ∃ word, rets !! (i `div` t)%nat = Some word ∧ word !! (i `mod` t)%nat = Some y.
Proof.
  intros Ht Hlen. revert i. induction Hlen as [|word rets Hword Hlen IH]; intros i Hi.
  - done.
  - simpl in Hi. destruct (decide (i < t)%nat) as [Hlt|Hge].
    + rewrite lookup_app_l in Hi by lia. exists word.
      rewrite Nat.div_small, Nat.mod_small by lia. done.
    + rewrite lookup_app_r in Hi by lia. rewrite Hword in Hi.
      destruct (IH _ Hi) as (word' & Hw1 & Hw2). exists word'.
      replace i with ((i - t) + 1 * t)%nat by lia.
      rewrite Nat.div_add, Nat.Div0.mod_add by lia.
      split; [|done]. by rewrite Nat.add_1_r.
Qed.

Lemma length_concat_uniform {V} (rets : list (list V)) (t : nat) :
  Forall (λ word, length word = t) rets →
  length (concat rets) = (length rets * t)%nat.
Proof. induction 1; simpl; [done|]. rewrite length_app. lia. Qed.

Lemma extractLoaded_concat {V} nbits vecWidth (rets : list (list V)) :
  0 < nbits → 0 < vecWidth → nbits * vecWidth < 2 ^ 31 →
  Z.of_nat (length rets) * (width nbits vecWidth `div` nbits) = vecWidth →
  Forall (λ word, Z.of_nat (length word) = width nbits vecWidth `div` nbits) rets →
  extractLoaded nbits vecWidth rets = Some (concat rets).
Proof.
  intros Hn Hv Hfit Hcount Hwords.
  destruct (widths_exact nbits vecWidth) as (Htot & Hmax & Hwidth); [done..|].
  unfold extractLoaded.
  set (t := width nbits vecWidth `div` nbits) in *.
  assert (0 ≤ t) by (apply Z.div_pos; lia).
  assert (0 < t) by nia.
  assert (t ≤ width nbits vecWidth) by (apply Z.div_le_upper_bound; nia).
  rewrite (u32_small (width _ _)) by lia.
  rewrite Z.quot_div_nonneg by lia. fold t. rewrite s32_small by lia.
  assert (Forall (λ word : list V, length word = Z.to_nat t) rets) as Hwords'.
  { eapply Forall_impl; [exact Hwords|]. simpl. lia. }
  apply mapM_Some_2. apply Forall2_same_length_lookup_2.
  - rewrite length_seqZ, (length_concat_uniform _ _ Hwords'). lia.
  - intros i ii y Hii Hy. apply lookup_seqZ in Hii as [-> Hi].
    rewrite Z.add_0_l.
    destruct (lookup_concat_uniform rets (Z.to_nat t) i y) as (word & Hw1 & Hw2);
      [lia|done|done|].
    rewrite Z.quot_div_nonneg, Z.rem_mod_nonneg by lia.
    replace (Z.of_nat i `div` t) with (Z.of_nat (i `div` Z.to_nat t))
      by (rewrite Nat2Z.inj_div; f_equal; lia).
    replace (Z.of_nat i `mod` t) with (Z.of_nat (i `mod` Z.to_nat t))
      by (rewrite Nat2Z.inj_mod; f_equal; lia).
    rewrite at_lookup, Hw1. simpl. by rewrite at_lookup.
Qed.

(** ** Per-thread element mapping: the enumeration order *)

Lemma u32_idemp x : u32 (u32 x) = u32 x.
Proof. apply u32_small, u32_range. Qed.

Lemma u32_s32 x : u32 (s32 x) = u32 x.
Proof.
  unfold u32, s32.
  pose proof (Z.div_mod (x + 2 ^ 31) (2 ^ 32) ltac:(lia)) as H.
  replace ((x + 2 ^ 31) `mod` 2 ^ 32 - 2 ^ 31)
    with (x + (- ((x + 2 ^ 31) `div` 2 ^ 32)) * 2 ^ 32) by lia.
  apply Z_mod_plus_full.
Qed.

Lemma accumSizePerThread_product layout :
  positive_shape (getSizePerThread layout) →
  product (getSizePerThread layout) < 2 ^ 32 →
  accumSizePerThread layout = product (getSizePerThread layout).
Proof.
  intros Hpos Hfit. unfold accumSizePerThread.
  assert (∀ l acc, u32 (foldl (λ acc s, s32 (u32 (u32 acc * s))) acc l)
                   = u32 (acc * product l)) as Hfold.
  { induction l as [|s l IH]; intros acc; simpl.
    - by rewrite Z.mul_1_r.
    - rewrite IH. rewrite <- u32_mul_l, u32_s32, u32_idemp, !u32_mul_l.
      by rewrite <- Z.mul_assoc, u32_mul_l. }
  rewrite Hfold, Z.mul_1_l. apply u32_small.
  pose proof (product_pos _ Hpos). lia.
Qed.

(** A loop nest over [x < n] and [y < m] that reads [x * m + y] visits
    [0 .. n * m) in order. *)
Lemma bind_seqZ_fmap {A} (f : Z → A) (n m : Z) :
  0 ≤ m →
  (x ← seqZ 0 n; (λ y, f (x * m + y)) <$> seqZ 0 m) = f <$> seqZ 0 (n * m).
Proof.
  intros Hm. destruct (decide (n ≤ 0)) as [Hn|Hn].
  { rewrite (seqZ_nil 0 n), (seqZ_nil 0 (n * m)) by nia. done. }
  rewrite <- (Z2Nat.id n) by lia. generalize (Z.to_nat n) as k. clear n Hn.
  induction k as [|k IH].
  { by rewrite (seqZ_nil 0 (Z.of_nat 0)), (seqZ_nil 0 (Z.of_nat 0 * m)) by lia. }
  rewrite seqZ_0_S, bind_app, IH. simpl.
  replace (Z.of_nat (S k) * m) with (Z.of_nat k * m + m) by lia.
  rewrite seqZ_app, fmap_app by nia. f_equal.
  rewrite app_nil_r. rewrite Z.add_0_l.
  replace (seqZ (Z.of_nat k * m) m) with (Z.add (Z.of_nat k * m) <$> seqZ 0 m)
    by (rewrite fmap_add_seqZ; f_equal; lia).
  by rewrite <- list_fmap_compose.
Qed.

Lemma bind_seqZ_singleton {A} (f : Z → A) (n : Z) :
  (x ← seqZ 0 n; [f x]) = f <$> seqZ 0 n.
Proof.
  induction (seqZ 0 n) as [|x l IH]; [done|]. by rewrite bind_cons, IH.
Qed.

Lemma offsetsOfDim_seqZ s S T W :
  0 ≤ S → 0 ≤ T → 0 ≤ W →
  offsetsOfDim s S T W
  = u32 <$> seqZ 0 (Z.quot s (u32 (u32 (S * T) * W)) * (W * (T * S))).
Proof.
  intros HS HT HW. unfold offsetsOfDim.
  rewrite <- (bind_seqZ_fmap u32) by nia.
  apply list_bind_ext; [|done]. intros blockOffset.
  rewrite <- (bind_seqZ_fmap (λ z, u32 (blockOffset * (W * (T * S)) + z))) by nia.
  apply list_bind_ext; [|done]. intros warpOffset.
  rewrite <- (bind_seqZ_fmap
    (λ z, u32 (blockOffset * (W * (T * S)) + (warpOffset * (T * S) + z)))) by nia.
  apply list_bind_ext; [|done]. intros threadOffset.
  rewrite bind_seqZ_singleton. apply list_fmap_ext. intros _ elemOffset _.
  f_equal. lia.
Qed.

(** Entry [j] of [offset[k]] is [j]. *)
Lemma offsetsOfDim_at s S T W j v :
  0 ≤ S → 0 ≤ T → 0 ≤ W →
  at_ (offsetsOfDim s S T W) j = Some v → v = u32 j.
Proof.
  intros HS HT HW Hat. rewrite offsetsOfDim_seqZ in Hat by done.
  apply at_Some in Hat as [Hj Hat].
  rewrite list_lookup_fmap in Hat.
  destruct (seqZ _ _ !! _) as [x|] eqn:Hx; [|done].
  apply lookup_seqZ in Hx as [-> _]. simpl in Hat.
  injection Hat as <-. f_equal. lia.
Qed.

Section RowMajorFacts.
Context {T : IntType} {HT : IntTypeLaws T}.

Lemma getMultiDimIndex_loop_valid s rest l :
  positive_shape (s :: rest) → 0 ≤ l < s * product rest →
  valid_index (getMultiDimIndex_loop (product rest) l (s :: rest)) (s :: rest).
Proof.
  intros Hpos. revert s l Hpos.
  induction rest as [|s1 rest IH]; intros s l Hpos Hl.
  - simpl in *. rewrite Z.quot_1_r. repeat constructor; lia.
  - inversion Hpos as [|? ? Hs Hpos']; subst.
    pose proof (product_pos _ Hpos') as Hp.
    rewrite getMultiDimIndex_loop_cons.
    rewrite Z.quot_div_nonneg, Z.rem_mod_nonneg by lia.
    pose proof (Z.mod_pos_bound l (product (s1 :: rest)) ltac:(lia)).
    constructor.
    + split; [apply Z.div_pos; lia|]. apply Z.div_lt_upper_bound; lia.
    + rewrite (acc_mul_next_product (s1 :: rest)) by done. cbn [tail].
      apply IH; [done|]. rewrite <- product_cons. lia.
Qed.

Lemma getMultiDimIndex_valid l shape :
  positive_shape shape → product shape ≤ tmax → 0 ≤ l < product shape →
  valid_index (getMultiDimIndex l shape) shape.
Proof.
  intros Hpos Hfit Hl. unfold getMultiDimIndex.
  destruct Hpos as [|s rest Hs Hrest]; [constructor|].
  pose proof (product_pos _ Hrest).
  rewrite acc_mul_init_product; [|done|simpl in *; nia].
  apply getMultiDimIndex_loop_valid; [by constructor|done].
Qed.

Lemma rowMajor_getMultiDimIndex l shape :
  positive_shape shape → product shape ≤ tmax → 0 ≤ l < product shape →
  rowMajor (getMultiDimIndex l shape) shape = l.
Proof.
  intros Hpos Hfit Hl.
  pose proof (getMultiDimIndex_valid l shape Hpos Hfit Hl) as Hv.
  pose proof (getLinearIndex_rowMajor _ _ Hv Hfit) as H1.
  rewrite getLinearIndex_getMultiDimIndex_lt in H1 by done.
  by injection H1.
Qed.

End RowMajorFacts.

(** Two indices of a shape that differ at one position only: their row-major
    values differ by the difference of the coordinates times the weight of
    the position. *)
Lemma rowMajor_differ_at (e e' shape : list Z) (f : nat) x x' :
  length e = length shape → length e' = length shape →
  e !! f = Some x → e' !! f = Some x' →
  (∀ k, k ≠ f → e !! k = e' !! k) →
  rowMajor e' shape - rowMajor e shape = (x' - x) * product (drop (S f) shape).
Proof.
  revert e e' f. induction shape as [|s rest IH]; intros e e' f He He' Hx Hx' Hk.
  - destruct e; [done|]. simpl in He. lia.
  - destruct e as [|m e]; [done|]. destruct e' as [|m' e']; [done|].
    destruct f as [|f].
    + simpl in Hx, Hx'. simplify_eq. cbn [rowMajor drop].
      assert (e = e') as ->.
      { apply list_eq. intros k. apply (Hk (S k)). lia. }
      rewrite drop_0. lia.
    + simpl in Hx, Hx'. cbn [rowMajor]. cbn [drop].
      pose proof (Hk 0%nat ltac:(lia)) as H0. simpl in H0. simplify_eq.
      rewrite <- (IH e e' f); [lia|simpl in *; lia|simpl in *; lia|done|done|].
      intros k Hkf. apply (Hk (S k)). lia.
Qed.

(** Consecutive elements of one nano tile whose in-tile coordinates differ at
    position [f] only: the coordinate at [f] grows by one. *)
Lemma multiElemsInNanoTileId_succ layout (n f : nat) :
  positive_shape (getSizePerThread layout) →
  product (getSizePerThread layout) < 2 ^ 32 →
  linearNanoTileId layout (Z.of_nat n) = linearNanoTileId layout (Z.of_nat (S n)) →
  (∀ k, k ≠ f →
     multiElemsInNanoTileId layout (Z.of_nat n) !! k
     = multiElemsInNanoTileId layout (Z.of_nat (S n)) !! k) →
  ∃ x, multiElemsInNanoTileId layout (Z.of_nat n) !! f = Some x ∧
       multiElemsInNanoTileId layout (Z.of_nat (S n)) !! f = Some (x + 1).
Proof.
  intros Hpos Hfit Htile Hrun.
  unfold multiElemsInNanoTileId, linearElemsInNanoTileId, linearNanoTileId in *.
  rewrite accumSizePerThread_product in * by done.
  set (spt := getSizePerThread layout) in *.
  pose proof (product_pos _ Hpos) as Hp.
  rewrite !Z.quot_div_nonneg in Htile by lia.
  rewrite !Z.rem_mod_nonneg in * by lia.
  set (l := Z.of_nat n `mod` product spt) in *.
  set (l' := Z.of_nat (S n) `mod` product spt) in *.
  assert (0 ≤ l < product spt) as Hl by (apply Z.mod_pos_bound; lia).
  assert (0 ≤ l' < product spt) as Hl' by (apply Z.mod_pos_bound; lia).
  assert (l' = l + 1) as Hsucc.
  { pose proof (Z.div_mod (Z.of_nat n) (product spt) ltac:(lia)).
    pose proof (Z.div_mod (Z.of_nat (S n)) (product spt) ltac:(lia)).
    unfold l, l'. rewrite <- Htile in *. lia. }
  assert (product spt ≤ tmax (IntType := unsigned_int)) as Hfit' by (simpl; lia).
  pose proof (rowMajor_getMultiDimIndex (T := unsigned_int) l spt Hpos Hfit' Hl) as Hr.
  pose proof (rowMajor_getMultiDimIndex (T := unsigned_int) l' spt Hpos Hfit' Hl') as Hr'.
  set (e := getMultiDimIndex l spt) in *. set (e' := getMultiDimIndex l' spt) in *.
  assert (length e = length spt) as He by apply length_getMultiDimIndex.
  assert (length e' = length spt) as He' by apply length_getMultiDimIndex.
  destruct (e !! f) as [x|] eqn:Hx; last first.
  { assert (e = e') as Heq.
    { apply list_eq. intros k. destruct (decide (k = f)) as [->|Hne]; [|by apply Hrun].
      rewrite Hx. symmetry. apply lookup_ge_None. apply lookup_ge_None in Hx. lia. }
    rewrite Heq in Hr. lia. }
  destruct (e' !! f) as [x'|] eqn:Hx'; last first.
  { apply lookup_lt_Some in Hx. apply lookup_ge_None in Hx'. lia. }
  exists x. split; [done|]. f_equal.
  pose proof (rowMajor_differ_at e e' spt f x x' He He' Hx Hx' Hrun) as Hd.
  assert (0 < product (drop (S f) spt)) by (apply product_pos; by apply Forall_drop).
  nia.
Qed.

Lemma mapM_seqZ_lookup {A} (f : Z → option A) (n : Z) (l : list A) (i : nat) y :
  mapM f (seqZ 0 n) = Some l → l !! i = Some y → f (Z.of_nat i) = Some y.
Proof.
  intros Hm Hy. apply mapM_Some_1 in Hm.
  destruct (Forall2_lookup_r _ _ _ _ _ Hm Hy) as (x & Hx & Hfx).
  apply lookup_seqZ in Hx as [-> _]. by rewrite Z.add_0_l in Hfx.
Qed.

Lemma mapM_seqZ_length {A} (f : Z → option A) (n : Z) (l : list A) :
  mapM f (seqZ 0 n) = Some l → length l = Z.to_nat n.
Proof. intros Hm. apply length_mapM in Hm. by rewrite length_seqZ in Hm. Qed.

Lemma offsetOf_at layout shape offset (k : nat) offset_k S T W :
  offsetOf layout shape = Some offset →
  at_ offset (Z.of_nat k) = Some offset_k →
  at_ (getSizePerThread layout) (Z.of_nat k) = Some S →
  at_ (getThreadsPerWarp layout) (Z.of_nat k) = Some T →
  at_ (getWarpsPerCTA layout) (Z.of_nat k) = Some W →
  ∃ s, offset_k = offsetsOfDim s S T W.
Proof.
  intros Hoff Hk HS HT HW. rewrite at_lookup in Hk.
  pose proof (mapM_seqZ_lookup _ _ _ _ _ Hoff Hk) as H. simpl in H.
  rewrite HS, HT, HW in H.
  destruct (at_ shape (Z.of_nat k)) as [s|]; [|done]. simpl in H.
  exists s. by injection H.
Qed.

Lemma lookup_positive (l : list Z) (k : nat) x :
  positive_shape l → l !! k = Some x → 0 < x.
Proof. intros Hpos Hk. by apply (Forall_lookup_1 _ _ _ _ Hpos Hk). Qed.

(** The coordinate [k] of two consecutive elements of one nano tile, from the
    in-tile coordinates [x] and [x'] of the two elements. *)
Lemma multiDimIdxAt_adjacent layout shape multiDimBase offset threadsPerDim
    (n k : nat) x x' y y' :
  wf_layout layout (length shape) →
  offsetOf layout shape = Some offset →
  linearNanoTileId layout (Z.of_nat n) = linearNanoTileId layout (Z.of_nat (S n)) →
  multiElemsInNanoTileId layout (Z.of_nat n) !! k = Some x →
  multiElemsInNanoTileId layout (Z.of_nat (S n)) !! k = Some x' →
  multiDimIdxAt layout multiDimBase offset threadsPerDim (Z.of_nat n) (Z.of_nat k)
    = Some y →
  multiDimIdxAt layout multiDimBase offset threadsPerDim (Z.of_nat (S n)) (Z.of_nat k)
    = Some y' →
  (x' = x → y' = y) ∧ (x' = x + 1 → y' = u32 (y + 1)).
Proof.
  intros (HlS & HlT & HlW & HpS & HpT & HpW) Hoff Htile Hx Hx' Hy Hy'.
  unfold multiDimIdxAt in Hy, Hy'. rewrite <- Htile in Hy'.
  rewrite !at_lookup in Hy, Hy'. rewrite Hx in Hy. rewrite Hx' in Hy'.
  destruct (getMultiDimIndex _ threadsPerDim !! k) as [tile|]; [|done].
  destruct (getSizePerThread layout !! k) as [S|] eqn:HS; [|done].
  destruct (getThreadsPerWarp layout !! k) as [T|] eqn:HT; [|done].
  destruct (getWarpsPerCTA layout !! k) as [W|] eqn:HW; [|done].
  destruct (multiDimBase !! k) as [base|]; [|done].
  destruct (offset !! k) as [offset_k|] eqn:Hk; [|done].
  simpl in Hy, Hy'.
  destruct (offsetOf_at layout shape offset k offset_k S T W) as [s ->];
    [done|by rewrite at_lookup..|].
  pose proof (lookup_positive _ _ _ HpS HS).
  pose proof (lookup_positive _ _ _ HpT HT).
  pose proof (lookup_positive _ _ _ HpW HW).
  destruct (at_ (offsetsOfDim s S T W) (u32 (_ + x))) as [off|] eqn:Hoffx; [|done].
  destruct (at_ (offsetsOfDim s S T W) (u32 (_ + x'))) as [off'|] eqn:Hoffx'; [|done].
  apply offsetsOfDim_at in Hoffx; [|lia..].
  apply offsetsOfDim_at in Hoffx'; [|lia..].
  simpl in Hy, Hy'. simplify_eq. split.
  - by intros ->.
  - intros ->. rewrite !u32_idemp, !u32_add_r, u32_add_l. f_equal. lia.
Qed.

(** C2. Adjacency.  For a well-formed layout and a shape that satisfies the
    divisibility invariant, take two consecutive entries [n] and [n + 1] of
    the index list of a thread that lie in the same nano tile and whose
    in-tile coordinates differ at one position [f] only (for the
    fastest-varying position this is the last one).  Then the two indices are
    equal in every dimension but [f], and in dimension [f] the second is the
    first plus one (in the 32-bit arithmetic of the emitted code, hence
    exactly one more unless the first is [2^32 - 1]). *)
Theorem emitIndices_adjacency (layout : TritonGPUBlockedEncodingAttr)
    (shape : list Z) (threadId : Z) (idxs : list (list Z)) (n f : nat)
    (a b : list Z) :
  wf_layout layout (length shape) →
  product (getSizePerThread layout) < 2 ^ 32 →
  positive_shape shape →
  divisible layout shape →
  emitIndicesForBlockedLayout layout shape threadId = Some idxs →
  idxs !! n = Some a →
  idxs !! S n = Some b →
  linearNanoTileId layout (Z.of_nat n) = linearNanoTileId layout (Z.of_nat (S n)) →
  (∀ k, k ≠ f →
     multiElemsInNanoTileId layout (Z.of_nat n) !! k
     = multiElemsInNanoTileId layout (Z.of_nat (S n)) !! k) →
  ∃ x y, a !! f = Some x ∧ b !! f = Some y ∧
         y = u32 (x + 1) ∧ (x ≠ 2 ^ 32 - 1 → y = x + 1) ∧
         ∀ k, k ≠ f → a !! k = b !! k.
Proof.
  intros Hwf Hfit Hshape Hdiv Hemit Ha Hb Htile Hrun.
  pose proof Hwf as (HlS & HlT & HlW & HpS & HpT & HpW).
  unfold emitIndicesForBlockedLayout in Hemit.
  destruct (multiDimBaseOf layout shape threadId) as [multiDimBase|]; [|done].
  destruct (elemsPerThreadOf layout shape) as [elemsPerThread|]; [|done].
  destruct (offsetOf layout shape) as [offset|] eqn:Hoff; [|done].
  destruct (threadsPerDimOf layout shape) as [threadsPerDim|]; [|done].
  simpl in Hemit.
  pose proof (mapM_seqZ_lookup _ _ _ _ _ Hemit Ha) as Hma.
  pose proof (mapM_seqZ_lookup _ _ _ _ _ Hemit Hb) as Hmb.
  simpl in Hma, Hmb.
  pose proof (mapM_seqZ_length _ _ _ Hma) as Hlena.
  pose proof (mapM_seqZ_length _ _ _ Hmb) as Hlenb.
  rewrite Nat2Z.id in Hlena, Hlenb.
  destruct (multiElemsInNanoTileId_succ layout n f HpS Hfit Htile Hrun)
    as (e & He & He').
  assert (f < length shape)%nat as Hf.
  { apply lookup_lt_Some in He. unfold multiElemsInNanoTileId in He.
    rewrite length_getMultiDimIndex in He. lia. }
  destruct (lookup_lt_is_Some_2 a f ltac:(lia)) as [x Hx].
  destruct (lookup_lt_is_Some_2 b f ltac:(lia)) as [y Hy].
  pose proof (mapM_seqZ_lookup _ _ _ _ _ Hma Hx) as Hax.
  pose proof (mapM_seqZ_lookup _ _ _ _ _ Hmb Hy) as Hby.
  destruct (multiDimIdxAt_adjacent layout shape multiDimBase offset threadsPerDim
              n f e (e + 1) x y Hwf Hoff Htile He He' Hax Hby) as [_ Hsucc].
  specialize (Hsucc eq_refl).
  exists x, y. split_and!; [done|done|done| |].
  - intros Hne. rewrite Hsucc. apply u32_small.
    assert (0 ≤ x < 2 ^ 32); [|lia].
    unfold multiDimIdxAt in Hax.
    repeat (match type of Hax with
            | (?m ≫= _) = Some _ => destruct m; [simpl in Hax|done]
            end).
    injection Hax as <-. apply u32_range.
  - intros k Hk. destruct (decide (k < length shape)%nat) as [Hlt|Hge].
    + destruct (lookup_lt_is_Some_2 a k ltac:(lia)) as [xk Hxk].
      destruct (lookup_lt_is_Some_2 b k ltac:(lia)) as [yk Hyk].
      pose proof (mapM_seqZ_lookup _ _ _ _ _ Hma Hxk) as Haxk.
      pose proof (mapM_seqZ_lookup _ _ _ _ _ Hmb Hyk) as Hbyk.
      pose proof (Hrun k Hk) as Hek.
      destruct (multiElemsInNanoTileId layout (Z.of_nat n) !! k) as [ek|] eqn:Hek1.
      * destruct (multiDimIdxAt_adjacent layout shape multiDimBase offset
                    threadsPerDim n k ek ek xk yk Hwf Hoff Htile Hek1
                    (eq_sym Hek) Haxk Hbyk) as [Hsame _].
        rewrite Hxk, Hyk. f_equal. symmetry. by apply Hsame.
      * apply lookup_ge_None in Hek1. unfold multiElemsInNanoTileId in Hek1.
        rewrite length_getMultiDimIndex in Hek1. lia.
    + rewrite !(proj2 (lookup_ge_None _ _)) by lia. done.
Qed.

Lemma emitIndices_adjacency_witness :
  let layout := {| getSizePerThread := [2; 2]; getThreadsPerWarp := [4; 8];
                   getWarpsPerCTA := [1; 1]; getOrder := [0; 1] |} in
  emitIndicesForBlockedLayout layout [8; 16] 9
  = Some [[2; 2]; [2; 3]; [3; 2]; [3; 3]] ∧
  ∃ x y, [2; 2] !! 1%nat = Some x ∧ [2; 3] !! 1%nat = Some y ∧
         y = u32 (x + 1) ∧ (x ≠ 2 ^ 32 - 1 → y = x + 1) ∧
         ∀ k, k ≠ 1%nat → [2; 2] !! k = [2; 3] !! k.
Proof.
  intros layout.
  assert (emitIndicesForBlockedLayout layout [8; 16] 9
          = Some [[2; 2]; [2; 3]; [3; 2]; [3; 3]]) as Hemit
    by (vm_compute; reflexivity).
  split; [exact Hemit|].
  apply (emitIndices_adjacency layout [8; 16] 9 [[2; 2]; [2; 3]; [3; 2]; [3; 3]]
           0 1 [2; 2] [2; 3]).
  - repeat split; repeat constructor; lia.
  - simpl. lia.
  - repeat constructor; lia.
  - repeat constructor.
  - exact Hemit.
  - reflexivity.
  - reflexivity.
  - vm_compute. reflexivity.
  - intros k Hk. destruct k as [|[|k]]; [reflexivity|lia|reflexivity].
Defined.

(** ** Per-thread element mapping: one-dimensional layouts *)

(** For a one-dimensional layout of full warps the function enumerates, for
    the thread [tid], the elements [S * tid + tile * (S * 32 * W) + e]. *)
Lemma emitIndices_rank1 (S W c tid : Z) :
  0 < S → 0 < W → 0 < c → c * (S * 32 * W) < 2 ^ 32 → 0 ≤ tid < 32 * W →
  emitIndicesForBlockedLayout
    {| getSizePerThread := [S]; getThreadsPerWarp := [32]; getWarpsPerCTA := [W];
       getOrder := [0] |} [c * (S * 32 * W)] tid
  = Some ((λ n, [S * tid + n `div` S * (S * 32 * W) + n `mod` S])
          <$> seqZ 0 (c * S)).
Proof.
  intros HS HW Hc Hfit Htid.
  set (layout := {| getSizePerThread := [S]; getThreadsPerWarp := [32];
                    getWarpsPerCTA := [W]; getOrder := [0] |}).
  set (s := c * (S * 32 * W)).
  assert (0 < S * 32 * W) as Htile by nia.
  assert (S * 32 * W ≤ s) as Hts by (unfold s; nia).
  unfold emitIndicesForBlockedLayout.
  assert (multiDimBaseOf layout [s] tid
          = Some [u32 (S * u32 (tid `mod` 32 + u32 (tid `div` 32 * 32)))])
    as -> by reflexivity.
  assert (elemsPerThreadOf layout [s]
          = Some (u32 (1 * u32 (Z.quot (Z.quot s 32) W)))) as -> by reflexivity.
  assert (offsetOf layout [s] = Some [offsetsOfDim s S 32 W]) as -> by reflexivity.
  assert (threadsPerDimOf layout [s] = Some [u32 (Z.quot s S)]) as -> by reflexivity.
  cbn [mbind option_bind length].
  change (seqZ 0 (Z.of_nat 1)) with [0].
  assert (Z.quot (Z.quot s 32) W = c * S) as ->.
  { replace s with (c * S * W * 32) by (unfold s; lia).
    rewrite (Z.quot_mul (c * S * W) 32) by lia. apply Z.quot_mul. lia. }
  rewrite Z.mul_1_l, u32_idemp, (u32_small (c * S)) by nia.
  apply mapM_Some_2, Forall2_fmap_r, Forall_Forall2_diag, Forall_forall.
  intros n Hn. apply elem_of_seqZ in Hn.
  assert (accumSizePerThread layout = S) as Hacc.
  { rewrite accumSizePerThread_product; simpl; [lia|repeat constructor; lia|nia]. }
  pose proof (Z.div_mod tid 32 ltac:(lia)).
  pose proof (Z.mod_pos_bound tid 32 ltac:(lia)).
  assert (0 ≤ tid `div` 32) by (apply Z.div_pos; lia).
  pose proof (Z.div_mod n S ltac:(lia)).
  pose proof (Z.mod_pos_bound n S ltac:(lia)).
  assert (0 ≤ n `div` S) by (apply Z.div_pos; lia).
  assert (n `div` S < c) by (apply Z.div_lt_upper_bound; lia).
  assert (0 ≤ n `div` S * (S * 32 * W) + n `mod` S < s) as Hoff by (unfold s; nia).
  assert (multiDimIdxAt layout
            [u32 (S * u32 (tid `mod` 32 + u32 (tid `div` 32 * 32)))]
            [offsetsOfDim s S 32 W] [u32 (Z.quot s S)] n 0
          = Some (S * tid + n `div` S * (S * 32 * W) + n `mod` S)) as Hk.
  { unfold multiDimIdxAt, multiElemsInNanoTileId, linearNanoTileId,
      linearElemsInNanoTileId.
    rewrite Hacc.
    rewrite Z.quot_div_nonneg, Z.rem_mod_nonneg by lia.
    assert (getMultiDimIndex (T := unsigned_int) (n `div` S) [u32 (Z.quot s S)]
            = [Z.quot (n `div` S) 1]) as -> by reflexivity.
    assert (getMultiDimIndex (T := unsigned_int) (n `mod` S) (getSizePerThread layout)
            = [Z.quot (n `mod` S) 1]) as -> by reflexivity.
    rewrite !Z.quot_1_r.
    change (at_ [n `div` S] 0) with (Some (n `div` S)).
    change (at_ [n `mod` S] 0) with (Some (n `mod` S)).
    change (at_ (getSizePerThread layout) 0) with (Some S).
    change (at_ (getThreadsPerWarp layout) 0) with (Some 32).
    change (at_ (getWarpsPerCTA layout) 0) with (Some W).
    cbn [mbind option_bind].
    rewrite (u32_small (S * 32)) by nia. rewrite (u32_small (S * 32 * W)) by nia.
    rewrite (u32_small (n `div` S * (S * 32 * W))) by nia.
    rewrite (u32_small (_ + n `mod` S)) by lia.
    rewrite (u32_small (tid `div` 32 * 32)) by nia.
    rewrite (u32_small (tid `mod` 32 + _)) by nia.
    rewrite (u32_small (S * _)) by nia.
    match goal with |- context [at_ [?b] 0] => change (at_ [b] 0) with (Some b) end.
    match goal with |- context [at_ [?b] 0] => change (at_ [b] 0) with (Some b) end.
    cbn [mbind option_bind].
    rewrite offsetsOfDim_seqZ by lia.
    rewrite (u32_small (S * 32)) by nia. rewrite (u32_small (S * 32 * W)) by nia.
    replace (Z.quot s (S * 32 * W) * (W * (32 * S))) with s
      by (unfold s; rewrite Z.quot_mul by lia; lia).
    unfold at_. rewrite decide_True by lia.
    rewrite list_lookup_fmap, lookup_seqZ_lt by lia. cbn [fmap option_fmap option_map mbind option_bind].
    rewrite Z2Nat.id, Z.add_0_l, (u32_small (_ + n `mod` S)) by lia.
    f_equal. rewrite u32_small by nia. lia. }
  cbn [mapM]. rewrite Hk. reflexivity.
Qed.

(** X6. Coverage for the one-dimensional layouts of full warps: every index of
    the tensor is given to exactly one thread of the block, at one position,
    and every given index is an index of the tensor. *)
Lemma emitIndices_rank1_coverage (S W c : Z) :
  0 < S → 0 < W → 0 < c → c * (S * 32 * W) < 2 ^ 32 →
  let layout := {| getSizePerThread := [S]; getThreadsPerWarp := [32];
                   getWarpsPerCTA := [W]; getOrder := [0] |} in
  let shape := [c * (S * 32 * W)] in
  (∀ x, 0 ≤ x < c * (S * 32 * W) →
     ∃ tid (n : nat) idxs,
       0 ≤ tid < 32 * W ∧
       emitIndicesForBlockedLayout layout shape tid = Some idxs ∧
       idxs !! n = Some [x] ∧
       ∀ tid' (n' : nat) idxs',
         0 ≤ tid' < 32 * W →
         emitIndicesForBlockedLayout layout shape tid' = Some idxs' →
         idxs' !! n' = Some [x] → tid' = tid ∧ n' = n) ∧
  (∀ tid (n : nat) idxs idx,
     0 ≤ tid < 32 * W →
     emitIndicesForBlockedLayout layout shape tid = Some idxs →
     idxs !! n = Some idx → ∃ x, idx = [x] ∧ 0 ≤ x < c * (S * 32 * W)).
Proof.
  intros HS HW Hc Hfit layout shape.
  assert (0 < S * 32 * W) as Htile by nia.
  assert (∀ tid (n : nat) idxs idx,
            0 ≤ tid < 32 * W →
            emitIndicesForBlockedLayout layout shape tid = Some idxs →
            idxs !! n = Some idx →
            Z.of_nat n < c * S ∧
            idx = [S * tid + Z.of_nat n `div` S * (S * 32 * W) + Z.of_nat n `mod` S])
    as Hat.
  { intros tid n idxs idx Htid Hemit Hn. unfold layout, shape in Hemit.
    rewrite emitIndices_rank1 in Hemit by done. injection Hemit as <-.
    rewrite list_lookup_fmap in Hn.
    destruct (seqZ 0 (c * S) !! n) as [m|] eqn:Hm; [|done].
    apply lookup_seqZ in Hm as [-> Hlt]. simpl in Hn. injection Hn as <-.
    by rewrite Z.add_0_l. }
  split.
  - intros x Hx.
    set (tile := x `div` (S * 32 * W)). set (r := x `mod` (S * 32 * W)).
    pose proof (Z.div_mod x (S * 32 * W) ltac:(lia)) as Hdm. fold tile r in Hdm.
    pose proof (Z.mod_pos_bound x (S * 32 * W) ltac:(lia)) as Hr. fold r in Hr.
    assert (0 ≤ tile) by (apply Z.div_pos; lia).
    assert (tile < c) by (apply Z.div_lt_upper_bound; lia).
    pose proof (Z.div_mod r S ltac:(lia)) as Hdm'.
    pose proof (Z.mod_pos_bound r S ltac:(lia)) as Hr'.
    assert (0 ≤ r `div` S) by (apply Z.div_pos; lia).
    assert (r `div` S < 32 * W) by (apply Z.div_lt_upper_bound; lia).
    set (m := tile * S + r `mod` S).
    assert (0 ≤ m < c * S) as Hm by (unfold m; nia).
    assert (m `div` S = tile) as Hmd.
    { symmetry. apply (Z.div_unique_pos m S tile (r `mod` S)); unfold m; lia. }
    assert (m `mod` S = r `mod` S) as Hmm.
    { symmetry. apply (Z.mod_unique_pos m S tile (r `mod` S)); unfold m; lia. }
    eexists (r `div` S), (Z.to_nat m), _. split_and!; [lia|lia| | |].
    + unfold layout, shape. apply emitIndices_rank1; (done || lia).
    + rewrite list_lookup_fmap, lookup_seqZ_lt by lia. simpl.
      rewrite Z.add_0_l, Z2Nat.id, Hmd, Hmm by lia. do 2 f_equal. lia.
    + intros tid' n' idxs' Htid' Hemit' Hn'.
      destruct (Hat tid' n' idxs' [x] Htid' Hemit' Hn') as [Hlt Heq].
      injection Heq as Heq.
      pose proof (Z.div_mod (Z.of_nat n') S ltac:(lia)) as Hn1.
      pose proof (Z.mod_pos_bound (Z.of_nat n') S ltac:(lia)) as Hn2.
      assert (0 ≤ Z.of_nat n' `div` S) by (apply Z.div_pos; lia).
      set (t' := Z.of_nat n' `div` S) in *. set (e' := Z.of_nat n' `mod` S) in *.
      assert (0 ≤ S * tid' + e' < S * 32 * W) as Hin by nia.
      assert (tile = t') as Ht.
      { unfold tile. symmetry.
        apply (Z.div_unique_pos x (S * 32 * W) t' (S * tid' + e')); lia. }
      assert (r = S * tid' + e') as Hre.
      { unfold r. symmetry.
        apply (Z.mod_unique_pos x (S * 32 * W) t' (S * tid' + e')); lia. }
      assert (r `div` S = tid') as Htd.
      { symmetry. apply (Z.div_unique_pos r S tid' e'); lia. }
      assert (r `mod` S = e') as Hem.
      { symmetry. apply (Z.mod_unique_pos r S tid' e'); lia. }
      split; [lia|]. unfold m. rewrite Ht, Hem. lia.
  - intros tid n idxs idx Htid Hemit Hn.
    destruct (Hat tid n idxs idx Htid Hemit Hn) as [Hlt ->].
    eexists. split; [done|].
    pose proof (Z.mod_pos_bound (Z.of_nat n) S ltac:(lia)).
    assert (0 ≤ Z.of_nat n `div` S) by (apply Z.div_pos; lia).
    assert (Z.of_nat n `div` S < c) by (apply Z.div_lt_upper_bound; lia).
    nia.
Qed.

Lemma emitIndices_rank1_coverage_witness :
  let layout := {| getSizePerThread := [2]; getThreadsPerWarp := [32];
                   getWarpsPerCTA := [2]; getOrder := [0] |} in
  let shape := [2 * (2 * 32 * 2)] in
  (∀ x, 0 ≤ x < 2 * (2 * 32 * 2) →
     ∃ tid (n : nat) idxs,
       0 ≤ tid < 32 * 2 ∧
       emitIndicesForBlockedLayout layout shape tid = Some idxs ∧
       idxs !! n = Some [x] ∧
       ∀ tid' (n' : nat) idxs',
         0 ≤ tid' < 32 * 2 →
         emitIndicesForBlockedLayout layout shape tid' = Some idxs' →
         idxs' !! n' = Some [x] → tid' = tid ∧ n' = n) ∧
  (∀ tid (n : nat) idxs idx,
     0 ≤ tid < 32 * 2 →
     emitIndicesForBlockedLayout layout shape tid = Some idxs →
     idxs !! n = Some idx → ∃ x, idx = [x] ∧ 0 ≤ x < 2 * (2 * 32 * 2)).
Proof. apply (emitIndices_rank1_coverage 2 2 2); lia. Defined.

(** ** Broadcast *)

Example broadcast_4x1_to_4x3 :
  BroadcastOpConversion 0
    {| getSizePerThread := [1; 1]; getThreadsPerWarp := [4; 1];
       getWarpsPerCTA := [1; 1]; getOrder := [0; 1] |} [4; 1] [4; 3] [42]
  = Some [42; 42; 42].
Proof. vm_compute. reflexivity. Qed.

Example broadcast_2d_rows :
  BroadcastOpConversion 0
    {| getSizePerThread := [1; 2]; getThreadsPerWarp := [1; 32];
       getWarpsPerCTA := [1; 1]; getOrder := [1; 0] |} [1; 128] [2; 128]
    [10; 11; 12; 13]
  = Some [10; 11; 12; 13; 10; 11; 12; 13].
Proof. vm_compute. reflexivity. Qed.

Example broadcast_identity :
  BroadcastOpConversion 0
    {| getSizePerThread := [1; 2]; getThreadsPerWarp := [1; 32];
       getWarpsPerCTA := [1; 1]; getOrder := [1; 0] |} [2; 128] [2; 128]
    [10; 11; 12; 13; 14; 15; 16; 17]
  = Some [10; 11; 12; 13; 14; 15; 16; 17].
Proof. vm_compute. reflexivity. Qed.

(** With a contiguous run of two elements in the broadcast dimension the
    source does not satisfy the divisibility invariant, and the copy loop
    writes past the end of [resultVals]. *)
Example broadcast_replicated_source :
  BroadcastOpConversion 0
    {| getSizePerThread := [1; 2]; getThreadsPerWarp := [4; 1];
       getWarpsPerCTA := [1; 1]; getOrder := [0; 1] |} [4; 1] [4; 4] [42]
  = None.
Proof. vm_compute. reflexivity. Qed.

(** *** The first loop of the broadcast *)

Lemma set_at_Some {A} (v : list A) (i : nat) x :
  (i < length v)%nat → set_at v (Z.of_nat i) x = Some (<[i := x]> v).
Proof. intros. unfold set_at. rewrite decide_True by lia. by rewrite Nat2Z.id. Qed.

Lemma set_at_prefix (A rest : list Z) (r d : nat) v :
  (d < r)%nat → A !! d = Some v →
  set_at ((take d A ++ replicate (r - d) 0) ++ rest) (Z.of_nat d) v
  = Some ((take (S d) A ++ replicate (r - S d) 0) ++ rest).
Proof.
  intros Hd Hv. pose proof (lookup_lt_Some _ _ _ Hv) as Hlt.
  rewrite set_at_Some
    by (rewrite !length_app, length_take, length_replicate; lia).
  f_equal. rewrite <- !app_assoc.
  rewrite insert_app_r_alt by (rewrite length_take; lia).
  rewrite length_take, Nat.min_l, Nat.sub_diag by lia.
  rewrite (take_S_r _ _ _ Hv), <- app_assoc. f_equal.
  replace (r - d)%nat with (S (r - S d)) by lia. done.
Qed.

Lemma set_at_suffix (A pre : list Z) (r d : nat) v :
  length pre = r → (d < r)%nat → A !! d = Some v →
  set_at (pre ++ (take d A ++ replicate (r - d) 0)) (Z.of_nat d + Z.of_nat r) v
  = Some (pre ++ (take (S d) A ++ replicate (r - S d) 0)).
Proof.
  intros Hpre Hd Hv. pose proof (lookup_lt_Some _ _ _ Hv) as Hlt.
  rewrite <- Nat2Z.inj_add.
  rewrite set_at_Some
    by (rewrite !length_app, length_take, length_replicate; lia).
  f_equal. rewrite insert_app_r_alt by lia. f_equal.
  replace (d + r - length pre)%nat with d by lia.
  rewrite insert_app_r_alt by (rewrite length_take; lia).
  rewrite length_take, Nat.min_l, Nat.sub_diag by lia.
  rewrite (take_S_r _ _ _ Hv), <- app_assoc. f_equal.
  replace (r - d)%nat with (S (r - S d)) by lia. done.
Qed.

Lemma broadcastDimsOf_app d B1 B2 :
  broadcastDimsOf d (B1 ++ B2)
  = broadcastDimsOf d B1 ++ broadcastDimsOf (d + Z.of_nat (length B1)) B2.
Proof.
  revert d. induction B1 as [|b B1 IH]; intros d; simpl.
  - by rewrite Z.add_0_r.
  - rewrite IH, <- app_assoc. do 3 f_equal. lia.
Qed.

Lemma atBroadcastDims_snoc B1 (b : bool) l x :
  l !! length B1 = Some x →
  atBroadcastDims (B1 ++ [b]) l = atBroadcastDims B1 l ++ (if b then [x] else []).
Proof.
  revert l. induction B1 as [|b1 B1 IH]; intros l Hx.
  - destruct l as [|y l]; simplify_eq/=. by rewrite app_nil_r.
  - destruct l as [|y l]; simplify_eq/=. by rewrite IH, app_assoc.
Qed.

Lemma atBroadcastDims_product B l :
  positive_shape l →
  positive_shape (atBroadcastDims B l) ∧ product (atBroadcastDims B l) ≤ product l.
Proof.
  intros Hpos. revert B. induction Hpos as [|x l Hx Hpos IH]; intros B.
  - destruct B; simpl; split; (constructor || lia).
  - destruct B as [|b B]; simpl.
    + split; [constructor|]. pose proof (product_pos _ Hpos). nia.
    + destruct (IH B) as [IH1 IH2]. pose proof (product_pos _ IH1).
      pose proof (product_pos _ Hpos).
      destruct b; simpl; split; try (by constructor); try done; nia.
Qed.

Lemma tileShape_lookup layout rank (d : nat) S T W :
  wf_layout layout rank →
  Forall (λ t, t < 2 ^ 32) (tileShape layout) →
  getSizePerThread layout !! d = Some S →
  getThreadsPerWarp layout !! d = Some T →
  getWarpsPerCTA layout !! d = Some W →
  0 < S ∧ 0 < T ∧ 0 < W ∧ tileShape layout !! d = Some (S * (T * W)) ∧
  u32 (u32 (S * T) * W) = S * (T * W).
Proof.
  intros Hwf Htile HS HT HW. destruct Hwf as (HlS & HlT & HlW & HpS & HpT & HpW).
  pose proof (lookup_positive _ _ _ HpS HS).
  pose proof (lookup_positive _ _ _ HpT HT).
  pose proof (lookup_positive _ _ _ HpW HW).
  assert (tileShape layout !! d = Some (S * (T * W))) as Ht.
  { unfold tileShape, threadsPerDimOfTile. rewrite !lookup_zip_with.
    by rewrite HS, HT, HW. }
  pose proof (Forall_lookup_1 _ _ _ _ Htile Ht) as Hlt. simpl in Hlt.
  split_and!; try done.
  rewrite (u32_small (S * T)) by nia. rewrite u32_small by nia. lia.
Qed.

Section BroadcastShapesFacts.
Context (layout : TritonGPUBlockedEncodingAttr) (srcShape resultShape : list Z).
Context (Hlen : length srcShape = length resultShape).
Context (Hwf : wf_layout layout (length resultShape)).
Context (Hres : positive_shape resultShape).
Context (Hone : Forall2 (λ s r, s = r ∨ s = 1) srcShape resultShape).
Context (Htile : Forall (λ t, t < 2 ^ 32) (tileShape layout)).
Context (Hfit : product resultShape < 2 ^ 63).

Lemma broadcastShapes_prefix (d : nat) :
  (d ≤ length resultShape)%nat →
  foldM (broadcastShapesStep layout srcShape resultShape)
        {| srcLogicalShape := replicate (2 * length srcShape) 0;
           resultLogicalShape := replicate (2 * length srcShape) 0;
           broadcastDims := [];
           broadcastSizes := [];
           duplicates := 1 |}
        (seqZ 0 (Z.of_nat d))
  = Some (broadcastShapesAfter layout srcShape resultShape d).
Proof using Hlen Hwf Hres Hone Htile Hfit.
  pose proof Hwf as (HlS & HlT & HlW & HpS & HpT & HpW).
  induction d as [|d IH]; intros Hd.
  - simpl. unfold broadcastShapesAfter. simpl. rewrite !Nat.sub_0_r.
    rewrite Nat.add_0_r, replicate_add. done.
  - rewrite seqZ_0_S, foldM_app, IH by lia. simpl.
    destruct (lookup_lt_is_Some_2 resultShape d ltac:(lia)) as [r Hr].
    destruct (lookup_lt_is_Some_2 srcShape d ltac:(lia)) as [s Hs].
    destruct (lookup_lt_is_Some_2 (getSizePerThread layout) d ltac:(lia)) as [S HS].
    destruct (lookup_lt_is_Some_2 (getThreadsPerWarp layout) d ltac:(lia)) as [T HT].
    destruct (lookup_lt_is_Some_2 (getWarpsPerCTA layout) d ltac:(lia)) as [W HW].
    destruct (tileShape_lookup layout _ d S T W Hwf Htile HS HT HW)
      as (? & ? & ? & Htd & Hu).
    unfold broadcastShapesStep. rewrite !at_lookup, Hr, HS, HT, HW, Hs. simpl.
    rewrite Hu.
    set (B := isBroadcastDim srcShape resultShape).
    set (numCtas := numCtasOf layout resultShape).
    assert (B !! d = Some (bool_decide (s ≠ r))) as HB.
    { unfold B, isBroadcastDim. by rewrite lookup_zip_with, Hs, Hr. }
    assert (numCtas !! d = Some (Z.quot r (S * (T * W)))) as Hn.
    { unfold numCtas, numCtasOf. by rewrite lookup_zip_with, Hr, Htd. }
    assert (length (take d B) = d) as HlB.
    { rewrite length_take. apply Nat.min_l. apply lookup_lt_Some in HB. lia. }
    assert (take (Datatypes.S d) B = take d B ++ [bool_decide (s ≠ r)]) as HtB
      by by apply take_S_r.
    pose proof (Forall2_lookup_lr _ _ _ _ _ _ Hone Hs Hr) as Hsr. simpl in Hsr.
    rewrite Hlen.
    assert (∀ X : list Z, length X = length resultShape →
              length (take d X ++ replicate (length resultShape - d) 0)
              = length resultShape) as Hlpre.
    { intros X HX. rewrite length_app, length_take, length_replicate. lia. }
    assert (∀ X : list Z, length X = length resultShape →
              length (take (Datatypes.S d) X
                      ++ replicate (length resultShape - Datatypes.S d) 0)
              = length resultShape) as Hlpre'.
    { intros X HX. rewrite length_app, length_take, length_replicate. lia. }
    assert (length B = length resultShape) as HlenB.
    { unfold B, isBroadcastDim. rewrite length_zip_with. lia. }
    assert (length numCtas = length resultShape) as Hlenn.
    { unfold numCtas, numCtasOf, tileShape, threadsPerDimOfTile.
      rewrite !length_zip_with. lia. }
    assert (length (selectBroadcast B numCtas) = length resultShape) as Hlsn.
    { unfold selectBroadcast. rewrite length_zip_with. lia. }
    assert (length (selectBroadcast B (getSizePerThread layout))
            = length resultShape) as HlsS.
    { unfold selectBroadcast. rewrite length_zip_with. lia. }
    assert (selectBroadcast B numCtas !! d
            = Some (if bool_decide (s ≠ r) then 1 else Z.quot r (S * (T * W))))
      as Hseln.
    { unfold selectBroadcast. by rewrite lookup_zip_with, HB, Hn. }
    assert (selectBroadcast B (getSizePerThread layout) !! d
            = Some (if bool_decide (s ≠ r) then 1 else S)) as HselS.
    { unfold selectBroadcast. by rewrite lookup_zip_with, HB, HS. }
    assert (Some (broadcastShapesAfter layout srcShape resultShape (Datatypes.S d))
            = Some {|
                srcLogicalShape :=
                  (take (Datatypes.S d) (selectBroadcast B numCtas)
                   ++ replicate (length resultShape - Datatypes.S d) 0) ++
                  (take (Datatypes.S d) (selectBroadcast B (getSizePerThread layout))
                   ++ replicate (length resultShape - Datatypes.S d) 0);
                resultLogicalShape :=
                  (take (Datatypes.S d) numCtas
                   ++ replicate (length resultShape - Datatypes.S d) 0) ++
                  (take (Datatypes.S d) (getSizePerThread layout)
                   ++ replicate (length resultShape - Datatypes.S d) 0);
                broadcastDims :=
                  broadcastDimsOf 0 (take d B)
                  ++ (if bool_decide (s ≠ r) then [Z.of_nat d] else []);
                broadcastSizes :=
                  atBroadcastDims (take d B) resultShape
                  ++ (if bool_decide (s ≠ r) then [r] else []);
                duplicates :=
                  product (atBroadcastDims (take d B) resultShape
                           ++ (if bool_decide (s ≠ r) then [r] else [])) |}) as ->.
    { unfold broadcastShapesAfter. fold B numCtas. rewrite Hlen, HtB.
      rewrite broadcastDimsOf_app, HlB. simpl. rewrite app_nil_r.
      rewrite (atBroadcastDims_snoc _ _ _ r) by by rewrite HlB. done. }
    destruct (decide (s ≠ r)) as [Hne|Heq].
    + rewrite (bool_decide_eq_true_2 _ Hne) in *.
      rewrite decide_True by (destruct Hsr; done).
      rewrite (set_at_prefix _ _ _ _ 1) by (done || lia). simpl.
      rewrite (set_at_suffix _ _ _ _ 1) by (auto || lia). simpl.
      rewrite (set_at_prefix _ _ _ _ (Z.quot r (S * (T * W)))) by (done || lia).
      simpl.
      rewrite (set_at_suffix _ _ _ _ S) by (auto || lia). simpl.
      do 2 f_equal. rewrite product_app. simpl.
      destruct (atBroadcastDims_product (take d B) resultShape Hres) as [Hp1 Hp2].
      pose proof (product_pos _ Hp1).
      pose proof (lookup_positive _ _ _ Hres Hr).
      assert (product (atBroadcastDims (take d B) resultShape ++ [r])
              ≤ product resultShape) as Hle.
      { rewrite <- (atBroadcastDims_snoc (take d B) true resultShape r)
          by by rewrite HlB.
        apply atBroadcastDims_product. done. }
      rewrite product_app in Hle. simpl in Hle.
      rewrite s64_small by nia. lia.
    + rewrite (bool_decide_eq_false_2 _ Heq) in *.
      rewrite (set_at_prefix _ _ _ _ (Z.quot r (S * (T * W)))) by (done || lia).
      simpl.
      rewrite (set_at_suffix _ _ _ _ S) by (auto || lia). simpl.
      rewrite (set_at_prefix _ _ _ _ (Z.quot r (S * (T * W)))) by (done || lia).
      simpl.
      rewrite (set_at_suffix _ _ _ _ S) by (auto || lia). simpl.
      by rewrite !app_nil_r.
Qed.

End BroadcastShapesFacts.

(** *** Shapes under the divisibility invariant *)

Lemma lookup_le_product (l : list Z) (k : nat) x :
  positive_shape l → l !! k = Some x → x ≤ product l.
Proof.
  intros Hpos. revert k. induction Hpos as [|y l Hy Hpos IH]; intros k Hk; [done|].
  pose proof (product_pos _ Hpos). destruct k as [|k]; simplify_eq/=; [nia|].
  pose proof (IH _ Hk). nia.
Qed.

(** Per dimension: extent [r], contiguous run [S], threads [tw] with
    [S * tw] dividing [r]. *)
Lemma divisible_dims (res Ss tws : list Z) :
  positive_shape res → positive_shape Ss → positive_shape tws →
  length Ss = length res → length tws = length res →
  Forall2 (λ r tile, Z.rem r tile = 0) res (zip_with Z.mul Ss tws) →
  positive_shape (zip_with Z.quot res (zip_with Z.mul Ss tws)) ∧
  product (zip_with Z.quot res (zip_with Z.mul Ss tws)) * product Ss
  = product (zip_with Z.div res tws) ∧
  product (zip_with Z.div res tws) ≤ product res ∧
  Forall (λ tile, tile ≤ product res) (zip_with Z.mul Ss tws) ∧
  Forall (λ tw, 0 < tw ≤ product res) tws.
Proof.
  intros Hres. revert Ss tws.
  induction Hres as [|r res Hr Hres IH]; intros Ss tws HSs Htws HlS Hltw Hdiv.
  - destruct Ss, tws; try done; simpl; split_and!; (constructor || lia).
  - destruct Ss as [|S Ss], tws as [|tw tws]; try done.
    inversion HSs as [|? ? HS HSs']; inversion Htws as [|? ? Htw Htws']; subst.
    simpl in Hdiv. inversion Hdiv as [|? ? ? ? Hrem Hdiv']; subst.
    simpl in HlS, Hltw.
    destruct (IH Ss tws) as (IH1 & IH2 & IH3 & IH4 & IH5); [done|done|lia|lia|done|].
    pose proof (product_pos _ Hres) as Hp.
    apply Z.rem_divide in Hrem; [|nia]. destruct Hrem as [c Hc].
    assert (0 < c) by nia.
    assert (Z.quot r (S * tw) = c) as Hq.
    { rewrite Hc. apply Z.quot_mul. nia. }
    assert (r `div` tw = c * S) as Hd.
    { rewrite Hc. replace (c * (S * tw)) with (c * S * tw) by lia.
      apply Z.div_mul. lia. }
    pose proof (product_pos _ IH1).
    pose proof (product_pos _ HSs').
    cbn [zip_with product foldr]. fold (product res).
    fold (product (zip_with Z.quot res (zip_with Z.mul Ss tws))).
    fold (product Ss). fold (product (zip_with Z.div res tws)).
    assert (S * tw ≤ r) by nia. assert (tw ≤ S * tw) by nia.
    assert (r ≤ r * product res) by nia.
    rewrite Hq, Hd. split_and!.
    + constructor; [lia|done].
    + nia.
    + nia.
    + constructor; [lia|]. eapply Forall_impl; [exact IH4|]. simpl. intros. nia.
    + constructor; [lia|]. eapply Forall_impl; [exact IH5|]. simpl. intros. nia.
Qed.

Section DivisibleFacts.
Context (layout : TritonGPUBlockedEncodingAttr) (shape : list Z).
Context (Hwf : wf_layout layout (length shape)).
Context (Hpos : positive_shape shape).
Context (Hdiv : divisible layout shape).
Context (Hfit : product shape < 2 ^ 32).

Lemma threadsPerDimOfTile_positive :
  positive_shape (threadsPerDimOfTile layout) ∧
  length (threadsPerDimOfTile layout) = length shape.
Proof using Hwf.
  destruct Hwf as (HlS & HlT & HlW & HpS & HpT & HpW).
  unfold threadsPerDimOfTile. split; [|rewrite length_zip_with; lia].
  revert HpT HpW. generalize (getThreadsPerWarp layout) (getWarpsPerCTA layout).
  intros T W HT. revert W. induction HT; intros W HW; [constructor|].
  destruct HW; simpl; constructor; [nia|]. by apply IHHT.
Qed.

Lemma divisible_facts :
  positive_shape (numCtasOf layout shape) ∧
  product (numCtasOf layout shape) * product (getSizePerThread layout)
  = elementsPerLane layout shape ∧
  elementsPerLane layout shape ≤ product shape ∧
  Forall (λ t, t < 2 ^ 32) (tileShape layout) ∧
  Forall (λ tw, 0 < tw < 2 ^ 32) (threadsPerDimOfTile layout).
Proof using Hwf Hpos Hdiv Hfit.
  destruct threadsPerDimOfTile_positive as [Htw Hltw].
  pose proof Hwf as (HlS & HlT & HlW & HpS & HpT & HpW).
  destruct (divisible_dims shape (getSizePerThread layout)
              (threadsPerDimOfTile layout)) as (H1 & H2 & H3 & H4 & H5);
    [done..|].
  split_and!; try done.
  - eapply Forall_impl; [exact H4|]. simpl. intros. lia.
  - eapply Forall_impl; [exact H5|]. simpl. intros. lia.
Qed.

Lemma getElemsPerThread_divisible :
  0 ≤ elementsPerLane layout shape < 2 ^ 32 ∧
  getElemsPerThread layout shape = Some (elementsPerLane layout shape).
Proof using Hwf Hpos Hdiv Hfit.
  destruct divisible_facts as (H1 & H2 & H3 & H4 & H5).
  pose proof Hwf as (HlS & HlT & HlW & HpS & HpT & HpW).
  destruct (getElemsPerThread_elementsPerLane layout shape) as [Hn He];
    [lia|lia| |done|lia|].
  - eapply Forall_impl; [exact Hpos|]. simpl. lia.
  - split; [lia|done].
Qed.

End DivisibleFacts.

Lemma broadcastShapes_closed layout srcShape resultShape :
  length srcShape = length resultShape →
  wf_layout layout (length resultShape) →
  positive_shape resultShape →
  Forall2 (λ s r, s = r ∨ s = 1) srcShape resultShape →
  Forall (λ t, t < 2 ^ 32) (tileShape layout) →
  product resultShape < 2 ^ 63 →
  let B := isBroadcastDim srcShape resultShape in
  broadcastShapes layout srcShape resultShape
  = Some {| srcLogicalShape :=
              selectBroadcast B (numCtasOf layout resultShape)
              ++ selectBroadcast B (getSizePerThread layout);
            resultLogicalShape :=
              numCtasOf layout resultShape ++ getSizePerThread layout;
            broadcastDims := broadcastDimsOf 0 B;
            broadcastSizes := atBroadcastDims B resultShape;
            duplicates := product (atBroadcastDims B resultShape) |}.
Proof.
  intros Hlen Hwf Hres Hone Htile Hfit B. unfold broadcastShapes.
  rewrite (broadcastShapes_prefix layout srcShape resultShape Hlen Hwf Hres Hone
             Htile Hfit (length srcShape)) by lia.
  destruct Hwf as (HlS & HlT & HlW & _).
  unfold broadcastShapesAfter. fold B. rewrite Nat.sub_diag. simpl.
  assert (length B = length srcShape) as HlB.
  { unfold B, isBroadcastDim. rewrite length_zip_with. lia. }
  assert (length (numCtasOf layout resultShape) = length srcShape) as Hln.
  { unfold numCtasOf, tileShape, threadsPerDimOfTile.
    rewrite !length_zip_with. lia. }
  rewrite !app_nil_r.
  rewrite !take_ge by (unfold selectBroadcast; rewrite ?length_zip_with; lia).
  done.
Qed.

(** *** Broadcast without broadcast dimensions *)

Lemma isBroadcastDim_same shape :
  isBroadcastDim shape shape = replicate (length shape) false.
Proof.
  unfold isBroadcastDim. induction shape as [|s shape IH]; [done|].
  simpl. rewrite IH. by rewrite bool_decide_eq_false_2 by (intros H; by apply H).
Qed.

Lemma selectBroadcast_false n l :
  length l = n → selectBroadcast (replicate n false) l = l.
Proof.
  revert l. induction n as [|n IH]; intros [|x l] Hl; simplify_eq/=; [done|].
  unfold selectBroadcast in *. by rewrite IH.
Qed.

Lemma broadcastDimsOf_false d n : broadcastDimsOf d (replicate n false) = [].
Proof. revert d. induction n as [|n IH]; intros d; simpl; auto. Qed.

Lemma atBroadcastDims_false n l : atBroadcastDims (replicate n false) l = [].
Proof. revert l. induction n as [|n IH]; intros [|x l]; simpl; auto. Qed.

Lemma Forall2_same {A} (P : A → A → Prop) (l : list A) :
  (∀ x, P x x) → Forall2 P l l.
Proof. intros HP. induction l; constructor; auto. Qed.

Section BroadcastIdentity.
Context {V : Type} (undef : V).
Context (layout : TritonGPUBlockedEncodingAttr) (shape : list Z).
Context (Hwf : wf_layout layout (length shape)).
Context (Hpos : positive_shape shape).
Context (Hdiv : divisible layout shape).
Context (Hfit : product shape < 2 ^ 32).

Let st := {| srcLogicalShape := numCtasOf layout shape ++ getSizePerThread layout;
             resultLogicalShape := numCtasOf layout shape ++ getSizePerThread layout;
             broadcastDims := [];
             broadcastSizes := [];
             duplicates := 1 |}.

Lemma broadcastShapes_same : broadcastShapes layout shape shape = Some st.
Proof using Hwf Hpos Hdiv Hfit.
  destruct (divisible_facts layout shape) as (H1 & H2 & H3 & H4 & H5); [done..|].
  pose proof Hwf as (HlS & HlT & HlW & _).
  rewrite broadcastShapes_closed; [|done|done|done| |done|lia].
  - rewrite isBroadcastDim_same.
    rewrite !selectBroadcast_false, broadcastDimsOf_false, atBroadcastDims_false.
    + done.
    + lia.
    + unfold numCtasOf, tileShape, threadsPerDimOfTile.
      rewrite !length_zip_with. lia.
  - apply Forall2_same. auto.
Qed.

Lemma logicalShape_fits :
  positive_shape (numCtasOf layout shape ++ getSizePerThread layout) ∧
  product (numCtasOf layout shape ++ getSizePerThread layout)
  = elementsPerLane layout shape.
Proof using Hwf Hpos Hdiv Hfit.
  destruct (divisible_facts layout shape) as (H1 & H2 & H3 & H4 & H5); [done..|].
  pose proof Hwf as (HlS & HlT & HlW & HpS & _).
  split; [by apply Forall_app|]. by rewrite product_app.
Qed.

(** One iteration of the copy loop writes the source value [i] to slot [i]. *)
Lemma broadcastElem_same (srcVals : list V) (resultVals : list (option V))
    (i : nat) v :
  Z.of_nat i < elementsPerLane layout shape →
  srcVals !! i = Some v → (i < length resultVals)%nat →
  broadcastElem st srcVals resultVals (Z.of_nat i)
  = Some (<[i := Some v]> resultVals).
Proof using Hwf Hpos Hdiv Hfit.
  intros Hi Hv Hlt.
  destruct logicalShape_fits as [Hlpos Hlprod].
  destruct (getElemsPerThread_divisible layout shape) as [HE _]; [done..|].
  unfold broadcastElem. cbn [duplicates st srcLogicalShape].
  rewrite (seqZ_cons 0 1), (seqZ_nil 1) by lia.
  cbn [foldM broadcastCopy broadcastSizes broadcastDims resultLogicalShape st].
  unfold overwriteBroadcastDims.
  change (enumerate (@nil Z)) with (@nil (Z * Z)). cbn [foldM mbind option_bind].
  rewrite (getLinearIndex_getMultiDimIndex_lt (T := int64_t))
    by (rewrite ?Hlprod; simpl; done || lia).
  cbn [mbind option_bind]. rewrite at_lookup, Hv. cbn [mbind option_bind].
  rewrite set_at_Some by done. done.
Qed.

Lemma broadcast_copy_loop_same (srcVals : list V) (k : nat) :
  Z.of_nat (length srcVals) = elementsPerLane layout shape →
  (k ≤ length srcVals)%nat →
  foldM (broadcastElem st srcVals) (replicate (length srcVals) None)
        (seqZ 0 (Z.of_nat k))
  = Some ((Some <$> take k srcVals) ++ replicate (length srcVals - k) None).
Proof using Hwf Hpos Hdiv Hfit.
  intros Hlen. induction k as [|k IH]; intros Hk.
  - simpl. by rewrite Nat.sub_0_r.
  - rewrite seqZ_0_S, foldM_app, IH by lia. simpl.
    destruct (lookup_lt_is_Some_2 srcVals k ltac:(lia)) as [v Hv].
    rewrite (broadcastElem_same _ _ _ v); [|lia|done|].
    + simpl. f_equal.
      rewrite insert_app_r_alt by (rewrite length_fmap, length_take; lia).
      rewrite length_fmap, length_take, Nat.min_l, Nat.sub_diag by lia.
      rewrite (take_S_r _ _ _ Hv), fmap_app, <- app_assoc. f_equal.
      replace (length srcVals - k)%nat with (S (length srcVals - S k)) by lia.
      done.
    + rewrite length_app, length_fmap, length_take, length_replicate. lia.
Qed.

Lemma BroadcastOpConversion_same (src : list V) :
  Z.of_nat (length src) = elementsPerLane layout shape →
  BroadcastOpConversion undef layout shape shape src = Some src.
Proof using Hwf Hpos Hdiv Hfit.
  intros Hlen. unfold BroadcastOpConversion. rewrite decide_True by done.
  rewrite broadcastShapes_same.
  destruct (getElemsPerThread_divisible layout shape) as [HE ->]; [done..|].
  cbn [mbind option_bind]. rewrite <- Hlen.
  pose proof (getElementsFromStruct_app src []) as Hsrc.
  rewrite app_nil_r in Hsrc. rewrite Hsrc. cbn [mbind option_bind].
  rewrite Nat2Z.id.
  rewrite (broadcast_copy_loop_same src (length src)) by (done || lia).
  cbn [mbind option_bind]. rewrite Nat.sub_diag, app_nil_r, firstn_all.
  rewrite (mapM_fmap_Some id Some src) by done. cbn [mbind option_bind].
  rewrite getStructFromElements_fields by done.
  by rewrite Nat.sub_diag, app_nil_r.
Qed.

End BroadcastIdentity.

(** C10. When the source shape equals the result shape there are no broadcast
    dimensions, and the broadcast lowering returns the input aggregate: the
    same values in the same order.  (The layout is well formed for the shape,
    the shape satisfies the divisibility invariant and its size fits 32
    bits; the input aggregate has the fields of the converted tensor type.) *)
Theorem broadcast_same_shape_identity {V} (undef : V)
    (layout : TritonGPUBlockedEncodingAttr) (shape : list Z) (src : list V) :
  wf_layout layout (length shape) →
  positive_shape shape →
  divisible layout shape →
  product shape < 2 ^ 32 →
  Z.of_nat (length src) = elementsPerLane layout shape →
  broadcastShapes layout shape shape
  = Some {| srcLogicalShape := numCtasOf layout shape ++ getSizePerThread layout;
            resultLogicalShape := numCtasOf layout shape ++ getSizePerThread layout;
            broadcastDims := [];
            broadcastSizes := [];
            duplicates := 1 |} ∧
  BroadcastOpConversion undef layout shape shape src = Some src.
Proof.
  intros Hwf Hpos Hdiv Hfit Hlen. split.
  - by apply broadcastShapes_same.
  - by apply BroadcastOpConversion_same.
Qed.

Lemma broadcast_same_shape_identity_witness :
  let layout := {| getSizePerThread := [1; 2]; getThreadsPerWarp := [1; 32];
                   getWarpsPerCTA := [1; 1]; getOrder := [1; 0] |} in
  let src := [10; 11; 12; 13; 14; 15; 16; 17] in
  broadcastShapes layout [2; 128] [2; 128]
  = Some {| srcLogicalShape := numCtasOf layout [2; 128] ++ getSizePerThread layout;
            resultLogicalShape := numCtasOf layout [2; 128] ++ getSizePerThread layout;
            broadcastDims := [];
            broadcastSizes := [];
            duplicates := 1 |} ∧
  BroadcastOpConversion 0 layout [2; 128] [2; 128] src = Some src.
Proof.
  intros layout src.
  apply (broadcast_same_shape_identity 0 layout [2; 128] src).
  - repeat split; repeat constructor; lia.
  - repeat constructor; lia.
  - repeat constructor.
  - simpl. lia.
  - reflexivity.
Defined.

(** *** Broadcast: the coordinates of the broadcast dimensions *)

Lemma length_broadcastDimsOf d B C :
  length C = length B →
  length (broadcastDimsOf d B) = length (atBroadcastDims B C).
Proof.
  revert d C. induction B as [|b B IH]; intros d [|c C] Hl; simplify_eq/=; [done|].
  rewrite !length_app. rewrite (IH (d + 1) C) by done. by destruct b.
Qed.

(** The loop of [overwriteBroadcastDims] replaces the coordinates of the
    broadcast dimensions and leaves the others. *)
Lemma overwriteBroadcastDims_gen B :
  ∀ (pre x e bmpre bm : list Z),
    length x = length B →
    length bm = length (broadcastDimsOf (Z.of_nat (length pre)) B) →
    foldM (λ resultMultiDim '(index, value),
             b ← at_ (bmpre ++ bm) index; set_at resultMultiDim value b)
          (pre ++ x ++ e)
          (zip (seqZ (Z.of_nat (length bmpre))
                     (Z.of_nat (length (broadcastDimsOf (Z.of_nat (length pre)) B))))
               (broadcastDimsOf (Z.of_nat (length pre)) B))
    = Some (pre ++ overwriteAt B bm x ++ e).
Proof.
  induction B as [|b B IH]; intros pre x e bmpre bm Hx Hbm.
  - destruct x; [|done]. done.
  - destruct x as [|x0 x]; [done|]. simpl in Hx.
    assert (Z.of_nat (length pre) + 1 = Z.of_nat (length (pre ++ [x0]))) as Hpre
      by (rewrite length_app; simpl; lia).
    destruct b; cbn [broadcastDimsOf app] in *.
    + destruct bm as [|b0 bm]; [done|]. simpl in Hbm.
      cbn [length]. rewrite seqZ_cons by lia. cbn [zip zip_with foldM].
      rewrite at_lookup, lookup_app_r, Nat.sub_diag by lia. cbn [lookup list_lookup].
      cbn [mbind option_bind].
      rewrite set_at_Some by (rewrite length_app; simpl; lia).
      rewrite insert_app_r_alt, Nat.sub_diag by lia. cbn [insert list_insert].
      cbn [mbind option_bind].
      replace (Z.succ (Z.of_nat (length bmpre)))
        with (Z.of_nat (length (bmpre ++ [b0])))
        by (rewrite length_app; simpl; lia).
      replace (Z.pred (Z.of_nat (S (length (broadcastDimsOf
                 (Z.of_nat (length pre) + 1) B)))))
        with (Z.of_nat (length (broadcastDimsOf (Z.of_nat (length pre) + 1) B)))
        by lia.
      assert (∀ d, length (broadcastDimsOf d B)
                   = length (broadcastDimsOf (Z.of_nat (length pre) + 1) B)) as Hd.
      { intros d. rewrite !(length_broadcastDimsOf _ B x) by lia. done. }
      pose proof (IH (pre ++ [b0]) x e (bmpre ++ [b0]) bm ltac:(lia)
                    ltac:(rewrite Hd; lia)) as IH'.
      replace (Z.of_nat (length (pre ++ [b0]))) with (Z.of_nat (length pre) + 1)
        in IH' by (rewrite length_app; simpl; lia).
      rewrite <- !app_assoc in IH'. cbn [app] in IH'.
      rewrite IH'. done.
    + rewrite Hpre.
      pose proof (IH (pre ++ [x0]) x e bmpre bm ltac:(lia)
                    ltac:(rewrite <- Hpre; done)) as IH'.
      rewrite <- !app_assoc in IH'. cbn [app] in IH'.
      rewrite IH'. done.
Qed.

Lemma overwriteBroadcastDims_spec B C (bm x e : list Z) :
  length C = length B → length x = length B →
  length bm = length (atBroadcastDims B C) →
  overwriteBroadcastDims (broadcastDimsOf 0 B) bm (x ++ e)
  = Some (overwriteAt B bm x ++ e).
Proof.
  intros HC Hx Hbm. unfold overwriteBroadcastDims, enumerate.
  pose proof (overwriteBroadcastDims_gen B [] x e [] bm Hx) as H.
  cbn [length app] in H. change (Z.of_nat 0) with 0 in H.
  apply H. by rewrite (length_broadcastDimsOf _ B C).
Qed.

Lemma overwriteAt_valid B C bm m :
  length B = length C →
  valid_index m (selectBroadcast B C) → valid_index bm (atBroadcastDims B C) →
  valid_index (overwriteAt B bm m) C.
Proof.
  revert C bm m. induction B as [|b B IH]; intros [|c C] bm m Hl Hm Hbm;
    simplify_eq/=.
  - done.
  - unfold selectBroadcast in Hm. simpl in Hm.
    inversion Hm as [|m0 ? m' ? Hm0 Hm']; subst. destruct b; simpl in *.
    + inversion Hbm as [|b0 ? bm' ? Hb0 Hbm']; subst.
      constructor; [done|]. by apply IH.
    + constructor; [done|]. by apply IH.
Qed.

Lemma zeroAt_overwriteAt B C bm m :
  length B = length C →
  valid_index m (selectBroadcast B C) → valid_index bm (atBroadcastDims B C) →
  zeroAt B (overwriteAt B bm m) = m.
Proof.
  revert C bm m. induction B as [|b B IH]; intros [|c C] bm m Hl Hm Hbm;
    simplify_eq/=.
  - by inversion Hm.
  - unfold selectBroadcast in Hm. simpl in Hm.
    inversion Hm as [|m0 ? m' ? Hm0 Hm']; subst. destruct b; simpl in *.
    + inversion Hbm as [|b0 ? bm' ? Hb0 Hbm']; subst.
      unfold zeroAt in *. simpl. f_equal; [lia|]. by eapply IH.
    + unfold zeroAt in *. simpl. f_equal. by eapply IH.
Qed.

Lemma overwriteAt_zeroAt B C c :
  length B = length C → positive_shape C → valid_index c C →
  valid_index (zeroAt B c) (selectBroadcast B C) ∧
  valid_index (atBroadcastDims B c) (atBroadcastDims B C) ∧
  overwriteAt B (atBroadcastDims B c) (zeroAt B c) = c.
Proof.
  intros Hl Hpos Hc. revert B Hl Hpos.
  induction Hc as [|c0 C0 c C Hc0 Hc IH]; intros [|b B] Hl Hpos; simplify_eq/=.
  - split_and!; constructor.
  - inversion Hpos; subst. destruct (IH B) as (IH1 & IH2 & IH3); [done..|].
    unfold zeroAt, selectBroadcast in *.
    destruct b; simpl; split_and!; try (constructor; [lia|done]); try done;
      by rewrite IH3.
Qed.

Lemma overwriteAt_overwriteAt B C bm bm' m :
  length B = length C → length m = length B →
  valid_index bm (atBroadcastDims B C) → valid_index bm' (atBroadcastDims B C) →
  overwriteAt B bm' (overwriteAt B bm m) = overwriteAt B bm' m.
Proof.
  revert C bm bm' m.
  induction B as [|b B IH]; intros [|c C] bm bm' [|m0 m] Hl Hm Hbm Hbm';
    simplify_eq/=; [done|].
  destruct b; simpl in *.
  - inversion Hbm; inversion Hbm'; subst. f_equal. by eapply IH.
  - f_equal. by eapply IH.
Qed.

Lemma overwriteAt_same B C c :
  length B = length C → valid_index c (selectBroadcast B C) → positive_shape C →
  valid_index (atBroadcastDims B c) (atBroadcastDims B C) ∧
  overwriteAt B (atBroadcastDims B c) c = c.
Proof.
  revert C c. induction B as [|b B IH]; intros [|c0 C] c Hl Hc Hpos; simplify_eq/=.
  - inversion Hc. split; [constructor|done].
  - unfold selectBroadcast in Hc. simpl in Hc.
    inversion Hc as [|m0 ? m' ? Hm0 Hm']; subst. inversion Hpos; subst.
    destruct (IH C m') as [IH1 IH2]; [done..|].
    destruct b; simpl; (split; [|by rewrite IH2]); [|done].
    constructor; [lia|done].
Qed.

Lemma length_overwriteAt B bm m : length (overwriteAt B bm m) = length m.
Proof.
  revert bm m. induction B as [|b B IH]; intros bm [|m0 m]; simpl; try done.
  - by destruct b.
  - destruct b; [destruct bm|]; simpl; auto.
Qed.

(** *** Broadcast: the shapes under the invariant of source and result *)

(** Per dimension: in a broadcast dimension the source extent [1] is
    divisible by the tile, so the tile is [1 * 1]. *)
Lemma broadcast_dims (src res Ss tws : list Z) :
  Forall2 (λ s r, s = r ∨ s = 1) src res →
  positive_shape res → positive_shape Ss → positive_shape tws →
  length Ss = length res → length tws = length res →
  Forall2 (λ s tile, Z.rem s tile = 0) src (zip_with Z.mul Ss tws) →
  Forall2 (λ r tile, Z.rem r tile = 0) res (zip_with Z.mul Ss tws) →
  let B := isBroadcastDim src res in
  let C := zip_with Z.quot res (zip_with Z.mul Ss tws) in
  selectBroadcast B Ss = Ss ∧
  atBroadcastDims B res = atBroadcastDims B C ∧
  product (zip_with Z.div src tws) = product (selectBroadcast B C) * product Ss ∧
  positive_shape src ∧ product src ≤ product res.
Proof.
  intros Hone. revert Ss tws.
  induction Hone as [|s r src res Hsr Hone IH];
    intros Ss tws Hres HSs Htws HlS Hltw HdS HdR.
  - destruct Ss, tws; try done; simpl; split_and!; (done || constructor || lia).
  - destruct Ss as [|S Ss], tws as [|tw tws]; try done.
    inversion Hres as [|? ? Hr Hres']; inversion HSs as [|? ? HS HSs'];
      inversion Htws as [|? ? Htw Htws']; subst.
    simpl in HdS, HdR. inversion HdS as [|? ? ? ? HremS HdS'];
      inversion HdR as [|? ? ? ? HremR HdR']; subst.
    simpl in HlS, Hltw.
    destruct (IH Ss tws) as (IH1 & IH2 & IH3 & IH4 & IH5);
      [done|done|done|lia|lia|done|done|].
    pose proof (product_pos _ Hres') as Hp.
    pose proof (product_pos _ IH4) as Hp'.
    unfold isBroadcastDim, selectBroadcast in *. cbn [zip_with].
    destruct (decide (s = r)) as [->|Hne].
    + rewrite bool_decide_eq_false_2 by (intros H; by apply H).
      cbn [atBroadcastDims app product foldr zip_with].
      fold (product Ss). fold (product (zip_with Z.div res tws)).
      apply Z.rem_divide in HremR; [|nia]. destruct HremR as [c Hc].
      assert (0 < c) by nia.
      assert (Z.quot r (S * tw) = c) as Hq by (rewrite Hc; apply Z.quot_mul; nia).
      assert (r `div` tw = c * S) as Hd.
      { rewrite Hc. replace (c * (S * tw)) with (c * S * tw) by lia.
        apply Z.div_mul. lia. }
      rewrite IH1, IH2, Hq, Hd.
      fold (product (zip_with (λ (b : bool) (x : Z), if b then 1 else x)
              (zip_with (λ s r0 : Z, bool_decide (s ≠ r0)) src res)
              (zip_with Z.quot res (zip_with Z.mul Ss tws)))).
      fold (product (zip_with Z.div src tws)). rewrite IH3.
      split_and!; try done; try (constructor; [lia|done]); try nia.
      fold (product src). fold (product res). nia.
    + destruct Hsr as [?| ->]; [done|].
      rewrite bool_decide_eq_true_2 by done.
      cbn [atBroadcastDims app product foldr zip_with].
      apply Z.rem_divide in HremS; [|nia]. destruct HremS as [c Hc].
      assert (0 < S * tw) as HP by nia.
      assert (S * tw = 1) as H1.
      { revert Hc HP. generalize (S * tw). intros P Hc HP.
        assert (0 < c) by nia. nia. }
      assert (S = 1 ∧ tw = 1) as [-> ->] by nia.
      rewrite IH1, IH2. change (1 * 1) with 1. rewrite Z.quot_1_r, Z.div_1_r.
      fold (product (zip_with (λ (b : bool) (x : Z), if b then 1 else x)
              (zip_with (λ s r0 : Z, bool_decide (s ≠ r0)) src res)
              (zip_with Z.quot res (zip_with Z.mul Ss tws)))).
      fold (product (zip_with Z.div src tws)). fold (product Ss). rewrite IH3.
      split_and!; try done; try (constructor; [lia|done]); try lia.
      fold (product src). fold (product res). nia.
Qed.

Lemma selectBroadcast_positive B C :
  positive_shape C → positive_shape (selectBroadcast B C).
Proof.
  intros HC. revert B. unfold selectBroadcast.
  induction HC as [|c C Hc HC IH]; intros [|b B]; simpl; try constructor.
  - destruct b; lia.
  - apply IH.
Qed.

Lemma foldM_seqZ_inv {St} (Inv : Z → St → Prop) (f : St → Z → option St) s0 n :
  0 ≤ n → Inv 0 s0 →
  (∀ k s, 0 ≤ k < n → Inv k s → ∃ s', f s k = Some s' ∧ Inv (k + 1) s') →
  ∃ s', foldM f s0 (seqZ 0 n) = Some s' ∧ Inv n s'.
Proof.
  intros Hn H0 Hstep. rewrite <- (Z2Nat.id n) by done.
  assert (Z.to_nat n ≤ Z.to_nat n)%nat as Hle by done. revert Hle.
  generalize (Z.to_nat n) at 1 3 4 as k. induction k as [|k IH]; intros Hk.
  - exists s0. by rewrite (seqZ_nil 0 (Z.of_nat 0)) by lia.
  - destruct IH as (s & Hs & HI); [lia|].
    destruct (Hstep (Z.of_nat k) s ltac:(lia) HI) as (s' & Hs' & HI').
    exists s'. rewrite seqZ_0_S, foldM_app, Hs. simpl. rewrite Hs'. simpl.
    split; [done|]. by replace (Z.of_nat (S k)) with (Z.of_nat k + 1) by lia.
Qed.

Lemma lookup_insert_written {A} (rv : list (option A)) (p q : nat) w :
  (∃ v, rv !! q = Some (Some v)) →
  ∃ v, <[p := Some w]> rv !! q = Some (Some v).
Proof.
  intros [v Hv]. destruct (decide (p = q)) as [->|Hne].
  - exists w. apply list_lookup_insert_eq. by eapply lookup_lt_Some.
  - exists v. by rewrite list_lookup_insert_ne.
Qed.

Lemma all_written_fmap {A} (rv : list (option A)) :
  (∀ q, (q < length rv)%nat → ∃ v, rv !! q = Some (Some v)) →
  ∃ vals, mapM id rv = Some vals ∧ rv = Some <$> vals.
Proof.
  induction rv as [|x rv IH]; intros Hall.
  - by exists [].
  - destruct (Hall 0%nat ltac:(simpl; lia)) as [v Hv]. simpl in Hv. simplify_eq.
    destruct IH as (vals & Hm & Hrv).
    { intros q Hq. apply (Hall (S q)). simpl. lia. }
    exists (v :: vals). simpl. rewrite Hm. simpl. by rewrite Hrv.
Qed.

Lemma zeroAt_unit_extent B Ss e :
  length B = length Ss → selectBroadcast B Ss = Ss → valid_index e Ss →
  zeroAt B e = e.
Proof.
  intros Hl Hsel He. revert B Hl Hsel. unfold zeroAt, selectBroadcast.
  induction He as [|e0 S e Ss He0 He IH]; intros [|b B] Hl Hsel; simplify_eq/=;
    [done|].
  f_equal; [|by apply IH]. destruct b; [lia|done].
Qed.

Lemma zeroBroadcastDims_app B (c e : list Z) :
  length c = length B →
  zeroBroadcastDims B (c ++ e) = zeroAt B c ++ zeroAt B e.
Proof.
  intros Hl. unfold zeroBroadcastDims, zeroAt. by rewrite zip_with_app.
Qed.

Lemma valid_index_app_inv idx C Ss :
  valid_index idx (C ++ Ss) →
  ∃ c e, idx = c ++ e ∧ valid_index c C ∧ valid_index e Ss ∧ length c = length C.
Proof.
  intros Hv. apply Forall2_app_inv_r in Hv as (c & e & Hc & He & ->).
  exists c, e. split_and!; try done. by eapply Forall2_length.
Qed.

(** *** Broadcast: the copy loops *)

Section BroadcastGeneral.
Context {V : Type} (undef : V).
Context (layout : TritonGPUBlockedEncodingAttr) (srcShape resultShape : list Z).
Context (Hlen : length srcShape = length resultShape).
Context (Hwf : wf_layout layout (length resultShape)).
Context (Hres : positive_shape resultShape).
Context (HdivS : divisible layout srcShape).
Context (HdivR : divisible layout resultShape).
Context (Hone : Forall2 (λ s r, s = r ∨ s = 1) srcShape resultShape).
Context (Hfit : product resultShape < 2 ^ 32).

Let B := isBroadcastDim srcShape resultShape.
Let C := numCtasOf layout resultShape.
Let Ss := getSizePerThread layout.
Let RL := C ++ Ss.
Let SL := selectBroadcast B C ++ Ss.
Let BS := atBroadcastDims B C.
Let Es := elementsPerLane layout srcShape.
Let Er := elementsPerLane layout resultShape.
Let st := {| srcLogicalShape := SL;
             resultLogicalShape := RL;
             broadcastDims := broadcastDimsOf 0 B;
             broadcastSizes := BS;
             duplicates := product BS |}.

Lemma broadcast_shapes_facts :
  length B = length C ∧ length C = length Ss ∧
  positive_shape C ∧ positive_shape Ss ∧ selectBroadcast B Ss = Ss ∧
  broadcastShapes layout srcShape resultShape = Some st ∧
  product SL = Es ∧ product RL = Er ∧
  0 ≤ Es < 2 ^ 32 ∧ 0 ≤ Er < 2 ^ 32 ∧
  getElemsPerThread layout srcShape = Some Es ∧
  getElemsPerThread layout resultShape = Some Er ∧
  positive_shape BS ∧ product BS < 2 ^ 32.
Proof using Hlen Hwf Hres HdivS HdivR Hone Hfit.
  pose proof Hwf as (HlS & HlT & HlW & HpS & HpT & HpW).
  destruct (divisible_facts layout resultShape) as (F1 & F2 & F3 & F4 & F5);
    [done..|].
  destruct (threadsPerDimOfTile_positive layout resultShape Hwf) as [Htw Hltw].
  destruct (broadcast_dims srcShape resultShape Ss (threadsPerDimOfTile layout))
    as (D1 & D2 & D3 & D4 & D5); [done..|].
  change (zip_with Z.quot resultShape
            (zip_with Z.mul Ss (threadsPerDimOfTile layout))) with C in D2, D3.
  fold B in D1, D2, D3.
  assert (wf_layout layout (length srcShape)) as Hwf' by by rewrite Hlen.
  destruct (getElemsPerThread_divisible layout srcShape) as [G1 G2];
    [done|done|done|lia|].
  destruct (getElemsPerThread_divisible layout resultShape) as [G3 G4];
    [done..|].
  destruct (atBroadcastDims_product B C F1) as [A1 A2].
  pose proof (product_pos _ F1). pose proof (product_pos _ HpS).
  assert (length C = length resultShape) as HlC.
  { unfold C, numCtasOf, tileShape, threadsPerDimOfTile.
    rewrite !length_zip_with. lia. }
  assert (length B = length resultShape) as HlB.
  { unfold B, isBroadcastDim. rewrite length_zip_with. lia. }
  assert (product BS < 2 ^ 32) by (unfold BS, C, Ss in *; nia).
  split_and!; try done; try (unfold Es, Er, Ss in *; lia).
  - rewrite broadcastShapes_closed; [|done|done|done|done|done|lia].
    fold B C Ss. rewrite D1, D2. done.
  - unfold SL. rewrite product_app. unfold Es, elementsPerLane. by rewrite D3.
  - unfold RL. rewrite product_app. done.
Qed.

Lemma decompose_src (i : Z) :
  0 ≤ i < Es →
  ∃ c e, getMultiDimIndex (T := int64_t) i SL = c ++ e ∧
         valid_index c (selectBroadcast B C) ∧ valid_index e Ss ∧
         length c = length B.
Proof using Hlen Hwf Hres HdivS HdivR Hone Hfit.
  intros Hi.
  destruct broadcast_shapes_facts
    as (HlB & HlC & HpC & HpS & Hsel & _ & HSL & _ & HEs & _).
  assert (valid_index (getMultiDimIndex (T := int64_t) i SL) SL) as Hv.
  { apply getMultiDimIndex_valid.
    - apply Forall_app. split; [by apply selectBroadcast_positive|done].
    - rewrite HSL. simpl. lia.
    - by rewrite HSL. }
  apply valid_index_app_inv in Hv as (c & e & Heq & Hc & He & Hl).
  exists c, e. split_and!; try done.
  rewrite Hl. unfold selectBroadcast. rewrite length_zip_with. lia.
Qed.

Lemma decompose_res (q : Z) :
  0 ≤ q < Er →
  ∃ c e, getMultiDimIndex (T := int64_t) q RL = c ++ e ∧
         valid_index c C ∧ valid_index e Ss ∧ length c = length B.
Proof using Hlen Hwf Hres HdivS HdivR Hone Hfit.
  intros Hq.
  destruct broadcast_shapes_facts
    as (HlB & HlC & HpC & HpS & Hsel & _ & _ & HRL & _ & HEr & _).
  assert (valid_index (getMultiDimIndex (T := int64_t) q RL) RL) as Hv.
  { apply getMultiDimIndex_valid.
    - by apply Forall_app.
    - rewrite HRL. simpl. lia.
    - by rewrite HRL. }
  apply valid_index_app_inv in Hv as (c & e & Heq & Hc & He & Hl).
  exists c, e. split_and!; try done. lia.
Qed.

(** The source slot that a result slot [q] has to hold, and the result slot
    written for the source slot [i] and the broadcast position [j]. *)
Let sigma (q : nat) : Z :=
  rowMajor (zeroBroadcastDims B (getMultiDimIndex (T := int64_t) (Z.of_nat q) RL)) SL.

Let slot (i j : Z) : Z :=
  rowMajor (overwriteAt B (getMultiDimIndex (T := int64_t) j BS)
                        (take (length B) (getMultiDimIndex (T := int64_t) i SL))
            ++ drop (length B) (getMultiDimIndex (T := int64_t) i SL)) RL.

Let correct (src : list V) (resultVals : list (option V)) : Prop :=
  length resultVals = Z.to_nat Er ∧
  ∀ (q : nat) w, resultVals !! q = Some (Some w) →
                 src !! Z.to_nat (sigma q) = Some w.

Let written (resultVals : list (option V)) (i j : Z) : Prop :=
  ∃ w, resultVals !! Z.to_nat (slot i j) = Some (Some w).

Lemma broadcastCopy_step (src : list V) (i j : Z) c e bm resultVals v :
  0 ≤ i < Es → 0 ≤ j < product BS →
  getMultiDimIndex (T := int64_t) i SL = c ++ e →
  valid_index c (selectBroadcast B C) → valid_index e Ss →
  valid_index bm BS →
  length resultVals = Z.to_nat Er →
  src !! Z.to_nat i = Some v →
  0 ≤ slot i j < Er ∧
  broadcastCopy st src i (overwriteAt B bm c ++ e, resultVals) j
  = Some (overwriteAt B (getMultiDimIndex (T := int64_t) j BS) c ++ e,
          <[Z.to_nat (slot i j) := Some v]> resultVals) ∧
  valid_index (getMultiDimIndex (T := int64_t) j BS) BS ∧
  sigma (Z.to_nat (slot i j)) = i.
Proof using Hlen Hwf Hres HdivS HdivR Hone Hfit.
  intros Hi Hj Hce Hc He Hbm Hlrv Hv.
  destruct broadcast_shapes_facts
    as (HlB & HlC & HpC & HpS & Hsel & _ & HSL & HRL & HEs & HEr & _ & _ & HpBS & HBS).
  assert (length c = length B) as Hlc.
  { apply Forall2_length in Hc. rewrite Hc. unfold selectBroadcast.
    rewrite length_zip_with. lia. }
  assert (valid_index (getMultiDimIndex (T := int64_t) j BS) BS) as Hbmj.
  { apply getMultiDimIndex_valid; [done|simpl; lia|done]. }
  set (bmj := getMultiDimIndex (T := int64_t) j BS) in *.
  assert (slot i j = rowMajor (overwriteAt B bmj c ++ e) RL) as Hslot.
  { unfold slot. rewrite Hce. fold bmj.
    by rewrite take_app_length', drop_app_length' by done. }
  assert (valid_index (overwriteAt B bmj c ++ e) RL) as Hrm.
  { apply Forall2_app; [|done]. by apply overwriteAt_valid. }
  pose proof (rowMajor_bounds _ _ Hrm) as Hq. rewrite HRL in Hq.
  assert (product RL ≤ tmax (IntType := int64_t)) as HfitRL
    by (rewrite HRL; simpl; lia).
  assert (product SL ≤ tmax (IntType := int64_t)) as HfitSL
    by (rewrite HSL; simpl; lia).
  rewrite Hslot. split_and!; [lia|lia| |done|].
  - unfold broadcastCopy. cbn [st broadcastSizes broadcastDims resultLogicalShape].
    fold bmj.
    rewrite (overwriteBroadcastDims_spec B C)
      by (rewrite ?length_overwriteAt; try done;
          apply Forall2_length in Hbmj; done).
    cbn [mbind option_bind].
    rewrite (overwriteAt_overwriteAt B C) by done.
    rewrite (getLinearIndex_rowMajor (T := int64_t) _ _ Hrm HfitRL).
    cbn [mbind option_bind]. unfold at_ at 1. rewrite decide_True by lia.
    rewrite Hv. cbn [mbind option_bind].
    unfold set_at. rewrite decide_True by lia. done.
  - unfold sigma. rewrite Z2Nat.id by lia.
    rewrite (getMultiDimIndex_rowMajor (T := int64_t) _ _ Hrm HfitRL).
    rewrite zeroBroadcastDims_app by by rewrite length_overwriteAt.
    rewrite (zeroAt_overwriteAt B C) by done.
    rewrite (zeroAt_unit_extent B Ss e) by (done || lia).
    rewrite <- Hce. apply (rowMajor_getMultiDimIndex (T := int64_t)).
    + apply Forall_app. split; [by apply selectBroadcast_positive|done].
    + done.
    + by rewrite HSL.
Qed.

Lemma correct_insert (src : list V) resultVals (q : nat) v :
  correct src resultVals → src !! Z.to_nat (sigma q) = Some v →
  correct src (<[q := Some v]> resultVals).
Proof.
  intros [Hl Hc] Hv. split; [by rewrite length_insert|].
  intros q' w Hw. destruct (decide (q = q')) as [<-|Hne].
  - assert (q < length resultVals)%nat as Hq.
    { apply lookup_lt_Some in Hw. by rewrite length_insert in Hw. }
    rewrite list_lookup_insert_eq in Hw by done. by simplify_eq.
  - rewrite list_lookup_insert_ne in Hw by done. by eapply Hc.
Qed.

Lemma written_insert resultVals (q : nat) v i j :
  written resultVals i j → written (<[q := Some v]> resultVals) i j.
Proof. apply lookup_insert_written. Qed.

Lemma broadcastElem_step (src : list V) (i : Z) resultVals :
  Z.of_nat (length src) = Es → 0 ≤ i < Es →
  correct src resultVals →
  (∀ i' j', 0 ≤ i' < i → 0 ≤ j' < product BS → written resultVals i' j') →
  ∃ resultVals',
    broadcastElem st src resultVals i = Some resultVals' ∧
    correct src resultVals' ∧
    (∀ i' j', 0 ≤ i' < i + 1 → 0 ≤ j' < product BS → written resultVals' i' j').
Proof using Hlen Hwf Hres HdivS HdivR Hone Hfit.
  intros Hsrc Hi Hcorrect Hprev.
  destruct broadcast_shapes_facts
    as (HlB & HlC & HpC & HpS & Hsel & _ & HSL & HRL & HEs & HEr & _ & _ & HpBS & HBS).
  destruct (decompose_src i Hi) as (c & e & Hce & Hc & He & Hlc).
  destruct (lookup_lt_is_Some_2 src (Z.to_nat i) ltac:(lia)) as [v Hv].
  destruct (overwriteAt_same B C c ltac:(lia) Hc HpC) as [Hbm0 Hc0].
  pose proof (product_pos _ HpBS) as HposBS.
  destruct (foldM_seqZ_inv
    (λ k (state : list Z * list (option V)),
       (∃ bm, valid_index bm BS ∧ state.1 = overwriteAt B bm c ++ e) ∧
       correct src state.2 ∧
       (∀ i' j', 0 ≤ i' < i → 0 ≤ j' < product BS → written state.2 i' j') ∧
       (∀ j', 0 ≤ j' < k → written state.2 i j'))
    (broadcastCopy st src i)
    (getMultiDimIndex (T := int64_t) i SL, resultVals) (product BS))
    as ([rm resultVals'] & Hloop & _ & Hcorrect' & Hprev' & Hcur').
  - lia.
  - cbn [fst snd]. split_and!; try done.
    + exists (atBroadcastDims B c). split; [done|]. by rewrite Hc0.
    + intros j' Hj'. lia.
  - intros k [rm rv] Hk ((bm & Hbm & Hrm) & Hcor & Hpr & Hcu). cbn [fst snd] in *.
    subst rm.
    destruct (broadcastCopy_step src i k c e bm rv v)
      as (Hslot & Hstep & Hbmk & Hsigma); try done; [apply Hcor|].
    eexists. split; [exact Hstep|]. cbn [fst snd]. split_and!.
    + eexists. split; [exact Hbmk|done].
    + apply correct_insert; [done|]. rewrite Hsigma. done.
    + intros i' j' Hi' Hj'. apply written_insert. by apply Hpr.
    + intros j' Hj'. destruct (decide (j' = k)) as [->|Hne].
      * exists v. apply list_lookup_insert_eq. destruct Hcor as [Hlrv _]. lia.
      * apply written_insert. apply Hcu. lia.
  - exists resultVals'. unfold broadcastElem. cbn [st srcLogicalShape duplicates].
    rewrite Hloop. cbn [mbind option_bind snd]. split_and!; try done.
    intros i' j' Hi' Hj'. destruct (decide (i' = i)) as [->|Hne].
    + by apply Hcur'.
    + apply Hprev'; [lia|done].
Qed.

Lemma broadcast_copy_loop (src : list V) :
  Z.of_nat (length src) = Es →
  ∃ resultVals,
    foldM (broadcastElem st src) (replicate (Z.to_nat Er) None) (seqZ 0 Es)
    = Some resultVals ∧
    correct src resultVals ∧
    (∀ i j, 0 ≤ i < Es → 0 ≤ j < product BS → written resultVals i j).
Proof using Hlen Hwf Hres HdivS HdivR Hone Hfit.
  intros Hsrc.
  destruct broadcast_shapes_facts
    as (HlB & HlC & HpC & HpS & Hsel & _ & HSL & HRL & HEs & HEr & _).
  destruct (foldM_seqZ_inv
    (λ k resultVals,
       correct src resultVals ∧
       (∀ i j, 0 ≤ i < k → 0 ≤ j < product BS → written resultVals i j))
    (broadcastElem st src) (replicate (Z.to_nat Er) None) Es)
    as (resultVals & Hloop & Hcorrect & Hwritten).
  - lia.
  - split.
    + split; [by rewrite length_replicate|].
      intros q w Hq. by apply lookup_replicate in Hq as [? _].
    + intros i j Hi. lia.
  - intros k rv Hk [Hcor Hwr]. by apply broadcastElem_step.
  - by exists resultVals.
Qed.

(** Every slot of the result is written. *)
Lemma slot_surjective (q : Z) :
  0 ≤ q < Er → ∃ i j, 0 ≤ i < Es ∧ 0 ≤ j < product BS ∧ slot i j = q.
Proof using Hlen Hwf Hres HdivS HdivR Hone Hfit.
  intros Hq.
  destruct broadcast_shapes_facts
    as (HlB & HlC & HpC & HpS & Hsel & _ & HSL & HRL & HEs & HEr & _ & _ & HpBS & HBS).
  destruct (decompose_res q Hq) as (c & e & Hce & Hc & He & Hlc).
  destruct (overwriteAt_zeroAt B C c HlB HpC Hc) as (Hz & Hb & Hov).
  change (atBroadcastDims B C) with BS in Hb.
  assert (valid_index (zeroAt B c ++ e) SL) as Hsrc by by apply Forall2_app.
  assert (product SL ≤ tmax (IntType := int64_t)) as HfitSL
    by (rewrite HSL; simpl; lia).
  assert (product BS ≤ tmax (IntType := int64_t)) as HfitBS by (simpl; lia).
  assert (product RL ≤ tmax (IntType := int64_t)) as HfitRL
    by (rewrite HRL; simpl; lia).
  exists (rowMajor (zeroAt B c ++ e) SL), (rowMajor (atBroadcastDims B c) BS).
  pose proof (rowMajor_bounds _ _ Hsrc) as Hi. rewrite HSL in Hi.
  pose proof (rowMajor_bounds _ _ Hb) as Hj.
  split_and!; try lia.
  unfold slot.
  rewrite (getMultiDimIndex_rowMajor (T := int64_t) _ _ Hsrc HfitSL).
  rewrite (getMultiDimIndex_rowMajor (T := int64_t) _ _ Hb HfitBS).
  assert (length (zeroAt B c) = length B) as Hlz.
  { unfold zeroAt. rewrite length_zip_with. lia. }
  rewrite take_app_length', drop_app_length' by done.
  rewrite Hov, <- Hce.
  apply (rowMajor_getMultiDimIndex (T := int64_t)).
  - by apply Forall_app.
  - done.
  - by rewrite HRL.
Qed.

Lemma BroadcastOpConversion_general (src : list V) :
  Z.of_nat (length src) = Es →
  ∃ result,
    BroadcastOpConversion undef layout srcShape resultShape src = Some result ∧
    Z.of_nat (length result) = Er ∧
    ∀ pos, valid_index pos RL →
      ∃ q p w,
        getLinearIndex (T := int64_t) pos RL = Some q ∧
        getLinearIndex (T := int64_t) (zeroBroadcastDims B pos) SL = Some p ∧
        src !! Z.to_nat p = Some w ∧ result !! Z.to_nat q = Some w.
Proof using Hlen Hwf Hres HdivS HdivR Hone Hfit.
  intros Hsrc.
  destruct broadcast_shapes_facts
    as (HlB & HlC & HpC & HpS & Hsel & Hst & HSL & HRL & HEs & HEr & HgS & HgR
        & HpBS & HBS).
  destruct (broadcast_copy_loop src Hsrc) as (rv & Hloop & [Hlrv Hcor] & Hwr).
  destruct (all_written_fmap rv) as (vals & Hvals & Hrv).
  { intros q Hq.
    destruct (slot_surjective (Z.of_nat q) ltac:(lia)) as (i & j & Hi & Hj & Hs).
    destruct (Hwr i j Hi Hj) as [w Hw]. exists w.
    by rewrite Hs, Nat2Z.id in Hw. }
  assert (length vals = Z.to_nat Er) as Hlvals.
  { rewrite <- Hlrv, Hrv. by rewrite length_fmap. }
  assert (product SL ≤ tmax (IntType := int64_t)) as HfitSL
    by (rewrite HSL; simpl; lia).
  assert (product RL ≤ tmax (IntType := int64_t)) as HfitRL
    by (rewrite HRL; simpl; lia).
  exists vals. split_and!.
  - unfold BroadcastOpConversion. rewrite decide_True by done.
    rewrite Hst, HgS. cbn [mbind option_bind].
    pose proof (getElementsFromStruct_app src []) as Hel.
    rewrite app_nil_r, Hsrc in Hel. rewrite Hel, HgR. cbn [mbind option_bind].
    rewrite Hloop. cbn [mbind option_bind]. rewrite Hvals.
    cbn [mbind option_bind].
    rewrite getStructFromElements_fields by lia.
    by rewrite Hlvals, Nat.sub_diag, app_nil_r.
  - lia.
  - intros pos Hpos.
    pose proof (rowMajor_bounds _ _ Hpos) as Hq. rewrite HRL in Hq.
    apply valid_index_app_inv in Hpos as (c & e & -> & Hc & He & Hlc).
    destruct (overwriteAt_zeroAt B C c HlB HpC Hc) as (Hz & Hb & Hov).
    assert (valid_index (c ++ e) RL) as Hpos by by apply Forall2_app.
    assert (valid_index (zeroBroadcastDims B (c ++ e)) SL) as Hzero.
    { rewrite zeroBroadcastDims_app by lia.
      rewrite (zeroAt_unit_extent B Ss e) by (done || lia).
      by apply Forall2_app. }
    pose proof (rowMajor_bounds _ _ Hzero) as Hp. rewrite HSL in Hp.
    set (q := rowMajor (c ++ e) RL) in *.
    destruct (lookup_lt_is_Some_2 vals (Z.to_nat q) ltac:(lia)) as [w Hw].
    exists q, (rowMajor (zeroBroadcastDims B (c ++ e)) SL), w.
    split_and!.
    + by apply getLinearIndex_rowMajor.
    + by apply getLinearIndex_rowMajor.
    + assert (rv !! Z.to_nat q = Some (Some w)) as Hrvq
        by (by rewrite Hrv, list_lookup_fmap, Hw).
      pose proof (Hcor _ _ Hrvq) as Hs. unfold sigma in Hs.
      rewrite Z2Nat.id in Hs by lia. unfold q in Hs.
      by rewrite (getMultiDimIndex_rowMajor (T := int64_t) _ _ Hpos HfitRL) in Hs.
    + done.
Qed.

End BroadcastGeneral.

(** C3. Broadcast correctness.  Source and result share the layout, the
    source extent is [1] in every broadcast dimension, and both shapes satisfy
    the invariant of the data model (well-formed layout, divisibility, a size
    that fits 32 bits).  Then the lowering succeeds, the result aggregate has
    [elementsPerLane] values, and the value at every position of the thread
    (a valid index [pos] of the doubled-rank logical shape of the result) is
    the source value at the position with the coordinates of the broadcast
    dimensions set to [0].  In the example of the specification, lane 2 of
    the layout [[1,1] / [4,1] / [1,1]] owns the source element [[2,0]] and the
    result elements [[2,0]], [[2,1]], [[2,2]], and its single source value is
    the value of all three. *)
Theorem broadcast_correct {V} (undef : V) (layout : TritonGPUBlockedEncodingAttr)
    (srcShape resultShape : list Z) (src : list V) :
  length srcShape = length resultShape →
  wf_layout layout (length resultShape) →
  positive_shape resultShape →
  divisible layout srcShape →
  divisible layout resultShape →
  Forall2 (λ s r, s = r ∨ s = 1) srcShape resultShape →
  product resultShape < 2 ^ 32 →
  Z.of_nat (length src) = elementsPerLane layout srcShape →
  (∃ st result,
     broadcastShapes layout srcShape resultShape = Some st ∧
     BroadcastOpConversion undef layout srcShape resultShape src = Some result ∧
     Z.of_nat (length result) = elementsPerLane layout resultShape ∧
     ∀ pos, valid_index pos (resultLogicalShape st) →
       ∃ q p w,
         getLinearIndex (T := int64_t) pos (resultLogicalShape st) = Some q ∧
         getLinearIndex (T := int64_t)
           (zeroBroadcastDims (isBroadcastDim srcShape resultShape) pos)
           (srcLogicalShape st) = Some p ∧
         src !! Z.to_nat p = Some w ∧ result !! Z.to_nat q = Some w) ∧
  (let lanes4 := {| getSizePerThread := [1; 1]; getThreadsPerWarp := [4; 1];
                    getWarpsPerCTA := [1; 1]; getOrder := [0; 1] |} in
   emitIndicesForBlockedLayout lanes4 [4; 1] 2 = Some [[2; 0]] ∧
   emitIndicesForBlockedLayout lanes4 [4; 3] 2 = Some [[2; 0]; [2; 1]; [2; 2]] ∧
   ∀ v : V, BroadcastOpConversion undef lanes4 [4; 1] [4; 3] [v] = Some [v; v; v]).
Proof.
  intros Hlen Hwf Hres HdivS HdivR Hone Hfit Hsrc. split.
  - destruct (broadcast_shapes_facts layout srcShape resultShape)
      as (_ & _ & _ & _ & _ & Hst & _); [done..|].
    destruct (BroadcastOpConversion_general undef layout srcShape resultShape)
      with (src := src) as (result & Hresult & Hlength & Hvalues); [done..|].
    eexists _, result. split_and!; [exact Hst|done|done|].
    cbn [resultLogicalShape srcLogicalShape]. exact Hvalues.
  - split_and!.
    + vm_compute. reflexivity.
    + vm_compute. reflexivity.
    + intros v. vm_compute. reflexivity.
Qed.

Lemma broadcast_correct_witness :
  let layout := {| getSizePerThread := [1; 1]; getThreadsPerWarp := [4; 1];
                   getWarpsPerCTA := [1; 1]; getOrder := [0; 1] |} in
  ∃ st result,
    broadcastShapes layout [4; 1] [4; 3] = Some st ∧
    BroadcastOpConversion 0 layout [4; 1] [4; 3] [42] = Some result ∧
    Z.of_nat (length result) = elementsPerLane layout [4; 3] ∧
    ∀ pos, valid_index pos (resultLogicalShape st) →
      ∃ q p w,
        getLinearIndex (T := int64_t) pos (resultLogicalShape st) = Some q ∧
        getLinearIndex (T := int64_t)
          (zeroBroadcastDims (isBroadcastDim [4; 1] [4; 3]) pos)
          (srcLogicalShape st) = Some p ∧
        [42] !! Z.to_nat p = Some w ∧ result !! Z.to_nat q = Some w.
Proof.
  intros layout.
  apply (broadcast_correct 0 layout [4; 1] [4; 3] [42]).
  - reflexivity.
  - repeat split; repeat constructor; lia.
  - repeat constructor; lia.
  - repeat constructor.
  - repeat constructor.
  - repeat constructor; lia.
  - simpl. lia.
  - reflexivity.
Defined.

(** * Further properties of the lowering rules *)

(** ** Aggregates and loops *)

Lemma getElementsFromStruct_take {V} (src : list V) (elems : Z) :
  0 ≤ elems ≤ Z.of_nat (length src) →
  getElementsFromStruct src elems = Some (take (Z.to_nat elems) src).
Proof.
  intros H.
  pose proof (getElementsFromStruct_app (take (Z.to_nat elems) src)
                (drop (Z.to_nat elems) src)) as Happ.
  rewrite take_drop, length_take, Nat.min_l, Z2Nat.id in Happ by lia. done.
Qed.

Lemma getElementsFromStruct_short {V} (src : list V) (elems : Z) :
  Z.of_nat (length src) < elems → getElementsFromStruct src elems = None.
Proof.
  intros H. apply mapM_None_2, Exists_exists. exists (Z.of_nat (length src)). split.
  - apply elem_of_seqZ. lia.
  - rewrite at_lookup. apply lookup_ge_None_2. lia.
Qed.

Lemma insertValues_overflow {V} (pre suf vals : list V) :
  (length suf < length vals)%nat →
  insertValues (pre ++ suf) (Z.of_nat (length pre)) vals = None.
Proof.
  revert pre suf. induction vals as [|v vals IH]; intros pre suf Hlen; simpl in *.
  - lia.
  - destruct suf as [|x suf].
    + unfold set_at. rewrite decide_False; [done|]. rewrite length_app. simpl. lia.
    + rewrite set_at_Some by (rewrite length_app; simpl; lia).
      simpl. rewrite insert_app_r_alt, Nat.sub_diag by lia. simpl.
      replace (Z.of_nat (length pre) + 1) with (Z.of_nat (length (pre ++ [v])))
        by (rewrite length_app; simpl; lia).
      replace (pre ++ v :: suf) with ((pre ++ [v]) ++ suf) by by rewrite <- app_assoc.
      apply IH. simpl in Hlen. lia.
Qed.

(** Packing succeeds exactly when the struct type has a field for every
    value. *)
Lemma getStructFromElements_Some {V} (undef : V) (vals : list V) (n : nat) s :
  getStructFromElements undef vals n = Some s ↔
  (length vals ≤ n)%nat ∧ s = vals ++ replicate (n - length vals) undef.
Proof.
  destruct (decide (length vals ≤ n)%nat) as [Hle|Hgt].
  - rewrite getStructFromElements_fields by done.
    split; [by intros [= <-]|by intros [_ ->]].
  - unfold getStructFromElements.
    pose proof (insertValues_overflow [] (replicate n undef) vals) as Hover.
    change (Z.of_nat (length (@nil V))) with 0 in Hover. simpl in Hover.
    rewrite Hover by (rewrite length_replicate; lia).
    split; [done|]. intros [Hle _]. lia.
Qed.

Lemma getStructFromElements_exact {V} (undef : V) (vals : list V) :
  getStructFromElements undef vals (length vals) = Some vals.
Proof.
  rewrite getStructFromElements_fields by done.
  by rewrite Nat.sub_diag, app_nil_r.
Qed.

Lemma foldM_inv {St A} (Inv : St → Prop) (body : St → A → option St) s0 l s :
  Inv s0 → (∀ s x s', Inv s → body s x = Some s' → Inv s') →
  foldM body s0 l = Some s → Inv s.
Proof.
  intros H0 Hstep. revert s0 H0. induction l as [|x l IH]; intros s0 H0; simpl.
  - by intros [= <-].
  - destruct (body s0 x) as [s1|] eqn:Hb; [|done]. simpl. eauto.
Qed.

Lemma foldM_ext_in {St A} (f g : St → A → option St) s l :
  (∀ s x, x ∈ l → f s x = g s x) → foldM f s l = foldM g s l.
Proof.
  revert s. induction l as [|x l IH]; intros s Hfg; [done|]. simpl.
  rewrite Hfg by left. destruct (g s x); [|done]. simpl.
  apply IH. intros. apply Hfg. by right.
Qed.

Lemma foldM_None_at {St A} (body : St → A → option St) s l x :
  x ∈ l → (∀ s, body s x = None) → foldM body s l = None.
Proof.
  intros Hx Hnone. revert s. induction l as [|y l IH]; intros s.
  - by apply elem_of_nil in Hx.
  - simpl. apply elem_of_cons in Hx as [->|Hx].
    + by rewrite Hnone.
    + destruct (body s y); [|done]. simpl. by apply IH.
Qed.

Lemma getElemsPerThread_range layout shape elems :
  getElemsPerThread layout shape = Some elems → 0 ≤ elems < 2 ^ 32.
Proof.
  unfold getElemsPerThread. destruct (decide _); [|done].
  apply (foldM_inv (λ e, 0 ≤ e < 2 ^ 32)); [lia|]. intros e0 d e' _ He'.
  destruct (at_ shape d); [|done]. simpl in He'.
  destruct (at_ (getThreadsPerWarp layout) d); [|done]. simpl in He'.
  destruct (at_ (getWarpsPerCTA layout) d); [|done]. simpl in He'.
  injection He' as <-. apply u32_range.
Qed.

(** ** View *)

(** X1. The view rule copies the first [elems] fields of the source struct,
    [elems] being the element count of the result type: on a source with
    exactly that many fields it is the identity, and on a shorter source the
    field subscript aborts. *)
Theorem view_copies_fields {V} (undef : V) (resultLayout : TritonGPUBlockedEncodingAttr)
    (resultShape : list Z) (src : list V) (elems : Z) :
  getElemsPerThread resultLayout resultShape = Some elems →
  (elems ≤ Z.of_nat (length src) →
   ViewOpConversion undef resultLayout resultShape src
   = Some (take (Z.to_nat elems) src)) ∧
  (Z.of_nat (length src) = elems →
   ViewOpConversion undef resultLayout resultShape src = Some src) ∧
  (Z.of_nat (length src) < elems →
   ViewOpConversion undef resultLayout resultShape src = None).
Proof.
  intros Helems. pose proof (getElemsPerThread_range _ _ _ Helems) as Hr.
  unfold ViewOpConversion. rewrite Helems. simpl.
  assert (elems ≤ Z.of_nat (length src) →
          getElementsFromStruct src elems ≫= (λ vals,
            getStructFromElements undef vals (Z.to_nat elems))
          = Some (take (Z.to_nat elems) src)) as Hle.
  { intros Hle. rewrite getElementsFromStruct_take by lia. simpl.
    replace (Z.to_nat elems) with (length (take (Z.to_nat elems) src)) at 2
      by (rewrite length_take; lia).
    apply getStructFromElements_exact. }
  split_and!.
  - done.
  - intros Heq. rewrite Hle by lia. by rewrite take_ge by lia.
  - intros Hlt. by rewrite getElementsFromStruct_short.
Qed.

Lemma view_copies_fields_witness :
  let layout := {| getSizePerThread := [2]; getThreadsPerWarp := [32];
                   getWarpsPerCTA := [2]; getOrder := [0] |} in
  (4 ≤ Z.of_nat (length [10; 11; 12; 13; 14]) →
   ViewOpConversion 0 layout [256] [10; 11; 12; 13; 14]
   = Some (take (Z.to_nat 4) [10; 11; 12; 13; 14])) ∧
  (Z.of_nat (length [10; 11; 12; 13; 14]) = 4 →
   ViewOpConversion 0 layout [256] [10; 11; 12; 13; 14] = Some [10; 11; 12; 13; 14]) ∧
  (Z.of_nat (length [10; 11; 12; 13; 14]) < 4 →
   ViewOpConversion 0 layout [256] [10; 11; 12; 13; 14] = None).
Proof.
  intros layout. apply (view_copies_fields 0 layout [256] [10; 11; 12; 13; 14] 4).
  reflexivity.
Defined.

(** ** Size of the index list *)

Lemma elemsPerThreadOf_getElemsPerThread layout shape :
  length shape = length (getThreadsPerWarp layout) →
  positive_shape (getThreadsPerWarp layout) →
  positive_shape (getWarpsPerCTA layout) →
  Forall (λ tw, tw < 2 ^ 32) (threadsPerDimOfTile layout) →
  elemsPerThreadOf layout shape = getElemsPerThread layout shape.
Proof.
  intros Hlen Ht Hw Htw. unfold elemsPerThreadOf, getElemsPerThread.
  rewrite decide_True by done. apply foldM_ext_in. intros e d _.
  destruct (at_ shape d) as [s|] eqn:Hs; [|done]. simpl.
  destruct (at_ (getThreadsPerWarp layout) d) as [t|] eqn:Hst; [|done]. simpl.
  destruct (at_ (getWarpsPerCTA layout) d) as [w|] eqn:Hsw; [|done]. simpl.
  apply at_Some in Hst as [Hd Hst]. apply at_Some in Hsw as [_ Hsw].
  assert (0 < t) as Htpos by (by eapply Forall_lookup_1 in Ht).
  assert (0 < w) as Hwpos by (by eapply Forall_lookup_1 in Hw).
  assert (t * w < 2 ^ 32) as Hfit.
  { eapply (Forall_lookup_1 _ _ (Z.to_nat d)) in Htw; [done|].
    unfold threadsPerDimOfTile. by rewrite lookup_zip_with, Hst, Hsw. }
  f_equal. rewrite u32_s64, (u32_small (t * w)) by nia.
  rewrite Z.quot_quot by lia.
  by rewrite (Z.mul_comm e (u32 _)), u32_mul_l, Z.mul_comm.
Qed.

Lemma emitIndices_lengths layout shape tid idxs :
  emitIndicesForBlockedLayout layout shape tid = Some idxs →
  (∃ elemsPerThread, elemsPerThreadOf layout shape = Some elemsPerThread ∧
                     length idxs = Z.to_nat elemsPerThread) ∧
  Forall (λ idx, length idx = length shape) idxs.
Proof.
  unfold emitIndicesForBlockedLayout. intros Hemit.
  destruct (multiDimBaseOf layout shape tid) as [base|]; [|done]. simpl in Hemit.
  destruct (elemsPerThreadOf layout shape) as [elemsPerThread|]; [|done].
  simpl in Hemit.
  destruct (offsetOf layout shape) as [offset|]; [|done]. simpl in Hemit.
  destruct (threadsPerDimOf layout shape) as [threadsPerDim|]; [|done].
  simpl in Hemit. split.
  - exists elemsPerThread. split; [done|]. by eapply mapM_seqZ_length.
  - apply mapM_Some_1 in Hemit. apply Forall_forall. intros idx Hidx.
    apply list_elem_of_lookup in Hidx as [n Hn].
    destruct (Forall2_lookup_r _ _ _ _ _ Hemit Hn) as (m & _ & Hm).
    apply mapM_seqZ_length in Hm. lia.
Qed.

(** X2. When the index computation succeeds, the list it returns has one
    entry per field of the converted tensor type (the count of
    [getElemsPerThread]), and every entry has one coordinate per dimension of
    the shape. *)
Theorem emitIndices_size (layout : TritonGPUBlockedEncodingAttr) (shape : list Z)
    (threadId : Z) (idxs : list (list Z)) :
  length shape = length (getThreadsPerWarp layout) →
  positive_shape (getThreadsPerWarp layout) →
  positive_shape (getWarpsPerCTA layout) →
  Forall (λ tw, tw < 2 ^ 32) (threadsPerDimOfTile layout) →
  emitIndicesForBlockedLayout layout shape threadId = Some idxs →
  getElemsPerThread layout shape = Some (Z.of_nat (length idxs)) ∧
  Forall (λ idx, length idx = length shape) idxs.
Proof.
  intros Hlen Ht Hw Htw Hemit.
  destruct (emitIndices_lengths _ _ _ _ Hemit) as [(e & He & Hl) Hrank].
  split; [|done].
  rewrite <- elemsPerThreadOf_getElemsPerThread, He by done.
  rewrite elemsPerThreadOf_getElemsPerThread in He by done.
  apply getElemsPerThread_range in He. f_equal. lia.
Qed.

Lemma emitIndices_size_witness :
  let layout := {| getSizePerThread := [2; 2]; getThreadsPerWarp := [4; 8];
                   getWarpsPerCTA := [1; 1]; getOrder := [0; 1] |} in
  let idxs := [[2; 2]; [2; 3]; [3; 2]; [3; 3]] in
  getElemsPerThread layout [8; 16] = Some (Z.of_nat (length idxs)) ∧
  Forall (λ idx, length idx = length [8; 16]) idxs.
Proof.
  intros layout idxs. apply (emitIndices_size layout [8; 16] 9 idxs).
  - reflexivity.
  - repeat constructor.
  - repeat constructor.
  - repeat constructor.
  - reflexivity.
Defined.

(** ** Range *)

Lemma u32_add_start x start : u32 (x + u32 start) = u32 (x + start).
Proof. apply u32_add_r. Qed.

(** X3. Every field of the struct that the range rule builds holds, modulo
    [2^32], the start of the range plus the tensor index that the index
    computation gives to that field. *)
Theorem make_range_values (undef : Z) (blocked_layout : TritonGPUBlockedEncodingAttr)
    (shape : list Z) (elemTy : ElementType) (start threadId : Z) (vals : list Z) :
  MakeRangeOpConversion undef blocked_layout shape elemTy start threadId = Some vals →
  ∃ idxs,
    emitIndicesForBlockedLayout blocked_layout shape threadId = Some idxs ∧
    length vals = length idxs ∧
    ∀ (n : nat) idx, idxs !! n = Some idx →
      ∃ x, idx = [x] ∧ vals !! n = Some (u32 (x + start)).
Proof.
  unfold MakeRangeOpConversion. intros Hrange.
  destruct (isInteger elemTy 32); [|done].
  destruct (emitIndicesForBlockedLayout blocked_layout shape threadId)
    as [idxs|]; [|done]. simpl in Hrange.
  destruct (mapM _ idxs) as [retVals|] eqn:Hret; [|done]. simpl in Hrange.
  apply mapM_Some_1 in Hret.
  pose proof (Forall2_length _ _ _ Hret) as Hlen.
  rewrite Hlen, getStructFromElements_exact in Hrange. injection Hrange as <-.
  exists idxs. split_and!; [done|done|].
  intros n idx Hn.
  destruct (Forall2_lookup_l _ _ _ _ _ Hret Hn) as (v & Hv & Hidx).
  destruct (decide (length idx = 1%nat)) as [Hone|]; [|done].
  destruct idx as [|x [|? ?]]; try done.
  exists x. split; [done|]. rewrite Hv. f_equal.
  change (at_ [x] 0) with (Some x) in Hidx. simpl in Hidx.
  injection Hidx as <-. by rewrite u32_add_start.
Qed.

Lemma make_range_values_witness :
  ∃ idxs,
    emitIndicesForBlockedLayout
      {| getSizePerThread := [2]; getThreadsPerWarp := [32]; getWarpsPerCTA := [2];
         getOrder := [0] |} [256] 33 = Some idxs ∧
    length [166; 167; 294; 295] = length idxs ∧
    ∀ (n : nat) idx, idxs !! n = Some idx →
      ∃ x, idx = [x] ∧ [166; 167; 294; 295] !! n = Some (u32 (x + 100)).
Proof.
  apply (make_range_values 0
           {| getSizePerThread := [2]; getThreadsPerWarp := [32];
              getWarpsPerCTA := [2]; getOrder := [0] |}
           [256] (IntegerType 32) 100 33 [166; 167; 294; 295]).
  reflexivity.
Defined.

(** X4. For a one-dimensional layout of full warps the range rule succeeds,
    and field [n] of the thread [tid] holds
    [start + S * tid + (n / S) * (S * 32 * W) + n mod S] modulo [2^32]. *)
Theorem make_range_rank1 (undef S W c start tid : Z) :
  0 < S → 0 < W → 0 < c → c * (S * 32 * W) < 2 ^ 32 → 0 ≤ tid < 32 * W →
  MakeRangeOpConversion undef
    {| getSizePerThread := [S]; getThreadsPerWarp := [32]; getWarpsPerCTA := [W];
       getOrder := [0] |} [c * (S * 32 * W)] (IntegerType 32) start tid
  = Some ((λ n, u32 (start + (S * tid + n `div` S * (S * 32 * W) + n `mod` S)))
          <$> seqZ 0 (c * S)).
Proof.
  intros HS HW Hc Hfit Htid. unfold MakeRangeOpConversion.
  change (isInteger (IntegerType 32) 32) with true. cbv iota.
  rewrite emitIndices_rank1 by done. cbn [mbind option_bind].
  set (l := seqZ 0 (c * S)).
  assert (mapM (λ multiDim : list Z,
                  if decide (length multiDim = 1%nat) then
                    idx ← at_ multiDim 0; Some (u32 (idx + u32 start))
                  else None)
               ((λ n, [S * tid + n `div` S * (S * 32 * W) + n `mod` S]) <$> l)
          = Some ((λ n, u32 (start + (S * tid + n `div` S * (S * 32 * W) + n `mod` S)))
                  <$> l)) as ->.
  { apply mapM_Some_2, Forall2_fmap, Forall_Forall2_diag, Forall_forall.
    intros n _. rewrite decide_True by done.
    match goal with |- context [at_ [?b] 0] => change (at_ [b] 0) with (Some b) end.
    simpl. by rewrite u32_add_start, Z.add_comm. }
  cbn [mbind option_bind].
  replace (length ((λ n, [S * tid + n `div` S * (S * 32 * W) + n `mod` S]) <$> l))
    with (length ((λ n, u32 (start + (S * tid + n `div` S * (S * 32 * W) + n `mod` S)))
                  <$> l)) by by rewrite !length_fmap.
  apply getStructFromElements_exact.
Qed.

Lemma make_range_rank1_witness :
  MakeRangeOpConversion 0
    {| getSizePerThread := [2]; getThreadsPerWarp := [32]; getWarpsPerCTA := [2];
       getOrder := [0] |} [2 * (2 * 32 * 2)] (IntegerType 32) 100 33
  = Some ((λ n, u32 (100 + (2 * 33 + n `div` 2 * (2 * 32 * 2) + n `mod` 2)))
          <$> seqZ 0 (2 * 2)).
Proof. apply (make_range_rank1 0 2 2 2 100 33); lia. Defined.

(** X5. The range rule asserts that every index has one coordinate: on a
    shape whose rank is not one it aborts as soon as the thread holds an
    element, and with no element it returns the empty struct. *)
Theorem make_range_rank_assert (undef : Z) (blocked_layout : TritonGPUBlockedEncodingAttr)
    (shape : list Z) (start threadId : Z) (idxs : list (list Z)) :
  emitIndicesForBlockedLayout blocked_layout shape threadId = Some idxs →
  length shape ≠ 1%nat →
  MakeRangeOpConversion undef blocked_layout shape (IntegerType 32) start threadId
  = if decide (idxs = []) then Some [] else None.
Proof.
  intros Hemit Hrank. unfold MakeRangeOpConversion.
  change (isInteger (IntegerType 32) 32) with true. cbv iota.
  rewrite Hemit. cbn [mbind option_bind].
  destruct (emitIndices_lengths _ _ _ _ Hemit) as [_ Hlen].
  destruct idxs as [|idx idxs].
  - by rewrite decide_True.
  - rewrite decide_False by done.
    apply Forall_cons in Hlen as [Hidx _].
    cbn [mapM]. rewrite decide_False by congruence. done.
Qed.

Lemma make_range_rank_assert_witness :
  MakeRangeOpConversion 0
    {| getSizePerThread := [2; 2]; getThreadsPerWarp := [4; 8]; getWarpsPerCTA := [1; 1];
       getOrder := [0; 1] |} [8; 16] (IntegerType 32) 0 9
  = if decide ([[2; 2]; [2; 3]; [3; 2]; [3; 3]] = []) then Some [] else None.
Proof.
  apply (make_range_rank_assert 0 _ [8; 16] 0 9 [[2; 2]; [2; 3]; [3; 2]; [3; 3]]).
  - reflexivity.
  - simpl. lia.
Defined.

(** ** The offset table *)

Lemma offsetsOfDim_lookup (s S T W j : Z) :
  0 < S → 0 < T → 0 < W → S * T * W < 2 ^ 32 → 0 ≤ s < 2 ^ 32 →
  at_ (offsetsOfDim s S T W) j
  = if decide (0 ≤ j < Z.quot s (S * T * W) * (S * T * W)) then Some j else None.
Proof.
  intros HS HT HW Hfit Hs. rewrite offsetsOfDim_seqZ by lia.
  assert (0 < S * T) by nia.
  assert (S * T ≤ S * T * W) by nia.
  rewrite (u32_small (S * T)), (u32_small (S * T * W)) by lia.
  replace (W * (T * S)) with (S * T * W) by lia.
  set (tile := S * T * W) in *.
  assert (0 ≤ Z.quot s tile * tile ≤ s) as Hq.
  { rewrite Z.quot_div_nonneg by lia.
    pose proof (Z.mul_div_le s tile ltac:(lia)).
    assert (0 ≤ s `div` tile) by (apply Z.div_pos; lia). nia. }
  unfold at_. destruct (decide (0 ≤ j)) as [Hj|Hj].
  - rewrite list_lookup_fmap. destruct (decide (j < Z.quot s tile * tile)) as [Hlt|Hge].
    + rewrite decide_True, lookup_seqZ_lt by lia. simpl.
      rewrite Z2Nat.id, Z.add_0_l by lia. f_equal. apply u32_small. lia.
    + rewrite decide_False, lookup_seqZ_ge by lia. done.
  - by rewrite decide_False by lia.
Qed.

(** X7. The table [offset[k]] filled by the four nested loops is the
    identity on the indices below the number of whole CTA tiles times the
    extent of a tile, and has no other entry. *)
Theorem offset_table_identity (s S T W j : Z) :
  0 < S → 0 < T → 0 < W → S * T * W < 2 ^ 32 → 0 ≤ s < 2 ^ 32 →
  Z.of_nat (length (offsetsOfDim s S T W)) = Z.quot s (S * T * W) * (S * T * W) ∧
  at_ (offsetsOfDim s S T W) j
  = if decide (0 ≤ j < Z.quot s (S * T * W) * (S * T * W)) then Some j else None.
Proof.
  intros HS HT HW Hfit Hs. split; [|by apply offsetsOfDim_lookup].
  rewrite offsetsOfDim_seqZ by lia.
  assert (0 < S * T) by nia.
  assert (S * T ≤ S * T * W) by nia.
  rewrite (u32_small (S * T)), (u32_small (S * T * W)) by lia.
  rewrite length_fmap, length_seqZ.
  assert (0 ≤ Z.quot s (S * T * W)) by (apply Z.quot_pos; lia).
  nia.
Qed.

Lemma offset_table_identity_witness :
  Z.of_nat (length (offsetsOfDim 70 2 4 2)) = Z.quot 70 (2 * 4 * 2) * (2 * 4 * 2) ∧
  at_ (offsetsOfDim 70 2 4 2) 37
  = if decide (0 ≤ 37 < Z.quot 70 (2 * 4 * 2) * (2 * 4 * 2)) then Some 37 else None.
Proof. apply (offset_table_identity 70 2 4 2 37); lia. Defined.

(** ** Run-time delinearization *)

Lemma div_mod_mul_r (l s Q : Z) :
  0 ≤ l → 0 < s → 0 < Q →
  (l `mod` (Q * s)) `div` s = (l `div` s) `mod` Q ∧
  (l `mod` (Q * s)) `mod` s = l `mod` s.
Proof.
  intros Hl Hs HQ. rewrite (Z.mul_comm Q s), Z.rem_mul_r by lia.
  pose proof (Z.mod_pos_bound l s ltac:(lia)).
  pose proof (Z.mod_pos_bound (l `div` s) Q ltac:(lia)).
  split.
  - symmetry. apply (Z.div_unique_pos _ s _ (l `mod` s)); lia.
  - symmetry. apply (Z.mod_unique_pos _ s ((l `div` s) `mod` Q) (l `mod` s)); lia.
Qed.

Lemma getMultiDimIndex_loop_snoc {T : IntType} (a : Z) (tail : list Z) (s l : Z) :
  positive_shape tail → 0 < s → 0 ≤ l →
  getMultiDimIndex_loop (product tail * s) l (a :: tail ++ [s])
  = getMultiDimIndex_loop (product tail) (l `div` s) (a :: tail) ++ [l `mod` s].
Proof.
  intros Hpos Hs. revert a l.
  induction Hpos as [|b t Hb Hpos IH]; intros a l Hl.
  - change (product [] * s) with (1 * s). rewrite Z.mul_1_l.
    change (product []) with 1.
    cbn [app getMultiDimIndex_loop acc_mul_next].
    rewrite Z.quot_same, !Z.quot_1_r by lia.
    by rewrite Z.quot_div_nonneg, Z.rem_mod_nonneg by lia.
  - pose proof (product_pos t Hpos) as HP.
    change ((b :: t) ++ [s]) with (b :: t ++ [s]).
    rewrite (getMultiDimIndex_loop_cons _ l a (b :: t ++ [s])),
      (getMultiDimIndex_loop_cons _ (l `div` s) a (b :: t)).
    cbn [acc_mul_next].
    rewrite product_cons.
    replace (Z.quot (b * product t * s) b) with (product t * s)
      by (rewrite <- Z.mul_assoc, (Z.mul_comm b), Z.quot_mul; lia).
    replace (Z.quot (b * product t) b) with (product t)
      by (rewrite (Z.mul_comm b), Z.quot_mul; lia).
    assert (0 ≤ l `div` s) by (apply Z.div_pos; lia).
    assert (0 < b * product t) by nia.
    rewrite !Z.quot_div_nonneg, !Z.rem_mod_nonneg by nia.
    destruct (div_mod_mul_r l s (b * product t)) as [Hd Hm]; [lia..|].
    rewrite IH by (apply Z.mod_pos_bound; nia).
    rewrite Hd, Hm. simpl. f_equal.
    rewrite Z.div_div by lia. f_equal. lia.
Qed.

Lemma getMultiDimIndex_snoc (a : Z) (tail : list Z) (s l : Z) :
  positive_shape tail → 0 < s → 0 ≤ l → product tail * s < 2 ^ 32 →
  getMultiDimIndex (T := unsigned_int) l (a :: tail ++ [s])
  = getMultiDimIndex (T := unsigned_int) (l `div` s) (a :: tail) ++ [l `mod` s].
Proof.
  intros Hpos Hs Hl Hfit. unfold getMultiDimIndex.
  pose proof (product_pos tail Hpos).
  rewrite !acc_mul_init_product.
  - rewrite product_app. change (product [s]) with (s * 1). rewrite Z.mul_1_r.
    by apply getMultiDimIndex_loop_snoc.
  - done.
  - simpl. nia.
  - apply Forall_app. split; [done|]. by repeat constructor.
  - rewrite product_app. simpl. lia.
Qed.

Lemma seqZ_cons_S (k : Z) (n : nat) :
  seqZ k (Z.of_nat (S n)) = k :: seqZ (k + 1) (Z.of_nat n).
Proof.
  rewrite seqZ_cons by lia. f_equal. f_equal; lia.
Qed.

Lemma set_at_in {A} (v : list A) (i : Z) x :
  0 ≤ i < Z.of_nat (length v) → set_at v i x = Some (<[Z.to_nat i := x]> v).
Proof. intros. unfold set_at. by rewrite decide_True. Qed.

Lemma set_at_out {A} (v : list A) (i : Z) x :
  ¬ 0 ≤ i < Z.of_nat (length v) → set_at v i x = None.
Proof. intros. unfold set_at. by rewrite decide_False. Qed.

(** The loop of [delinearize] on a vector with one more trailing entry. *)
Lemma delinearize_loop_shift (R k remained : Z) (multiDim : list Z) (x : Z)
    (dims : list Z) :
  R = Z.of_nat (length multiDim) → 0 ≤ k →
  foldM (λ '(remained, multiDim) '(index, dimSize),
           multiDim' ← set_at multiDim (R + 1 - 1 - index) (remained `mod` dimSize);
           Some (remained `div` dimSize, multiDim'))
        (remained, multiDim ++ [x])
        (zip (seqZ (k + 1) (Z.of_nat (length dims))) dims)
  = st ← foldM (λ '(remained, multiDim) '(index, dimSize),
                  multiDim' ← set_at multiDim (R - 1 - index) (remained `mod` dimSize);
                  Some (remained `div` dimSize, multiDim'))
               (remained, multiDim)
               (zip (seqZ k (Z.of_nat (length dims))) dims);
    Some (st.1, st.2 ++ [x]).
Proof.
  intros HR Hk. revert k remained multiDim HR Hk.
  induction dims as [|d dims IH]; intros k remained multiDim HR Hk.
  - done.
  - cbn [length]. rewrite !seqZ_cons_S. cbn [zip zip_with foldM].
    replace (R + 1 - 1 - (k + 1)) with (R - 1 - k) by lia.
    destruct (decide (0 ≤ R - 1 - k)) as [Hin|Hout].
    + rewrite (set_at_in (multiDim ++ [x])), (set_at_in multiDim)
        by (rewrite ?length_app; simpl; lia).
      cbn [mbind option_bind].
      rewrite insert_app_l by lia.
      apply IH; [by rewrite length_insert|lia].
    + rewrite (set_at_out (multiDim ++ [x])), (set_at_out multiDim) by lia. done.
Qed.

Lemma delinearize_snoc (s0 : Z) (tail : list Z) (s l : Z) :
  delinearize l (s0 :: tail ++ [s])
  = multiDim ← delinearize (l `div` s) (s0 :: tail); Some (multiDim ++ [l `mod` s]).
Proof.
  destruct tail as [|t tail]; [done|].
  unfold delinearize, enumerate.
  cbn [drop]. rewrite drop_0.
  change (reverse (t :: tail ++ [s])) with (reverse ((t :: tail) ++ [s])).
  rewrite (reverse_snoc (t :: tail) s).
  cbn [length]. rewrite ?length_app, ?length_reverse. cbn [length].
  set (n := length tail).
  replace (S n + 1)%nat with (S (S n)) by lia.
  rewrite (decide_True (P := 0 < Z.of_nat (S (S (S n))))) by lia.
  rewrite (decide_False (P := Z.of_nat (S (S (S n))) = 1)) by lia.
  rewrite (decide_True (P := 0 < Z.of_nat (S (S n)))) by lia.
  rewrite (decide_False (P := Z.of_nat (S (S n)) = 1)) by lia.
  rewrite (seqZ_cons_S 0 (S n)). cbn [zip zip_with foldM].
  replace (replicate (S (S (S n))) 0) with (replicate (S (S n)) 0 ++ [0])
    by (symmetry; apply (replicate_S_end (S (S n)))).
  rewrite set_at_in by (rewrite length_app, length_replicate; simpl; lia).
  rewrite insert_app_r_alt by (rewrite length_replicate; lia).
  replace (Z.to_nat (Z.of_nat (S (S (S n))) - 1 - 0)
           - length (replicate (S (S n)) 0%Z))%nat with 0%nat
    by (rewrite length_replicate; lia).
  cbn [insert list_insert mbind option_bind].
  replace (Z.of_nat (S (S (S n)))) with (Z.of_nat (S (S n)) + 1) by lia.
  replace (Z.of_nat (S n)) with (Z.of_nat (length (reverse (t :: tail))))
    by (rewrite length_reverse; simpl; lia).
  rewrite (delinearize_loop_shift (Z.of_nat (S (S n))) 0)
    by (rewrite ?length_replicate; lia).
  destruct (foldM _ _ _) as [[remained multiDim]|] eqn:Hloop; [|done].
  cbn [mbind option_bind fst snd].
  assert (length multiDim = S (S n)) as Hlen.
  { revert Hloop.
    apply (foldM_inv (λ st : Z * list Z, length st.2 = S (S n))).
    - simpl. by rewrite length_replicate.
    - intros [r md] [i d] [r' md'] Hmd Hstep. simpl in *.
      destruct (set_at md _ _) as [md''|] eqn:Hset; [|done].
      simpl in Hstep. injection Hstep as _ <-.
      unfold set_at in Hset. destruct (decide _); [|done].
      injection Hset as <-. by rewrite length_insert. }
  rewrite (set_at_in (multiDim ++ _)), (set_at_in multiDim)
    by (rewrite ?length_app; simpl; lia).
  cbn [mbind option_bind]. by rewrite insert_app_l by lia.
Qed.

Lemma delinearize_getMultiDimIndex_cons (s0 : Z) (tail : list Z) (l : Z) :
  positive_shape tail → product tail < 2 ^ 32 → 0 ≤ l →
  delinearize l (s0 :: tail)
  = Some (getMultiDimIndex (T := unsigned_int) l (s0 :: tail)).
Proof.
  revert l. induction tail as [|s tail IH] using rev_ind; intros l Hpos Hfit Hl.
  - unfold getMultiDimIndex, acc_mul_init. cbn [tail foldl getMultiDimIndex_loop].
    by rewrite Z.quot_1_r.
  - apply Forall_app in Hpos as [Hpos Hs]. rewrite Forall_singleton in Hs.
    simpl in Hs.
    pose proof (product_pos tail Hpos).
    rewrite product_app in Hfit. change (product [s]) with (s * 1) in Hfit.
    rewrite Z.mul_1_r in Hfit.
    assert (product tail ≤ product tail * s) by nia.
    assert (0 ≤ l `div` s) by (apply Z.div_pos; lia).
    rewrite delinearize_snoc, IH by (done || lia).
    cbn [mbind option_bind]. by rewrite getMultiDimIndex_snoc by (done || lia).
Qed.

Lemma mapM_at_seqZ_gen {A B} (f : A → option B) (pre l : list A) :
  mapM (λ i, x ← at_ (pre ++ l) i; f x)
       (seqZ (Z.of_nat (length pre)) (Z.of_nat (length l)))
  = mapM f l.
Proof.
  revert pre. induction l as [|x l IH]; intros pre; [done|].
  cbn [length]. rewrite seqZ_cons_S. cbn [mapM].
  rewrite at_lookup, lookup_app_r, Nat.sub_diag by lia. cbn [lookup list_lookup].
  cbn [mbind option_bind]. destruct (f x) as [y|]; [|done]. cbn [mbind option_bind].
  replace (Z.of_nat (length pre) + 1) with (Z.of_nat (length (pre ++ [x])))
    by (rewrite length_app; simpl; lia).
  replace (pre ++ x :: l) with ((pre ++ [x]) ++ l) by by rewrite <- app_assoc.
  by rewrite IH.
Qed.

Lemma mapM_at_seqZ {A B} (f : A → option B) (l : list A) :
  mapM (λ i, x ← at_ l i; f x) (seqZ 0 (Z.of_nat (length l))) = mapM f l.
Proof. apply (mapM_at_seqZ_gen f [] l). Qed.

(** X8. The run-time delinearization of a 32-bit value over a shape with
    positive extents yields the coordinates that the compile-time
    [getMultiDimIndex] yields, and [getLinearIndex] maps them back to the
    value; the leading extent plays no part. *)
Theorem delinearize_row_major (linear : Z) (shape : list Z) :
  shape ≠ [] → positive_shape (tail shape) → product (tail shape) < 2 ^ 32 →
  0 ≤ linear < 2 ^ 32 →
  ∃ multiDim,
    delinearize linear shape = Some multiDim ∧
    multiDim = getMultiDimIndex (T := unsigned_int) linear shape ∧
    getLinearIndex (T := unsigned_int) multiDim shape = Some linear.
Proof.
  intros Hne Hpos Hfit Hl. destruct shape as [|s0 rest]; [done|].
  cbn [tail] in *. eexists. split_and!.
  - apply delinearize_getMultiDimIndex_cons; (done || lia).
  - done.
  - apply getLinearIndex_getMultiDimIndex; cbn [tail]; try done.
    + simpl. lia.
    + simpl. lia.
Qed.

Lemma delinearize_row_major_witness :
  ∃ multiDim,
    delinearize 23 [2; 3; 4] = Some multiDim ∧
    multiDim = getMultiDimIndex (T := unsigned_int) 23 [2; 3; 4] ∧
    getLinearIndex (T := unsigned_int) multiDim [2; 3; 4] = Some 23.
Proof.
  apply (delinearize_row_major 23 [2; 3; 4]).
  - done.
  - repeat constructor.
  - simpl. lia.
  - lia.
Defined.

(** X9. Delinearization with an order delinearizes over the shape permuted
    by the order and leaves the coordinates in the permuted positions:
    coordinate [i] of the result ranges over [shape[order[i]]]. *)
Theorem delinearize_order_permuted (linear : Z) (shape order reordered : list Z) :
  shape ≠ [] → length shape = length order →
  mapM (at_ shape) order = Some reordered →
  positive_shape reordered → product reordered < 2 ^ 32 →
  0 ≤ linear < product reordered →
  ∃ multiDim,
    delinearize_order linear shape order = Some multiDim ∧
    multiDim = getMultiDimIndex (T := unsigned_int) linear reordered ∧
    valid_index multiDim reordered ∧
    rowMajor multiDim reordered = linear.
Proof.
  intros Hne Hlen Hre Hpos Hfit Hl. unfold delinearize_order.
  rewrite decide_True by done. rewrite Hlen, mapM_at_seqZ, Hre.
  cbn [mbind option_bind].
  pose proof (product_pos _ Hpos) as HP.
  pose proof (Forall2_length _ _ _ (mapM_Some_1 _ _ _ Hre)) as Hlen'.
  destruct reordered as [|s0 rest].
  { destruct shape; [done|]. simpl in *. lia. }
  apply Forall_cons in Hpos as [Hs0 Hrest].
  pose proof (product_pos _ Hrest) as HPr.
  rewrite product_cons in *.
  eexists. split_and!.
  - apply delinearize_getMultiDimIndex_cons; [done|nia|lia].
  - done.
  - apply getMultiDimIndex_valid.
    + by constructor.
    + rewrite product_cons. simpl. lia.
    + by rewrite product_cons.
  - apply rowMajor_getMultiDimIndex.
    + by constructor.
    + rewrite product_cons. simpl. lia.
    + by rewrite product_cons.
Qed.

Lemma delinearize_order_permuted_witness :
  ∃ multiDim,
    delinearize_order 20 [4; 8] [1; 0] = Some multiDim ∧
    multiDim = getMultiDimIndex (T := unsigned_int) 20 [8; 4] ∧
    valid_index multiDim [8; 4] ∧
    rowMajor multiDim [8; 4] = 20.
Proof.
  apply (delinearize_order_permuted 20 [4; 8] [1; 0] [8; 4]).
  - done.
  - reflexivity.
  - reflexivity.
  - repeat constructor.
  - simpl. lia.
  - simpl. lia.
Defined.

(** ** Index algebra beyond the tensor *)

(** X10. [getMultiDimIndex] never reads the leading extent and does not
    reject a linear index beyond the tensor: coordinate 0 is the quotient by
    the product of the remaining extents, whatever its size, and
    [getLinearIndex] still maps the coordinates back to the linear index. *)
Theorem getMultiDimIndex_leading_extent {T : IntType} {HT : IntTypeLaws T}
    (linear s0 s0' : Z) (rest : list Z) :
  positive_shape rest → product rest ≤ tmax → 0 ≤ linear ≤ tmax →
  getMultiDimIndex linear (s0 :: rest) = getMultiDimIndex linear (s0' :: rest) ∧
  getMultiDimIndex linear (s0 :: rest) !! 0%nat = Some (linear `div` product rest) ∧
  getLinearIndex (getMultiDimIndex linear (s0 :: rest)) (s0 :: rest) = Some linear.
Proof.
  intros Hpos Hfit Hl. pose proof (product_pos rest Hpos) as HP. split_and!.
  - done.
  - unfold getMultiDimIndex. rewrite acc_mul_init_product by done.
    rewrite getMultiDimIndex_loop_cons. cbn [lookup list_lookup].
    by rewrite Z.quot_div_nonneg by lia.
  - by apply getLinearIndex_getMultiDimIndex.
Qed.

Lemma getMultiDimIndex_leading_extent_witness :
  getMultiDimIndex (T := int64_t) 100 [2; 3; 4]
  = getMultiDimIndex (T := int64_t) 100 [7; 3; 4] ∧
  getMultiDimIndex (T := int64_t) 100 [2; 3; 4] !! 0%nat
  = Some (100 `div` product [3; 4]) ∧
  getLinearIndex (T := int64_t) (getMultiDimIndex (T := int64_t) 100 [2; 3; 4])
    [2; 3; 4] = Some 100.
Proof.
  apply (getMultiDimIndex_leading_extent (T := int64_t) 100 2 7 [3; 4]).
  - repeat constructor.
  - simpl. lia.
  - simpl. lia.
Defined.

(** ** Broadcast: rejected shapes *)

(** X11. The broadcast rule aborts on its assertion whenever some extent of
    the source differs from the extent of the result and is not 1, whatever
    the layout and the source struct. *)
Theorem broadcast_rejects_incompatible {V} (undef : V)
    (layout : TritonGPUBlockedEncodingAttr) (srcShape resultShape : list Z)
    (src : list V) (d : nat) (s r : Z) :
  srcShape !! d = Some s → resultShape !! d = Some r → s ≠ r → s ≠ 1 →
  BroadcastOpConversion undef layout srcShape resultShape src = None.
Proof.
  intros Hs Hr Hsr Hs1. unfold BroadcastOpConversion.
  destruct (decide (length srcShape = length resultShape)); [|done].
  assert (broadcastShapes layout srcShape resultShape = None) as ->; [|done].
  unfold broadcastShapes. apply (foldM_None_at _ _ _ (Z.of_nat d)).
  - apply elem_of_seqZ. apply lookup_lt_Some in Hs. lia.
  - intros st. unfold broadcastShapesStep. rewrite !at_lookup, Hr, Hs.
    cbn [mbind option_bind].
    destruct (getSizePerThread layout !! d); [|done]. cbn [mbind option_bind].
    destruct (getThreadsPerWarp layout !! d); [|done]. cbn [mbind option_bind].
    destruct (getWarpsPerCTA layout !! d); [|done]. cbn [mbind option_bind].
    by rewrite decide_True, decide_False by done.
Qed.

Lemma broadcast_rejects_incompatible_witness :
  BroadcastOpConversion 0
    {| getSizePerThread := [1; 1]; getThreadsPerWarp := [4; 1]; getWarpsPerCTA := [1; 1];
       getOrder := [0; 1] |} [4; 2] [4; 6] [7; 8] = None.
Proof.
  apply (broadcast_rejects_incompatible 0 _ [4; 2] [4; 6] [7; 8] 1 2 6); done.
Defined.

(** ** The load rule *)

Lemma mapM_ext_in {A B} (f g : A → option B) (l : list A) :
  (∀ x, x ∈ l → f x = g x) → mapM f l = mapM g l.
Proof.
  induction l as [|x l IH]; intros Hfg; [done|]. cbn [mapM].
  rewrite Hfg by left. rewrite IH; [done|]. intros. apply Hfg. by right.
Qed.

Lemma mapM_at_offset {A} (l : list A) (a n : Z) :
  0 ≤ a → 0 ≤ n → a + n ≤ Z.of_nat (length l) →
  mapM (λ s, at_ l (a + s)) (seqZ 0 n)
  = Some (take (Z.to_nat n) (drop (Z.to_nat a) l)).
Proof.
  intros Ha Hn Hlen.
  rewrite <- (getElementsFromStruct_take (drop (Z.to_nat a) l) n)
    by (rewrite length_drop; lia).
  unfold getElementsFromStruct. apply mapM_ext_in. intros s Hs.
  apply elem_of_seqZ in Hs. unfold at_. rewrite !decide_True by lia.
  rewrite lookup_drop. f_equal. lia.
Qed.

Lemma mapM_at_offset_None {A} (l : list A) (a n : Z) :
  0 ≤ a → 0 < n → Z.of_nat (length l) < a + n →
  mapM (λ s, at_ l (a + s)) (seqZ 0 n) = None.
Proof.
  intros Ha Hn Hlen. apply mapM_None_2, Exists_exists. exists (n - 1). split.
  - apply elem_of_seqZ. lia.
  - unfold at_. rewrite decide_True by lia. apply lookup_ge_None_2. lia.
Qed.

Lemma concat_chunks {A} (l : list A) (i size : Z) (n : nat) :
  0 ≤ i → 0 ≤ size →
  concat ((λ ii, take (Z.to_nat size) (drop (Z.to_nat (i + ii * size)) l))
          <$> seqZ 0 (Z.of_nat n))
  = take (Z.to_nat (Z.of_nat n * size)) (drop (Z.to_nat i) l).
Proof.
  intros Hi Hsize. induction n as [|n IH].
  - by rewrite Z.mul_0_l.
  - rewrite seqZ_0_S, fmap_app, concat_app, IH. cbn [fmap list_fmap concat].
    rewrite app_nil_r.
    replace (Z.to_nat (i + Z.of_nat n * size))
      with (Z.to_nat i + Z.to_nat (Z.of_nat n * size))%nat by lia.
    rewrite <- drop_drop, take_take_drop. f_equal. lia.
Qed.

Section LoadFacts.
Context {P M V : Type} (undef : V) (inlineAsm : M → P → list (list V)).
Context (nbits vecWidth : Z).
Context (Hnbits : 0 < nbits) (HvecWidth : 0 < vecWidth).
Context (Hfit : nbits * vecWidth < 2 ^ 31).
Context (Hexact : n_words nbits vecWidth * (width nbits vecWidth `div` nbits)
                  = vecWidth).

Lemma load_size_facts :
  Z.quot (u32 (width nbits vecWidth)) nbits = width nbits vecWidth `div` nbits ∧
  0 < width nbits vecWidth `div` nbits ∧ 0 < n_words nbits vecWidth.
Proof using Hnbits HvecWidth Hfit Hexact.
  destruct (widths_exact nbits vecWidth) as (_ & _ & Hw); [done..|].
  assert (0 ≤ width nbits vecWidth `div` nbits) by (apply Z.div_pos; lia).
  assert (1 ≤ n_words nbits vecWidth) by (unfold n_words; lia).
  split_and!.
  - rewrite u32_small by lia. apply Z.quot_div_nonneg; lia.
  - nia.
  - lia.
Qed.

Lemma othersOfGroup_in_range (otherVals : list V) (i : Z) :
  0 ≤ i → i + vecWidth ≤ Z.of_nat (length otherVals) →
  ∃ words,
    othersOfGroup nbits vecWidth otherVals i = Some words ∧
    Z.of_nat (length words) = n_words nbits vecWidth ∧
    Forall (λ word, Z.of_nat (length word) = width nbits vecWidth `div` nbits) words ∧
    concat words = take (Z.to_nat vecWidth) (drop (Z.to_nat i) otherVals).
Proof using Hnbits HvecWidth Hfit Hexact.
  intros Hi Hlen. destruct load_size_facts as (Hsize & Hspos & Hnpos).
  unfold othersOfGroup. rewrite Hsize.
  set (size := width nbits vecWidth `div` nbits) in *.
  set (n := n_words nbits vecWidth) in *.
  exists ((λ ii, take (Z.to_nat size) (drop (Z.to_nat (i + ii * size)) otherVals))
          <$> seqZ 0 n).
  split_and!.
  - apply mapM_Some_2, Forall2_fmap_r, Forall_Forall2_diag, Forall_forall.
    intros ii Hii. apply elem_of_seqZ in Hii.
    apply mapM_at_offset; nia.
  - rewrite length_fmap, length_seqZ. lia.
  - apply Forall_fmap, Forall_forall. intros ii Hii. apply elem_of_seqZ in Hii.
    simpl. rewrite length_take, length_drop. nia.
  - rewrite <- (Z2Nat.id n) by lia. rewrite concat_chunks by lia.
    rewrite Z2Nat.id by lia. by rewrite Hexact.
Qed.

Lemma othersOfGroup_out_of_range (otherVals : list V) (i : Z) :
  0 ≤ i → Z.of_nat (length otherVals) < i + vecWidth →
  othersOfGroup nbits vecWidth otherVals i = None.
Proof using Hnbits HvecWidth Hfit Hexact.
  intros Hi Hlen. destruct load_size_facts as (Hsize & Hspos & Hnpos).
  unfold othersOfGroup. rewrite Hsize.
  set (size := width nbits vecWidth `div` nbits) in *.
  set (n := n_words nbits vecWidth) in *.
  apply mapM_None_2, Exists_exists. exists (n - 1). split.
  - apply elem_of_seqZ. lia.
  - apply mapM_at_offset_None; nia.
Qed.

End LoadFacts.

(** X12. The fallback words built for the group that starts at element [i]
    are [n_words] words of [width / nbits] elements which hold, in order, the
    fallback values [i .. i + vecWidth) of the thread; when these do not all
    exist the subscript aborts. *)
Theorem load_fallback_words {V} (nbits vecWidth : Z) (otherVals : list V) (i : Z) :
  0 < nbits → 0 < vecWidth → nbits * vecWidth < 2 ^ 31 →
  n_words nbits vecWidth * (width nbits vecWidth `div` nbits) = vecWidth →
  0 ≤ i →
  (i + vecWidth ≤ Z.of_nat (length otherVals) →
   ∃ words,
     othersOfGroup nbits vecWidth otherVals i = Some words ∧
     Z.of_nat (length words) = n_words nbits vecWidth ∧
     Forall (λ word, Z.of_nat (length word) = width nbits vecWidth `div` nbits) words ∧
     concat words = take (Z.to_nat vecWidth) (drop (Z.to_nat i) otherVals)) ∧
  (Z.of_nat (length otherVals) < i + vecWidth →
   othersOfGroup nbits vecWidth otherVals i = None).
Proof.
  intros Hnbits Hvec Hfit Hexact Hi. split.
  - by apply othersOfGroup_in_range.
  - by apply othersOfGroup_out_of_range.
Qed.

Lemma load_fallback_words_witness :
  (4 + 4 ≤ Z.of_nat (length [0; 1; 2; 3; 4; 5; 6; 7]) →
   ∃ words,
     othersOfGroup 16 4 [0; 1; 2; 3; 4; 5; 6; 7] 4 = Some words ∧
     Z.of_nat (length words) = n_words 16 4 ∧
     Forall (λ word, Z.of_nat (length word) = width 16 4 `div` 16) words ∧
     concat words = take (Z.to_nat 4) (drop (Z.to_nat 4) [0; 1; 2; 3; 4; 5; 6; 7])) ∧
  (Z.of_nat (length [0; 1; 2; 3; 4; 5; 6; 7]) < 4 + 4 →
   othersOfGroup 16 4 [0; 1; 2; 3; 4; 5; 6; 7] 4 = None).
Proof.
  apply (load_fallback_words 16 4 [0; 1; 2; 3; 4; 5; 6; 7] 4); try lia.
  reflexivity.
Defined.

Lemma groupStarts_multiple (G vecWidth : Z) :
  0 ≤ G → 0 < vecWidth →
  groupStarts (G * vecWidth) vecWidth = (λ g, g * vecWidth) <$> seqZ 0 G.
Proof.
  intros HG Hv. unfold groupStarts. do 2 f_equal.
  symmetry. apply (Z.div_unique_pos _ vecWidth G (vecWidth - 1)); lia.
Qed.

Lemma nat_div_mod_add (g e v : nat) :
  (e < v)%nat → ((g * v + e) `div` v = g)%nat ∧ ((g * v + e) `mod` v = e)%nat.
Proof.
  intros He. split.
  - symmetry. apply (Nat.div_unique _ v g e); lia.
  - symmetry. apply (Nat.mod_unique _ v g e); lia.
Qed.

Section LoadOpFacts.
Context {P M V : Type} (undef : V) (inlineAsm : M → P → list (list V)).
Context (nbits vecWidth : Z).
Context (Hnbits : 0 < nbits) (HvecWidth : 0 < vecWidth).
Context (Hfit : nbits * vecWidth < 2 ^ 31).
Context (Hexact : n_words nbits vecWidth * (width nbits vecWidth `div` nbits)
                  = vecWidth).
Context (Hasm : ∀ pred ptr,
           Z.of_nat (length (inlineAsm pred ptr)) = n_words nbits vecWidth ∧
           Forall (λ word, Z.of_nat (length word) = width nbits vecWidth `div` nbits)
                  (inlineAsm pred ptr)).

Lemma length_loaded pred ptr :
  Z.of_nat (length (concat (inlineAsm pred ptr))) = vecWidth.
Proof using Hnbits HvecWidth Hfit Hexact Hasm.
  destruct (Hasm pred ptr) as [Hn Hwords].
  destruct (load_size_facts nbits vecWidth) as (_ & Hspos & _); [done..|].
  rewrite (length_concat_uniform _ (Z.to_nat (width nbits vecWidth `div` nbits))).
  - nia.
  - eapply Forall_impl; [exact Hwords|]. simpl. intros. lia.
Qed.

Lemma loadGroup_in_range (ptrVals : list P) (maskVals : list M) (otherVals : list V)
    (i : Z) ptr pred :
  0 ≤ i → i + vecWidth ≤ Z.of_nat (length otherVals) →
  at_ ptrVals i = Some ptr → at_ maskVals i = Some pred →
  loadGroup inlineAsm nbits vecWidth ptrVals maskVals otherVals i
  = Some (concat (inlineAsm pred ptr)).
Proof using Hnbits HvecWidth Hfit Hexact Hasm.
  intros Hi Hlen Hptr Hpred. unfold loadGroup. rewrite Hptr, Hpred.
  cbn [mbind option_bind].
  destruct (othersOfGroup_in_range nbits vecWidth Hnbits HvecWidth Hfit Hexact
              otherVals i Hi Hlen) as (words & -> & _).
  cbn [mbind option_bind].
  destruct (Hasm pred ptr) as [Hn Hwords].
  apply extractLoaded_concat; try done. by rewrite Hn.
Qed.

Lemma loadGroup_out_of_range (ptrVals : list P) (maskVals : list M)
    (otherVals : list V) (i : Z) :
  0 ≤ i → Z.of_nat (length otherVals) < i + vecWidth →
  loadGroup inlineAsm nbits vecWidth ptrVals maskVals otherVals i = None.
Proof using Hnbits HvecWidth Hfit Hexact.
  intros Hi Hlen. unfold loadGroup.
  destruct (at_ ptrVals i); [|done]. cbn [mbind option_bind].
  destruct (at_ maskVals i); [|done]. cbn [mbind option_bind].
  by rewrite (othersOfGroup_out_of_range nbits vecWidth).
Qed.

End LoadOpFacts.

(** C5. The load rule works with [vecWidth = sizePerThread[order[0]]] of the
    blocked layout of the result: the elements of the thread are loaded in
    groups of [vecWidth], group [g] by one predicated load whose operands are
    the mask and the pointer of element [g * vecWidth].  For element and
    vector widths whose product fits [int], the hardware word has
    [width = min(max(32, nbits), nbits * vecWidth)] bits, and every load
    requests [n_words = max(1, nbits * vecWidth / width)] words of that width.
    When these words hold [vecWidth] elements in all and [vecWidth] divides
    the element count, the rule succeeds, and the results of group [g] are
    the elements of the words that its load returns, word after word, the
    groups following each other in their order.  For 16-bit elements and
    [vecWidth = 4]: words of 32 bits, 2 words per load, and the 4 results
    of a group are the 2 elements of word 0 followed by the 2 elements of
    word 1. *)
Theorem load_vector_width {P M V} (undef : V) (inlineAsm : M → P → list (list V))
    (blockedLayout : TritonGPUBlockedEncodingAttr) (shape : list Z)
    (elemTy : ElementType) (ptr : list P) (mask : list M) (other : list V)
    (o nbits vecWidth numElems : Z) :
  at_ (getOrder blockedLayout) 0 = Some o →
  at_ (getSizePerThread blockedLayout) o = Some vecWidth →
  getElemsPerThread blockedLayout shape = Some numElems →
  nbitsOf elemTy = Some nbits →
  0 < nbits → 0 < vecWidth → nbits * vecWidth < 2 ^ 31 →
  let W := Z.min (Z.max 32 nbits) (nbits * vecWidth) in
  let N := Z.max 1 ((nbits * vecWidth) `div` W) in
  N * (W `div` nbits) = vecWidth →
  numElems `mod` vecWidth = 0 →
  numElems ≤ Z.of_nat (length ptr) → numElems ≤ Z.of_nat (length mask) →
  numElems ≤ Z.of_nat (length other) →
  (∀ pred p,
     Z.of_nat (length (inlineAsm pred p)) = N ∧
     Forall (λ word, Z.of_nat (length word) = W `div` nbits) (inlineAsm pred p)) →
  width nbits vecWidth = W ∧
  n_words nbits vecWidth = N ∧
  retTys nbits vecWidth = replicate (Z.to_nat N) W ∧
  (∃ groups,
     LoadOpConversion undef inlineAsm blockedLayout shape elemTy ptr mask other
     = Some (concat groups) ∧
     Z.of_nat (length groups) * vecWidth = numElems ∧
     ∀ (g : nat) grp, groups !! g = Some grp →
       Z.of_nat (length grp) = vecWidth ∧
       ∃ p m, ptr !! Z.to_nat (Z.of_nat g * vecWidth) = Some p ∧
              mask !! Z.to_nat (Z.of_nat g * vecWidth) = Some m ∧
              grp = concat (inlineAsm m p)) ∧
  (width 16 4 = 32 ∧ retTys 16 4 = [32; 32] ∧
   ∀ (f : Z → M → P → V) p0 p1 p2 p3 p4 p5 p6 p7 m0 m1 m2 m3 m4 m5 m6 m7
     v0 v1 v2 v3 v4 v5 v6 v7,
     LoadOpConversion undef
       (λ m p, [[f 0 m p; f 1 m p]; [f 2 m p; f 3 m p]])
       {| getSizePerThread := [4]; getThreadsPerWarp := [32];
          getWarpsPerCTA := [1]; getOrder := [0] |}
       [256] (IntegerType 16)
       [p0; p1; p2; p3; p4; p5; p6; p7] [m0; m1; m2; m3; m4; m5; m6; m7]
       [v0; v1; v2; v3; v4; v5; v6; v7]
     = Some [f 0 m0 p0; f 1 m0 p0; f 2 m0 p0; f 3 m0 p0;
             f 0 m4 p4; f 1 m4 p4; f 2 m4 p4; f 3 m4 p4]).
Proof.
  intros Ho Hspt Helems Hbits Hnbits Hvec Hfit W N Hexact Hdiv
         Hptr Hmask Hother Hasm.
  destruct (widths_exact nbits vecWidth) as (Htot & Hmax & Hwidth); [done..|].
  assert (width nbits vecWidth = W) as HW.
  { unfold width, W. rewrite Htot, Hmax. lia. }
  assert (n_words nbits vecWidth = N) as HN.
  { unfold n_words, N. rewrite Htot, Z.quot_div_nonneg by nia. by rewrite HW. }
  assert (vecWidthOf blockedLayout = Some vecWidth) as HvecW.
  { unfold vecWidthOf. by rewrite Ho. }
  clearbody W N. subst W N.
  split; [done|]. split; [done|]. split; [done|]. split.
  2:{ split; [reflexivity|]. split; [reflexivity|]. intros. reflexivity. }
  pose proof (getElemsPerThread_range _ _ _ Helems) as Hrange.
  destruct (load_size_facts nbits vecWidth) as (_ & Hspos & _); [done..|].
  set (G := numElems `div` vecWidth).
  assert (numElems = G * vecWidth) as HG.
  { pose proof (Z.div_mod numElems vecWidth ltac:(lia)). unfold G. lia. }
  assert (0 ≤ G) as HGpos by (apply Z.div_pos; lia).
  unfold LoadOpConversion. rewrite HvecW, Helems. cbn [mbind option_bind].
  rewrite !getElementsFromStruct_take by lia. cbn [mbind option_bind].
  rewrite Hbits. cbn [mbind option_bind].
  rewrite decide_True by lia.
  set (ptrVals := take (Z.to_nat numElems) ptr).
  set (maskVals := take (Z.to_nat numElems) mask).
  set (otherVals := take (Z.to_nat numElems) other).
  assert (Z.of_nat (length otherVals) = numElems) as Hlo
    by (unfold otherVals; rewrite length_take; lia).
  pose proof (groupStarts_multiple G vecWidth HGpos Hvec) as Hgs.
  rewrite <- HG in Hgs. rewrite Hgs.
  (* every group is loaded with the operands of its first element *)
  set (loaded := λ g : Z,
         p ← ptr !! Z.to_nat (g * vecWidth);
         m ← mask !! Z.to_nat (g * vecWidth);
         Some (concat (inlineAsm m p))).
  assert (∀ g, g ∈ seqZ 0 G →
            loadGroup inlineAsm nbits vecWidth ptrVals maskVals otherVals
              (g * vecWidth) = loaded g ∧ is_Some (loaded g)) as Hgroup.
  { intros g Hg. apply elem_of_seqZ in Hg. unfold loaded.
    destruct (lookup_lt_is_Some_2 ptr (Z.to_nat (g * vecWidth))) as [p Hp]; [nia|].
    destruct (lookup_lt_is_Some_2 mask (Z.to_nat (g * vecWidth))) as [m Hm]; [nia|].
    rewrite Hp, Hm. cbn [mbind option_bind]. split; [|done].
    apply (loadGroup_in_range inlineAsm nbits vecWidth); try done; try nia.
    - unfold at_, ptrVals. rewrite decide_True by nia.
      rewrite lookup_take_lt by nia. done.
    - unfold at_, maskVals. rewrite decide_True by nia.
      rewrite lookup_take_lt by nia. done. }
  destruct (mapM (loadGroup inlineAsm nbits vecWidth ptrVals maskVals otherVals)
              ((λ g, g * vecWidth) <$> seqZ 0 G)) as [groups|] eqn:Hgroups.
  2:{ apply mapM_None_1, Exists_exists in Hgroups as (i & Hi & Hnone).
      apply list_elem_of_fmap in Hi as (g & -> & Hg).
      destruct (Hgroup g Hg) as [Heq [grp Hsome]]. congruence. }
  apply mapM_Some_1 in Hgroups.
  pose proof (Forall2_length _ _ _ Hgroups) as Hlg.
  rewrite length_fmap, length_seqZ in Hlg.
  assert (∀ (g : nat) grp, groups !! g = Some grp →
            Z.of_nat (length grp) = vecWidth ∧
            ∃ p m, ptr !! Z.to_nat (Z.of_nat g * vecWidth) = Some p ∧
                   mask !! Z.to_nat (Z.of_nat g * vecWidth) = Some m ∧
                   grp = concat (inlineAsm m p)) as Hgrp.
  { intros g grp Hg.
    destruct (Forall2_lookup_r _ _ _ _ _ Hgroups Hg) as (i & Hi & Hload).
    rewrite list_lookup_fmap in Hi.
    destruct (seqZ 0 G !! g) as [g'|] eqn:Hg'; [|done].
    pose proof Hg' as Hin. apply list_elem_of_lookup_2 in Hin.
    apply lookup_seqZ in Hg' as [-> Hlt]. simpl in Hi. injection Hi as <-.
    rewrite Z.add_0_l in Hload, Hin.
    destruct (Hgroup _ Hin) as [Heq _]. rewrite Heq in Hload. unfold loaded in Hload.
    destruct (ptr !! Z.to_nat (Z.of_nat g * vecWidth)) as [p|]; [|done].
    destruct (mask !! Z.to_nat (Z.of_nat g * vecWidth)) as [m|]; [|done].
    cbn [mbind option_bind] in Hload. injection Hload as <-.
    split; [|by exists p, m].
    pose proof (length_loaded inlineAsm nbits vecWidth Hnbits Hvec Hfit Hexact
                  Hasm m p). lia. }
  assert (Forall (λ grp, length grp = Z.to_nat vecWidth) groups) as Huniform.
  { apply Forall_forall. intros grp Hin.
    apply list_elem_of_lookup in Hin as [g Hg].
    destruct (Hgrp g grp Hg) as [Hl _]. lia. }
  pose proof (length_concat_uniform groups _ Huniform) as Hlc.
  cbn [mbind option_bind].
  replace (Z.to_nat numElems) with (length (concat groups)) by nia.
  rewrite getStructFromElements_exact.
  exists groups. split_and!; [done|nia|done].
Qed.

Lemma load_vector_width_witness :
  let layout := {| getSizePerThread := [1; 4]; getThreadsPerWarp := [4; 8];
                   getWarpsPerCTA := [1; 1]; getOrder := [1; 0] |} in
  let inlineAsm := λ (m : bool) (p : Z), [[p; p + 1]; [p + 2; p + 3]] in
  let ptr := [0; 10; 20; 30; 40; 50; 60; 70] in
  let mask := [true; false; true; false; true; false; true; false] in
  let other := [0; 0; 0; 0; 0; 0; 0; 0] in
  width 16 4 = 32 ∧
  n_words 16 4 = 2 ∧
  retTys 16 4 = replicate (Z.to_nat 2) 32 ∧
  (∃ groups,
     LoadOpConversion 0 inlineAsm layout [8; 32] (IntegerType 16) ptr mask other
     = Some (concat groups) ∧
     Z.of_nat (length groups) * 4 = 8 ∧
     ∀ (g : nat) grp, groups !! g = Some grp →
       Z.of_nat (length grp) = 4 ∧
       ∃ p m, ptr !! Z.to_nat (Z.of_nat g * 4) = Some p ∧
              mask !! Z.to_nat (Z.of_nat g * 4) = Some m ∧
              grp = concat (inlineAsm m p)) ∧
  (width 16 4 = 32 ∧ retTys 16 4 = [32; 32] ∧
   ∀ (f : Z → bool → Z → Z) p0 p1 p2 p3 p4 p5 p6 p7 m0 m1 m2 m3 m4 m5 m6 m7
     v0 v1 v2 v3 v4 v5 v6 v7,
     LoadOpConversion 0
       (λ m p, [[f 0 m p; f 1 m p]; [f 2 m p; f 3 m p]])
       {| getSizePerThread := [4]; getThreadsPerWarp := [32];
          getWarpsPerCTA := [1]; getOrder := [0] |}
       [256] (IntegerType 16)
       [p0; p1; p2; p3; p4; p5; p6; p7] [m0; m1; m2; m3; m4; m5; m6; m7]
       [v0; v1; v2; v3; v4; v5; v6; v7]
     = Some [f 0 m0 p0; f 1 m0 p0; f 2 m0 p0; f 3 m0 p0;
             f 0 m4 p4; f 1 m4 p4; f 2 m4 p4; f 3 m4 p4]).
Proof.
  intros layout inlineAsm ptr mask other.
  apply (load_vector_width 0 inlineAsm layout [8; 32] (IntegerType 16)
           ptr mask other 1 16 4 8);
    try reflexivity; try (simpl; lia).
  intros pred p. split; [reflexivity|]. by repeat constructor.
Defined.

(** X13. When the vector width divides the element count of the thread, the
    load rule succeeds with one result per element, group by group: result
    [g * vecWidth + e] is element [e mod (width / nbits)] of word
    [e / (width / nbits)] returned by the load whose operands are the mask
    and the pointer of the first element of group [g].  The masks and the
    pointers of the other elements of a group are not used. *)
Theorem load_groups {P M V} (undef : V) (inlineAsm : M → P → list (list V))
    (blockedLayout : TritonGPUBlockedEncodingAttr) (shape : list Z)
    (elemTy : ElementType) (ptr : list P) (mask : list M) (other : list V)
    (nbits vecWidth numElems : Z) :
  vecWidthOf blockedLayout = Some vecWidth →
  getElemsPerThread blockedLayout shape = Some numElems →
  nbitsOf elemTy = Some nbits →
  0 < nbits → 0 < vecWidth → nbits * vecWidth < 2 ^ 31 →
  n_words nbits vecWidth * (width nbits vecWidth `div` nbits) = vecWidth →
  numElems `mod` vecWidth = 0 →
  numElems ≤ Z.of_nat (length ptr) → numElems ≤ Z.of_nat (length mask) →
  numElems ≤ Z.of_nat (length other) →
  (∀ pred p,
     Z.of_nat (length (inlineAsm pred p)) = n_words nbits vecWidth ∧
     Forall (λ word, Z.of_nat (length word) = width nbits vecWidth `div` nbits)
            (inlineAsm pred p)) →
  ∃ result,
    LoadOpConversion undef inlineAsm blockedLayout shape elemTy ptr mask other
    = Some result ∧
    Z.of_nat (length result) = numElems ∧
    ∀ g e, 0 ≤ g → (g + 1) * vecWidth ≤ numElems → 0 ≤ e < vecWidth →
      ∃ p m word v,
        ptr !! Z.to_nat (g * vecWidth) = Some p ∧
        mask !! Z.to_nat (g * vecWidth) = Some m ∧
        inlineAsm m p !! Z.to_nat (e `div` (width nbits vecWidth `div` nbits))
        = Some word ∧
        word !! Z.to_nat (e `mod` (width nbits vecWidth `div` nbits)) = Some v ∧
        result !! Z.to_nat (g * vecWidth + e) = Some v.
Proof.
  intros HvecW Helems Hbits Hnbits Hvec Hfit Hexact Hdiv Hptr Hmask Hother Hasm.
  pose proof (getElemsPerThread_range _ _ _ Helems) as Hrange.
  destruct (load_size_facts nbits vecWidth) as (_ & Hspos & _); [done..|].
  set (size := width nbits vecWidth `div` nbits) in *.
  set (G := numElems `div` vecWidth).
  assert (numElems = G * vecWidth) as HG.
  { pose proof (Z.div_mod numElems vecWidth ltac:(lia)). unfold G. lia. }
  assert (0 ≤ G) as HGpos by (apply Z.div_pos; lia).
  unfold LoadOpConversion. rewrite HvecW, Helems. cbn [mbind option_bind].
  rewrite !getElementsFromStruct_take by lia. cbn [mbind option_bind].
  rewrite Hbits. cbn [mbind option_bind].
  rewrite decide_True by lia.
  set (ptrVals := take (Z.to_nat numElems) ptr).
  set (maskVals := take (Z.to_nat numElems) mask).
  set (otherVals := take (Z.to_nat numElems) other).
  assert (Z.of_nat (length otherVals) = numElems) as Hlo
    by (unfold otherVals; rewrite length_take; lia).
  assert (∀ g, 0 ≤ g → (g + 1) * vecWidth ≤ numElems →
            ∃ p m, ptr !! Z.to_nat (g * vecWidth) = Some p ∧
                   mask !! Z.to_nat (g * vecWidth) = Some m ∧
                   loadGroup inlineAsm nbits vecWidth ptrVals maskVals otherVals
                     (g * vecWidth)
                   = Some (concat (inlineAsm m p))) as Hgroup.
  { intros g Hg Hg'.
    destruct (lookup_lt_is_Some_2 ptr (Z.to_nat (g * vecWidth))) as [p Hp]; [nia|].
    destruct (lookup_lt_is_Some_2 mask (Z.to_nat (g * vecWidth))) as [m Hm]; [nia|].
    exists p, m. split_and!; [done|done|].
    apply (loadGroup_in_range inlineAsm nbits vecWidth); try done; try nia.
    - unfold at_, ptrVals. rewrite decide_True by nia.
      rewrite lookup_take_lt by nia. done.
    - unfold at_, maskVals. rewrite decide_True by nia.
      rewrite lookup_take_lt by nia. done. }
  pose proof (groupStarts_multiple G vecWidth HGpos Hvec) as Hgs.
  rewrite <- HG in Hgs. rewrite Hgs.
  destruct (mapM (loadGroup inlineAsm nbits vecWidth ptrVals maskVals otherVals)
              ((λ g, g * vecWidth) <$> seqZ 0 G)) as [groups|] eqn:Hgroups.
  2:{ apply mapM_None_1, Exists_exists in Hgroups as (i & Hi & Hnone).
      apply list_elem_of_fmap in Hi as (g & -> & Hg). apply elem_of_seqZ in Hg.
      destruct (Hgroup g) as (p & m & _ & _ & Hsome); [lia|nia|]. congruence. }
  apply mapM_Some_1 in Hgroups.
  pose proof (Forall2_length _ _ _ Hgroups) as Hlg.
  rewrite length_fmap, length_seqZ in Hlg.
  assert (∀ (g : nat) grp, groups !! g = Some grp →
            ∃ p m, ptr !! Z.to_nat (Z.of_nat g * vecWidth) = Some p ∧
                   mask !! Z.to_nat (Z.of_nat g * vecWidth) = Some m ∧
                   grp = concat (inlineAsm m p)) as Hgrp.
  { intros g grp Hg.
    destruct (Forall2_lookup_r _ _ _ _ _ Hgroups Hg) as (i & Hi & Hload).
    rewrite list_lookup_fmap in Hi.
    destruct (seqZ 0 G !! g) as [g'|] eqn:Hg'; [|done].
    apply lookup_seqZ in Hg' as [-> Hlt]. simpl in Hi. injection Hi as <-.
    rewrite Z.add_0_l in Hload.
    destruct (Hgroup (Z.of_nat g)) as (p & m & Hp & Hm & Hsome); [lia|nia|].
    exists p, m. split_and!; [done|done|congruence]. }
  assert (Forall (λ grp, length grp = Z.to_nat vecWidth) groups) as Huniform.
  { apply Forall_forall. intros grp Hin.
    apply list_elem_of_lookup in Hin as [g Hg].
    destruct (Hgrp g grp Hg) as (p & m & _ & _ & ->).
    pose proof (length_loaded inlineAsm nbits vecWidth Hnbits Hvec Hfit Hexact Hasm m p).
    lia. }
  pose proof (length_concat_uniform groups _ Huniform) as Hlc.
  cbn [mbind option_bind].
  replace (Z.to_nat numElems) with (length (concat groups)) by nia.
  rewrite getStructFromElements_exact.
  exists (concat groups). split_and!; [done|nia|].
  intros g e Hg Hg' He.
  destruct (lookup_lt_is_Some_2 (concat groups) (Z.to_nat (g * vecWidth + e)))
    as [v Hv]; [nia|].
  destruct (lookup_concat_uniform groups (Z.to_nat vecWidth)
              (Z.to_nat (g * vecWidth + e)) v ltac:(lia) Huniform Hv)
    as (grp & Hgrp1 & Hgrp2).
  replace (Z.to_nat (g * vecWidth + e))
    with (Z.to_nat g * Z.to_nat vecWidth + Z.to_nat e)%nat in Hgrp1, Hgrp2 by nia.
  destruct (nat_div_mod_add (Z.to_nat g) (Z.to_nat e) (Z.to_nat vecWidth))
    as [Hd Hm]; [lia|].
  rewrite Hd in Hgrp1. rewrite Hm in Hgrp2.
  destruct (Hgrp _ _ Hgrp1) as (p & m & Hp & Hmk & ->).
  rewrite Z2Nat.id in Hp, Hmk by lia.
  destruct (Hasm m p) as [Hn Hwords].
  destruct (lookup_concat_uniform (inlineAsm m p) (Z.to_nat size) (Z.to_nat e) v
              ltac:(lia)) as (word & Hw1 & Hw2).
  { eapply Forall_impl; [exact Hwords|]. simpl. intros. unfold size. lia. }
  { exact Hgrp2. }
  exists p, m, word, v. split_and!; try done.
  - by rewrite Z2Nat.inj_div by lia.
  - by rewrite Z2Nat.inj_mod by lia.
Qed.

Lemma load_groups_witness :
  let layout := {| getSizePerThread := [4]; getThreadsPerWarp := [32];
                   getWarpsPerCTA := [1]; getOrder := [0] |} in
  let inlineAsm := λ (m : bool) (p : Z), [[p; p + 1]; [p + 2; p + 3]] in
  let ptr := [0; 10; 20; 30; 40; 50; 60; 70] in
  let mask := [true; false; true; false; true; false; true; false] in
  let other := [0; 0; 0; 0; 0; 0; 0; 0] in
  ∃ result,
    LoadOpConversion 0 inlineAsm layout [256] (IntegerType 16) ptr mask other
    = Some result ∧
    Z.of_nat (length result) = 8 ∧
    ∀ g e, 0 ≤ g → (g + 1) * 4 ≤ 8 → 0 ≤ e < 4 →
      ∃ p m word v,
        ptr !! Z.to_nat (g * 4) = Some p ∧
        mask !! Z.to_nat (g * 4) = Some m ∧
        inlineAsm m p !! Z.to_nat (e `div` (width 16 4 `div` 16)) = Some word ∧
        word !! Z.to_nat (e `mod` (width 16 4 `div` 16)) = Some v ∧
        result !! Z.to_nat (g * 4 + e) = Some v.
Proof.
  intros layout inlineAsm ptr mask other.
  apply (load_groups 0 inlineAsm layout [256] (IntegerType 16) ptr mask other 16 4 8);
    try reflexivity; try (simpl; lia).
  intros pred p. split; [reflexivity|]. by repeat constructor.
Defined.

(** X14. When the vector width does not divide the element count of the
    thread, the load rule aborts: the last group reads fallback values
    beyond the end of the struct. *)
Theorem load_partial_group_aborts {P M V} (undef : V) (inlineAsm : M → P → list (list V))
    (blockedLayout : TritonGPUBlockedEncodingAttr) (shape : list Z)
    (elemTy : ElementType) (ptr : list P) (mask : list M) (other : list V)
    (nbits vecWidth numElems : Z) :
  vecWidthOf blockedLayout = Some vecWidth →
  getElemsPerThread blockedLayout shape = Some numElems →
  nbitsOf elemTy = Some nbits →
  0 < nbits → 0 < vecWidth → nbits * vecWidth < 2 ^ 31 →
  n_words nbits vecWidth * (width nbits vecWidth `div` nbits) = vecWidth →
  numElems `mod` vecWidth ≠ 0 →
  LoadOpConversion undef inlineAsm blockedLayout shape elemTy ptr mask other = None.
Proof.
  intros HvecW Helems Hbits Hnbits Hvec Hfit Hexact Hdiv.
  pose proof (getElemsPerThread_range _ _ _ Helems) as Hrange.
  unfold LoadOpConversion. rewrite HvecW, Helems. cbn [mbind option_bind].
  destruct (getElementsFromStruct ptr numElems) as [ptrVals|]; [|done].
  cbn [mbind option_bind].
  destruct (getElementsFromStruct mask numElems) as [maskVals|]; [|done].
  cbn [mbind option_bind].
  destruct (getElementsFromStruct other numElems) as [otherVals|] eqn:Hother;
    [|done].
  cbn [mbind option_bind]. rewrite Hbits. cbn [mbind option_bind].
  rewrite decide_True by lia.
  apply mapM_seqZ_length in Hother.
  set (G := numElems `div` vecWidth).
  pose proof (Z.div_mod numElems vecWidth ltac:(lia)) as Hdm. fold G in Hdm.
  pose proof (Z.mod_pos_bound numElems vecWidth ltac:(lia)) as Hm.
  assert (0 ≤ G) as HG by (apply Z.div_pos; lia).
  assert (mapM (loadGroup inlineAsm nbits vecWidth ptrVals maskVals otherVals)
               (groupStarts numElems vecWidth) = None) as ->; [|done].
  apply mapM_None_2, Exists_exists. exists (G * vecWidth). split.
  - unfold groupStarts. apply list_elem_of_fmap. exists G. split; [done|].
    apply elem_of_seqZ.
    replace ((numElems + vecWidth - 1) `div` vecWidth) with (G + 1); [lia|].
    apply (Z.div_unique_pos _ vecWidth (G + 1) (numElems `mod` vecWidth - 1)); lia.
  - apply (loadGroup_out_of_range inlineAsm nbits vecWidth); try done; nia.
Qed.

Lemma load_partial_group_aborts_witness :
  LoadOpConversion 0 (λ (m : bool) (p : Z), [[p; p + 1]; [p + 2; p + 3]])
    {| getSizePerThread := [4]; getThreadsPerWarp := [32]; getWarpsPerCTA := [1];
       getOrder := [0] |} [192] (IntegerType 16)
    [0; 10; 20; 30; 40; 50] [true; true; true; true; true; true] [0; 0; 0; 0; 0; 0]
  = None.
Proof.
  apply (load_partial_group_aborts 0 _ _ [192] (IntegerType 16) _ _ _ 16 4 6);
    try reflexivity; try (simpl; lia).
  vm_compute. discriminate.
Defined.

(** ** The constraint string of the load *)

Lemma string_app_cons (a : Ascii.ascii) (s1 s2 : string) :
  String a s1 +:+ s2 = String a (s1 +:+ s2).
Proof. done. Qed.

Lemma string_app_assoc (s1 s2 s3 : string) :
  (s1 +:+ s2) +:+ s3 = s1 +:+ (s2 +:+ s3).
Proof.
  induction s1 as [|a s1 IH]; [done|]. by rewrite !string_app_cons, IH.
Qed.

Lemma string_concat_snoc (sep : string) (l : list string) (x : string) :
  l ≠ [] → String.concat sep (l ++ [x]) = String.concat sep l +:+ sep +:+ x.
Proof.
  induction l as [|y l IH]; [done|]. intros _.
  destruct l as [|z l]; [done|].
  change (String.concat sep ((y :: z :: l) ++ [x]))
    with (y +:+ sep +:+ String.concat sep ((z :: l) ++ [x])).
  change (String.concat sep (y :: z :: l))
    with (y +:+ sep +:+ String.concat sep (z :: l)).
  rewrite IH by done. by rewrite !string_app_assoc.
Qed.

Lemma asm_outputs (width : Z) (n : nat) :
  foldl (λ (asmCstrt : string) (ii : Z),
           (if decide (0 < ii) then asmCstrt +:+ "," else asmCstrt)
             +:+ outConstraint width)
        "" (seqZ 0 (Z.of_nat (S n)))
  = String.concat "," (replicate (S n) (outConstraint width)).
Proof.
  induction n as [|n IH]; [done|].
  rewrite seqZ_0_S, foldl_app, IH. cbn [foldl].
  rewrite decide_True by lia.
  rewrite (replicate_S_end (S n)), string_concat_snoc by done.
  by rewrite string_app_assoc.
Qed.

Lemma asm_inputs (width : Z) (base : string) (L : list string) (k : nat) :
  L ≠ [] → base = String.concat "," L →
  foldl (λ (asmCstrt : string) (_ : nat), (asmCstrt +:+ ",") +:+ inConstraint width)
        base (seq 0 k)
  = String.concat "," (L ++ replicate k (inConstraint width)).
Proof.
  intros HL ->. induction k as [|k IH].
  - by rewrite app_nil_r.
  - rewrite seq_S, foldl_app, IH. cbn [foldl].
    rewrite (replicate_S_end k), app_assoc, string_concat_snoc.
    + by rewrite string_app_assoc.
    + by destruct L.
Qed.

(** X15. The constraint string of the inline assembly is the comma-separated
    list of one output constraint per word, then [b] and [l] for the
    predicate and the pointer, then one input constraint per fallback word
    pushed to [others], which has an entry per word unless the fallback is a
    splat integer constant. *)
Theorem asmCstrt_fields {V} (width n_words : Z) (otherIsSplatConstInt : bool)
    (words : list (list V)) :
  0 < n_words →
  asmCstrt width n_words (length (othersPushed otherIsSplatConstInt words)) false
  = String.concat ","
      (replicate (Z.to_nat n_words) (outConstraint width) ++ ["b"; "l"] ++
       replicate (if otherIsSplatConstInt then 0%nat else length words)
                 (inConstraint width)).
Proof.
  intros Hn. unfold asmCstrt.
  replace n_words with (Z.of_nat (S (Z.to_nat (n_words - 1)))) at 1 by lia.
  replace (Z.to_nat n_words) with (S (Z.to_nat (n_words - 1))) by lia.
  rewrite asm_outputs.
  set (outs := replicate (S (Z.to_nat (n_words - 1))) (outConstraint width)).
  replace (length (othersPushed otherIsSplatConstInt words))
    with (if otherIsSplatConstInt then 0%nat else length words)
    by by destruct otherIsSplatConstInt.
  rewrite (asm_inputs width _ (outs ++ ["b"; "l"])).
  - by rewrite <- app_assoc.
  - by destruct outs.
  - change (outs ++ ["b"; "l"]) with (outs ++ ["b"] ++ ["l"]).
    rewrite app_assoc, !string_concat_snoc by (done || by destruct outs).
    by rewrite !string_app_assoc.
Qed.

Lemma asmCstrt_fields_witness :
  asmCstrt 32 2 (length (othersPushed false [[1; 2]; [3; 4]])) false
  = String.concat ","
      (replicate (Z.to_nat 2) (outConstraint 32) ++ ["b"; "l"] ++
       replicate (if false then 0%nat else length [[1; 2]; [3; 4]]) (inConstraint 32)).
Proof. apply (asmCstrt_fields 32 2 false [[1; 2]; [3; 4]]). lia. Defined.

(** ** Function conversion *)

Section FilterFacts.
Context {Attr : Type}.
(** The names of the symbol, type and argument-dictionary attributes. *)
Context (symName typeName argsName : string).

Lemma filterFuncAttributes_filter (attrs : list (@NamedAttribute Attr))
    (filterArgAttrs : bool) (result : list NamedAttribute) :
  filterFuncAttributes symName typeName argsName attrs filterArgAttrs result
  = result ++
    filter (λ attr, isFiltered symName typeName argsName filterArgAttrs attr.1 = false)
           attrs.
Proof.
  unfold filterFuncAttributes. revert result.
  induction attrs as [|attr attrs IH]; intros result.
  - by rewrite app_nil_r.
  - cbn [foldl]. rewrite filter_cons.
    destruct (isFiltered symName typeName argsName filterArgAttrs attr.1)
      eqn:Hf.
    + rewrite decide_False by done. apply IH.
    + rewrite decide_True by done. rewrite IH. by rewrite <- app_assoc.
Qed.

Lemma isFiltered_false (filterArgAttrs : bool) (name : string) :
  isFiltered symName typeName argsName filterArgAttrs name = false ↔
  name ≠ symName ∧ name ≠ typeName ∧ name ≠ "std.varargs" ∧
  (filterArgAttrs = true → name ≠ argsName).
Proof.
  unfold isFiltered. rewrite !orb_false_iff, andb_false_iff, !bool_decide_eq_false.
  destruct filterArgAttrs; intuition congruence.
Qed.

(** X16. [filterFuncAttributes] appends to [result], in their order, exactly
    the attributes whose name is none of the symbol name, the type
    attribute, [std.varargs] and (when asked) the argument dictionary;
    nothing else is dropped or added, and filtering twice changes
    nothing. *)
Theorem filterFuncAttributes_retained (attrs : list (@NamedAttribute Attr))
    (filterArgAttrs : bool) (result : list NamedAttribute) :
  (∃ kept,
     filterFuncAttributes symName typeName argsName attrs filterArgAttrs result
     = result ++ kept ∧
     kept = filterFuncAttributes symName typeName argsName attrs filterArgAttrs [] ∧
     kept `sublist_of` attrs) ∧
  (∀ attr,
     attr ∈ filterFuncAttributes symName typeName argsName attrs filterArgAttrs [] ↔
     attr ∈ attrs ∧ attr.1 ≠ symName ∧ attr.1 ≠ typeName ∧
     attr.1 ≠ "std.varargs" ∧ (filterArgAttrs = true → attr.1 ≠ argsName)) ∧
  filterFuncAttributes symName typeName argsName
    (filterFuncAttributes symName typeName argsName attrs filterArgAttrs [])
    filterArgAttrs []
  = filterFuncAttributes symName typeName argsName attrs filterArgAttrs [].
Proof.
  split_and!.
  - eexists. split_and!.
    + apply filterFuncAttributes_filter.
    + by rewrite filterFuncAttributes_filter.
    + apply sublist_filter.
  - intros attr. rewrite filterFuncAttributes_filter. cbn [app].
    rewrite list_elem_of_filter, isFiltered_false. tauto.
  - rewrite !filterFuncAttributes_filter. cbn [app].
    rewrite list_filter_filter. apply list_filter_iff. tauto.
Qed.

Lemma eraseFirst_absent (name : string) (l : list (@NamedAttribute Attr)) :
  Forall (λ attr, attr.1 ≠ name) l → eraseFirst name l = l.
Proof.
  induction 1 as [|attr l Hattr _ IH]; [done|].
  cbn [eraseFirst]. rewrite decide_False by done. by rewrite IH.
Qed.

Lemma filter_absent (name : string) (Q : @NamedAttribute Attr → Prop)
    `{∀ attr, Decision (Q attr)} (l : list NamedAttribute) :
  Forall (λ attr, attr.1 ≠ name) l →
  filter (λ attr, Q attr ∧ attr.1 ≠ name) l = filter Q l.
Proof.
  induction 1 as [|attr l Hattr _ IH]; [done|].
  rewrite !filter_cons, IH. destruct (decide (Q attr)).
  - by rewrite decide_True.
  - rewrite decide_False; [done|]. tauto.
Qed.

Lemma eraseFirst_filter (name : string) (Q : @NamedAttribute Attr → Prop)
    `{∀ attr, Decision (Q attr)} (l l2 : list NamedAttribute) :
  NoDup l.*1 → Forall (λ attr, attr.1 ≠ name) l2 →
  eraseFirst name (filter Q l ++ l2)
  = filter (λ attr, Q attr ∧ attr.1 ≠ name) l ++ l2.
Proof.
  intros Hnd Hl2. induction l as [|attr l IH].
  - by apply eraseFirst_absent.
  - rewrite fmap_cons in Hnd. apply NoDup_cons in Hnd as [Hnotin Hnd].
    rewrite !filter_cons. destruct (decide (Q attr)) as [HQ|HQ].
    + destruct (decide (attr.1 = name)) as [Heq|Hne].
      * rewrite decide_False by tauto. cbn [app eraseFirst].
        rewrite decide_True by done. f_equal. symmetry. apply filter_absent.
        apply Forall_forall. intros attr' Hin Heq'. apply Hnotin.
        rewrite Heq, <- Heq'. by apply list_elem_of_fmap_2.
      * rewrite decide_True by tauto. cbn [app eraseFirst].
        rewrite decide_False by done. f_equal. by apply IH.
    + rewrite decide_False by tauto. by apply IH.
Qed.

End FilterFacts.

Section FuncOpFacts.
Context {Attr Linkage FunctionType LLVMFunctionType SignatureConversion Region : Type}.
(** The names of the symbol, type and argument-dictionary attributes. *)
Context (symName typeName argsName : string).
Context (External : Linkage).
Context (dyn_cast_LinkageAttr : Attr → option Linkage).
Context (dyn_cast_BoolAttr : Attr → option bool).
Context (getArrayAttr : list (option Attr) → Attr).
Context (convertFunctionSignature :
           FunctionType → bool → option LLVMFunctionType * SignatureConversion).
Context (getNumParams : LLVMFunctionType → Z).
Context (getInputMapping : SignatureConversion → Z → option (Z * Z)).
Context (convertRegionTypes : Region → SignatureConversion → bool).

(** X17. A function converted with success keeps its name and body, gets
    the linkage of its [llvm.linkage] attribute (external without one), and
    carries, in their order, the attributes of the original function other
    than the symbol name, the type, [std.varargs], the argument dictionary
    and [llvm.linkage], followed by the new argument dictionary when the
    function has argument attributes.  The names of the attributes of the
    original function are distinct, as in a dictionary. *)
Theorem convertFuncOp_result (funcOp : FuncOp) (newFuncOp : LLVMFuncOp) :
  NoDup (getAttrs funcOp).*1 → argsName ≠ "llvm.linkage" →
  convertFuncOpToLLVMFuncOp symName typeName argsName External
    dyn_cast_LinkageAttr dyn_cast_BoolAttr getArrayAttr convertFunctionSignature
    getNumParams getInputMapping convertRegionTypes funcOp
  = Some (Some newFuncOp) →
  let signature :=
    convertFunctionSignature (getType funcOp)
      (default false (getAttr funcOp "std.varargs" ≫= dyn_cast_BoolAttr)) in
  ∃ argDict,
    attributes newFuncOp
    = filter (λ attr, isFiltered symName typeName argsName true attr.1 = false ∧
                      attr.1 ≠ "llvm.linkage")
             (getAttrs funcOp) ++ argDict ∧
    match getAllArgAttrs funcOp with
    | None => argDict = []
    | Some argAttrDicts =>
        ∃ newArgAttrs,
          propagateArgAttrs getInputMapping (getNumArguments funcOp)
            (getNumParams (function_type newFuncOp)) signature.2 argAttrDicts
          = Some newArgAttrs ∧
          argDict = [(argsName, getArrayAttr newArgAttrs)]
    end ∧
    signature.1 = Some (function_type newFuncOp) ∧
    linkageOf External dyn_cast_LinkageAttr funcOp = Some (linkage newFuncOp) ∧
    convertRegionTypes (getBody funcOp) signature.2 = true ∧
    sym_name newFuncOp = getName funcOp ∧
    dso_local newFuncOp = false ∧
    body newFuncOp = getBody funcOp.
Proof.
  intros Hnd Hname. unfold convertFuncOpToLLVMFuncOp. cbv zeta.
  destruct (convertFunctionSignature _ _) as [[llvmType|] result]; [|done].
  cbn [mbind option_bind fst snd].
  rewrite filterFuncAttributes_filter. cbn [app].
  destruct (getAllArgAttrs funcOp) as [argAttrDicts|].
  - destruct (propagateArgAttrs _ _ _ _ _) as [newArgAttrs|] eqn:Hprop; [|done].
    cbn [mbind option_bind].
    destruct (linkageOf _ _ _) as [l|]; [|done].
    destruct (convertRegionTypes _ _); [|done].
    intros [= <-]. cbn.
    eexists. split_and!; try done.
    + apply eraseFirst_filter; [done|]. by repeat constructor.
    + by exists newArgAttrs.
  - cbn [mbind option_bind].
    destruct (linkageOf _ _ _) as [l|]; [|done].
    destruct (convertRegionTypes _ _); [|done].
    intros [= <-]. cbn.
    exists []. split_and!; try done.
    rewrite <- (app_nil_r (filter _ _)) at 1.
    apply eraseFirst_filter; [done|]. by constructor.
Qed.

End FuncOpFacts.

Lemma foldM_seqZ_inv_Some {St} (Inv : Z → St → Prop) (f : St → Z → option St)
    (s0 : St) (n : nat) (s' : St) :
  Inv 0 s0 →
  (∀ k s s1, 0 ≤ k < Z.of_nat n → Inv k s → f s k = Some s1 → Inv (k + 1) s1) →
  foldM f s0 (seqZ 0 (Z.of_nat n)) = Some s' → Inv (Z.of_nat n) s'.
Proof.
  intros H0. revert s'. induction n as [|n IH]; intros s' Hstep Hfold.
  - by injection Hfold as <-.
  - rewrite seqZ_0_S, foldM_app in Hfold.
    destruct (foldM f s0 (seqZ 0 (Z.of_nat n))) as [s|] eqn:Hs; [|done].
    cbn [mbind option_bind foldM] in Hfold.
    destruct (f s (Z.of_nat n)) as [s1|] eqn:Hs1; [|done].
    cbn [mbind option_bind] in Hfold. injection Hfold as <-.
    replace (Z.of_nat (S n)) with (Z.of_nat n + 1) by lia.
    apply (Hstep (Z.of_nat n) s); [lia| |done].
    apply IH; [|done]. intros k t t1 Hk. apply Hstep. lia.
Qed.

Section ArgAttrsFacts.
Context {Attr SignatureConversion : Type}.
Context (getInputMapping : SignatureConversion → Z → option (Z * Z)).

(** The inner loop writes [argAttrDicts[i]] to the positions
    [inputNo .. inputNo + size) and leaves the others. *)
Lemma propagate_inner (argAttrDicts : list Attr) (i inputNo size : Z)
    (st st' : list (option Attr)) :
  foldM (λ newArgAttrs j,
           a ← at_ argAttrDicts i; set_at newArgAttrs (inputNo + j) (Some a))
        st (seqZ 0 size) = Some st' →
  length st' = length st ∧
  (∀ p : nat, inputNo ≤ Z.of_nat p < inputNo + size →
     ∃ a, at_ argAttrDicts i = Some a ∧ st' !! p = Some (Some a)) ∧
  (∀ p : nat, ¬ (inputNo ≤ Z.of_nat p < inputNo + size) → st' !! p = st !! p).
Proof.
  destruct (decide (0 ≤ size)) as [Hsize|Hsize].
  2:{ rewrite seqZ_nil by lia. intros [= <-]. split_and!; [done| |done]. lia. }
  rewrite <- (Z2Nat.id size) at 1 by done. intros Hfold.
  apply (foldM_seqZ_inv_Some
           (λ k st', length st' = length st ∧
              (∀ p : nat, inputNo ≤ Z.of_nat p < inputNo + k →
                 ∃ a, at_ argAttrDicts i = Some a ∧ st' !! p = Some (Some a)) ∧
              (∀ p : nat, ¬ (inputNo ≤ Z.of_nat p < inputNo + k) →
                 st' !! p = st !! p))) in Hfold.
  - by rewrite Z2Nat.id in Hfold by done.
  - split_and!; [done| |done]. lia.
  - intros k s s1 Hk (Hlen & Hin & Hout) Hstep.
    destruct (at_ argAttrDicts i) as [a|] eqn:Ha; [|done].
    cbn [mbind option_bind] in Hstep. unfold set_at in Hstep.
    destruct (decide _) as [Hrange|]; [|done]. injection Hstep as <-.
    split_and!.
    + by rewrite length_insert.
    + intros p Hp. destruct (decide (Z.of_nat p = inputNo + k)) as [Heq|Hne].
      * exists a. split; [done|].
        replace p with (Z.to_nat (inputNo + k)) by lia.
        apply list_lookup_insert_eq. lia.
      * rewrite list_lookup_insert_ne by lia. apply Hin. lia.
    + intros p Hp. rewrite list_lookup_insert_ne by lia. apply Hout. lia.
Qed.

(** X18. The propagation of argument attributes aborts when an argument
    has no converted counterpart.  When it succeeds, with the converted
    arguments of successive arguments laid out in order, the result has one
    entry per parameter of the converted type; every converted argument
    obtained from argument [i] carries the attribute dictionary of
    argument [i], and the entries of no argument are null. *)
Theorem propagateArgAttrs_spec (numArguments numParams : Z)
    (result : SignatureConversion) (argAttrDicts : list Attr) :
  ((∃ i, 0 ≤ i < numArguments ∧ getInputMapping result i = None) →
   propagateArgAttrs getInputMapping numArguments numParams result argAttrDicts
   = None) ∧
  ∀ newArgAttrs,
    (∀ i i' m m', 0 ≤ i < i' → i' < numArguments →
       getInputMapping result i = Some m → getInputMapping result i' = Some m' →
       m.1 + m.2 ≤ m'.1) →
    propagateArgAttrs getInputMapping numArguments numParams result argAttrDicts
    = Some newArgAttrs →
    length newArgAttrs = Z.to_nat numParams ∧
    (∀ i inputNo size (p : nat),
       0 ≤ i < numArguments → getInputMapping result i = Some (inputNo, size) →
       inputNo ≤ Z.of_nat p < inputNo + size →
       ∃ a, at_ argAttrDicts i = Some a ∧ newArgAttrs !! p = Some (Some a)) ∧
    (∀ p : nat,
       (Z.of_nat p < numParams) →
       (∀ i inputNo size,
          0 ≤ i < numArguments → getInputMapping result i = Some (inputNo, size) →
          ¬ (inputNo ≤ Z.of_nat p < inputNo + size)) →
       newArgAttrs !! p = Some None).
Proof.
  split.
  - intros (i & Hi & Hnone). unfold propagateArgAttrs.
    apply (foldM_None_at _ _ _ i); [apply elem_of_seqZ; lia|].
    intros st. by rewrite Hnone.
  - intros newArgAttrs Hordered. unfold propagateArgAttrs.
    destruct (decide (0 ≤ numArguments)) as [Hn|Hn].
    2:{ rewrite seqZ_nil by lia. intros [= <-]. rewrite length_replicate.
        split_and!; [done|intros; lia|].
        intros p Hp _. apply lookup_replicate_2. lia. }
    rewrite <- (Z2Nat.id numArguments) at 1 by done. intros Hfold.
    apply (foldM_seqZ_inv_Some
             (λ k st,
                length st = Z.to_nat numParams ∧
                (∀ i inputNo size (p : nat),
                   0 ≤ i < k → getInputMapping result i = Some (inputNo, size) →
                   inputNo ≤ Z.of_nat p < inputNo + size →
                   ∃ a, at_ argAttrDicts i = Some a ∧ st !! p = Some (Some a)) ∧
                (∀ p : nat,
                   (Z.of_nat p < numParams) →
                   (∀ i inputNo size,
                      0 ≤ i < k → getInputMapping result i = Some (inputNo, size) →
                      ¬ (inputNo ≤ Z.of_nat p < inputNo + size)) →
                   st !! p = Some None))) in Hfold.
    + by rewrite Z2Nat.id in Hfold by done.
    + rewrite length_replicate. split_and!; [done|intros; lia|].
      intros p Hp _. apply lookup_replicate_2. lia.
    + intros k st st1 Hk (Hlen & Hin & Hnull) Hstep.
      destruct (getInputMapping result k) as [[inputNo size]|] eqn:Hmap; [|done].
      cbn [mbind option_bind] in Hstep.
      apply propagate_inner in Hstep as (Hlen1 & Hin1 & Hout1).
      split_and!.
      * congruence.
      * intros i inputNo' size' p Hi Hmap' Hp.
        destruct (decide (i = k)) as [->|Hne].
        -- rewrite Hmap in Hmap'. injection Hmap' as <- <-. by apply Hin1.
        -- pose proof (Hordered i k _ _ ltac:(lia) ltac:(lia) Hmap' Hmap) as Hord.
           simpl in Hord. rewrite Hout1 by lia. apply (Hin i inputNo' size'); [lia|done..].
      * intros p Hp Hfree. rewrite Hout1.
        -- apply Hnull; [done|]. intros i inputNo' size' Hi. apply Hfree. lia.
        -- apply (Hfree k); [lia|done].
Qed.

End ArgAttrsFacts.

Lemma propagateArgAttrs_spec_witness :
  let getInputMapping := λ (_ : unit) (i : Z),
    if decide (i = 0) then Some (0, 2) else
    if decide (i = 1) then Some (2, 1) else None in
  let newArgAttrs := [Some 10; Some 10; Some 20] in
  length newArgAttrs = Z.to_nat 3 ∧
  (∀ i inputNo size (p : nat),
     0 ≤ i < 2 → getInputMapping () i = Some (inputNo, size) →
     inputNo ≤ Z.of_nat p < inputNo + size →
     ∃ a, at_ [10; 20] i = Some a ∧ newArgAttrs !! p = Some (Some a)) ∧
  (∀ p : nat,
     (Z.of_nat p < 3) →
     (∀ i inputNo size,
        0 ≤ i < 2 → getInputMapping () i = Some (inputNo, size) →
        ¬ (inputNo ≤ Z.of_nat p < inputNo + size)) →
     newArgAttrs !! p = Some None).
Proof.
  intros getInputMapping newArgAttrs.
  apply (proj2 (propagateArgAttrs_spec getInputMapping 2 3 () [10; 20]) newArgAttrs).
  - intros i i' m m' Hi Hi' Hm Hm'.
    assert (i = 0) as -> by lia. assert (i' = 1) as -> by lia.
    vm_compute in Hm, Hm'. injection Hm as <-. injection Hm' as <-. simpl. lia.
  - reflexivity.
Defined.

Lemma convertFuncOp_result_witness :
  let convertFunctionSignature := λ (_ : unit) (_ : bool), (Some (), ()) in
  let funcOp :=
    {| getAttrs := [("llvm.linkage", 7); ("noinline", 1); ("sym_name", 2);
                    ("type", 3)];
       getName := "kernel"; getType := (); getNumArguments := 1;
       getAllArgAttrs := None; getBody := () |} in
  let newFuncOp :=
    {| sym_name := "kernel"; function_type := (); linkage := 7; dso_local := false;
       attributes := [("noinline", 1)]; body := () |} in
  let signature :=
    convertFunctionSignature (getType funcOp)
      (default false (getAttr funcOp "std.varargs" ≫= (λ _ : Z, @None bool))) in
  ∃ argDict,
    attributes newFuncOp
    = filter (λ attr, isFiltered "sym_name" "type" "arg_attrs" true attr.1 = false ∧
                      attr.1 ≠ "llvm.linkage")
             (getAttrs funcOp) ++ argDict ∧
    match getAllArgAttrs funcOp with
    | None => argDict = []
    | Some argAttrDicts =>
        ∃ newArgAttrs,
          propagateArgAttrs (λ (_ : unit) (i : Z), Some (i, 1)) (getNumArguments funcOp)
            ((λ _ : unit, 1) (function_type newFuncOp)) signature.2 argAttrDicts
          = Some newArgAttrs ∧
          argDict = [("arg_attrs", (λ _ : list (option Z), 99) newArgAttrs)]
    end ∧
    signature.1 = Some (function_type newFuncOp) ∧
    linkageOf 0 (λ a : Z, Some a) funcOp = Some (linkage newFuncOp) ∧
    (λ (_ _ : unit), true) (getBody funcOp) signature.2 = true ∧
    sym_name newFuncOp = getName funcOp ∧
    dso_local newFuncOp = false ∧
    body newFuncOp = getBody funcOp.
Proof.
  intros convertFunctionSignature funcOp newFuncOp.
  apply (convertFuncOp_result "sym_name" "type" "arg_attrs" 0 (λ a : Z, Some a)
           (λ _ : Z, @None bool) (λ _ : list (option Z), 99)
           convertFunctionSignature (λ _ : unit, 1) (λ (_ : unit) (i : Z), Some (i, 1))
           (λ (_ _ : unit), true) funcOp newFuncOp).
  - apply (bool_decide_unpack (NoDup _)). vm_compute. exact I.
  - discriminate.
  - reflexivity.
Defined.

(** ** Which vector widths the load supports *)

(** X19. The words of one load never hold more than [vecWidth] elements.
    They hold exactly [vecWidth] elements when the vector fits one word, or
    when the element width divides the word width and the word width divides
    the width of the vector; in every other case the extraction loop reads a
    word that the load does not return, and aborts. *)
Theorem load_words_cover {V} (nbits vecWidth : Z) (rets : list (list V)) :
  0 < nbits → 0 < vecWidth → nbits * vecWidth < 2 ^ 31 →
  n_words nbits vecWidth * (width nbits vecWidth `div` nbits) ≤ vecWidth ∧
  (n_words nbits vecWidth * (width nbits vecWidth `div` nbits) = vecWidth ↔
   nbits * vecWidth ≤ Z.max 32 nbits ∨
   (Z.max 32 nbits `mod` nbits = 0 ∧ (nbits * vecWidth) `mod` Z.max 32 nbits = 0)) ∧
  (n_words nbits vecWidth * (width nbits vecWidth `div` nbits) < vecWidth →
   Z.of_nat (length rets) = n_words nbits vecWidth →
   extractLoaded nbits vecWidth rets = None).
Proof.
  intros Hnbits Hvec Hfit.
  destruct (widths_exact nbits vecWidth) as (Htot & Hmax & Hw); [done..|].
  assert (nbits ≤ nbits * vecWidth) as Hle by nia.
  set (maxw := Z.max 32 nbits) in *.
  set (tot := nbits * vecWidth) in *.
  assert (nbits ≤ maxw) by lia.
  assert (width nbits vecWidth = Z.min tot maxw) as Hwidth
    by (unfold width; by rewrite Htot, Hmax).
  set (size := width nbits vecWidth `div` nbits).
  set (n := n_words nbits vecWidth).
  assert (0 < size) as Hsize.
  { unfold size. apply Z.div_str_pos. lia. }
  assert (n * size ≤ vecWidth ∧
          (n * size = vecWidth ↔
           tot ≤ maxw ∨ (maxw `mod` nbits = 0 ∧ tot `mod` maxw = 0))) as [Hcover Hiff].
  { unfold n, n_words, size. rewrite Htot, Hwidth.
    destruct (decide (tot ≤ maxw)) as [Hsmall|Hlarge].
    - rewrite Z.min_l by lia. rewrite Z.quot_same by lia.
      unfold tot. rewrite (Z.mul_comm nbits vecWidth), Z.div_mul by lia.
      unfold tot in Hsmall. split; [lia|]. split; [intros _; left; lia|lia].
    - rewrite Z.min_r by lia. rewrite Z.quot_div_nonneg by lia.
      pose proof (Z.div_mod tot maxw ltac:(lia)) as Hq.
      pose proof (Z.mod_pos_bound tot maxw ltac:(lia)) as Hr.
      pose proof (Z.div_mod maxw nbits ltac:(lia)) as Hs.
      pose proof (Z.mod_pos_bound maxw nbits ltac:(lia)) as Ht.
      assert (1 ≤ tot `div` maxw) by (apply Z.div_le_lower_bound; lia).
      assert (0 ≤ maxw `div` nbits) by (apply Z.div_pos; lia).
      rewrite Z.max_r by lia.
      set (q := tot `div` maxw) in *. set (r := tot `mod` maxw) in *.
      set (s := maxw `div` nbits) in *. set (t := maxw `mod` nbits) in *.
      assert (q * s * nbits = nbits * vecWidth - r - q * t) as Hprod
        by (unfold tot in Hq; nia).
      split; [nia|]. split.
      + intros Heq. right. nia.
      + intros [?|[Ht0 Hr0]]; [lia|]. nia. }
  split_and!; [done|done|].
  intros Hlt Hlen. unfold extractLoaded.
  assert (s32 (Z.quot (u32 (width nbits vecWidth)) nbits) = size) as ->.
  { rewrite u32_small by lia. rewrite Z.quot_div_nonneg by lia.
    apply s32_small. fold size.
    assert (size ≤ width nbits vecWidth); [|lia].
    unfold size. apply Z.div_le_upper_bound; nia. }
  apply mapM_None_2, Exists_exists. exists (vecWidth - 1). split.
  - apply elem_of_seqZ. lia.
  - rewrite Z.quot_div_nonneg by lia.
    assert (n ≤ (vecWidth - 1) `div` size) by (apply Z.div_le_lower_bound; lia).
    assert (at_ rets ((vecWidth - 1) `div` size) = None) as ->; [|done].
    unfold at_. rewrite decide_True by lia. apply lookup_ge_None_2. lia.
Qed.

Lemma load_words_cover_witness :
  n_words 16 3 * (width 16 3 `div` 16) ≤ 3 ∧
  (n_words 16 3 * (width 16 3 `div` 16) = 3 ↔
   16 * 3 ≤ Z.max 32 16 ∨
   (Z.max 32 16 `mod` 16 = 0 ∧ (16 * 3) `mod` Z.max 32 16 = 0)) ∧
  (n_words 16 3 * (width 16 3 `div` 16) < 3 →
   Z.of_nat (length [[1; 2]]) = n_words 16 3 →
   extractLoaded 16 3 [[1; 2]] = None).
Proof. apply (load_words_cover 16 3 [[1; 2]]); lia. Defined.

(** ** When delinearization is defined *)

Lemma delinearize_is_Some (linear : Z) (shape : list Z) :
  shape ≠ [] →
  ∃ multiDim, delinearize linear shape = Some multiDim ∧
              length multiDim = length shape.
Proof.
  destruct shape as [|s0 rest]; [done|]. intros _. revert linear.
  induction rest as [|s rest IH] using rev_ind; intros linear.
  - by exists [linear].
  - rewrite delinearize_snoc.
    destruct (IH (linear `div` s)) as (multiDim & -> & Hlen).
    exists (multiDim ++ [linear `mod` s]). split; [done|].
    rewrite length_app, Hlen. cbn [length]. rewrite length_app. simpl. lia.
Qed.

(** X20. Delinearization with an order is defined exactly when the shape is
    not empty, the order has the rank of the shape and every entry of the
    order is a dimension of the shape; in every other case an assertion or
    a subscript aborts.  When defined, the result has one coordinate per
    dimension. *)
Theorem delinearize_order_defined (linear : Z) (shape order : list Z) :
  (is_Some (delinearize_order linear shape order) ↔
   shape ≠ [] ∧ length shape = length order ∧
   Forall (λ o, 0 ≤ o < Z.of_nat (length shape)) order) ∧
  (∀ multiDim, delinearize_order linear shape order = Some multiDim →
               length multiDim = length shape).
Proof.
  unfold delinearize_order.
  destruct (decide (length shape = length order)) as [Hlen|Hlen].
  2:{ split; [|done]. split; [by intros [? ?]|tauto]. }
  replace (seqZ 0 (Z.of_nat (length shape)))
    with (seqZ 0 (Z.of_nat (length order))) by by rewrite Hlen.
  rewrite mapM_at_seqZ.
  destruct (mapM (at_ shape) order) as [reordered|] eqn:Hre.
  - cbn [mbind option_bind].
    pose proof (Forall2_length _ _ _ (mapM_Some_1 _ _ _ Hre)) as Hlen'.
    assert (Forall (λ o, 0 ≤ o < Z.of_nat (length shape)) order) as Hin.
    { apply Forall_forall. intros o Ho.
      assert (is_Some (at_ shape o)) as [x Hx].
      { pose proof (proj1 (mapM_is_Some (at_ shape) order) (mk_is_Some _ _ Hre))
          as Hall.
        by apply (proj1 (Forall_forall _ _) Hall). }
      by apply at_lt in Hx. }
    destruct (decide (shape = [])) as [->|Hne].
    + destruct order; [|done]. injection Hre as <-.
      split; [|done]. split; [by intros [? ?]|tauto].
    + assert (reordered ≠ []) as Hne'
        by (destruct reordered, shape; simpl in *; (done || lia)).
      destruct (delinearize_is_Some linear reordered Hne') as (multiDim & Hmd & Hl).
      rewrite Hmd. split.
      * split; [done|]. by intros _.
      * intros ? [= <-]. lia.
  - cbn [mbind option_bind]. split; [|done].
    split; [by intros [? ?]|]. intros (_ & _ & Hin). exfalso.
    apply mapM_None_1, Exists_exists in Hre as (o & Ho & Hnone).
    apply (proj1 (Forall_forall _ _) Hin) in Ho.
    unfold at_ in Hnone. rewrite decide_True in Hnone by lia.
    apply lookup_ge_None_1 in Hnone. lia.
Qed.

(** ** The coordinates that the index computation emits *)

Lemma u32_mul_r a b : u32 (a * u32 b) = u32 (a * b).
Proof. by rewrite (Z.mul_comm a (u32 b)), u32_mul_l, Z.mul_comm. Qed.

(** X21. Every coordinate that the index computation emits is, modulo
    [2^32], the sum of the base of the thread,
    [sizePerThread[k] * (multiDimThreadId[k] + multiDimWarpId[k] * threadsPerWarp[k])],
    of the nano tile coordinate times the extent of a CTA tile, and of the
    coordinate inside the nano tile; the nano tile coordinate is taken from
    the decomposition of [n / accumSizePerThread] over
    [shape[k] / sizePerThread[k]]. *)
Theorem emitIndices_formula (layout : TritonGPUBlockedEncodingAttr) (shape : list Z)
    (threadId : Z) (idxs : list (list Z)) :
  Forall (λ x, 0 ≤ x) (getSizePerThread layout) →
  Forall (λ x, 0 ≤ x) (getThreadsPerWarp layout) →
  Forall (λ x, 0 ≤ x) (getWarpsPerCTA layout) →
  emitIndicesForBlockedLayout layout shape threadId = Some idxs →
  ∃ multiDimWarpId multiDimThreadId threadsPerDim,
    delinearize_order (threadId `div` 32) (getWarpsPerCTA layout) (getOrder layout)
    = Some multiDimWarpId ∧
    delinearize_order (threadId `mod` 32) (getThreadsPerWarp layout) (getOrder layout)
    = Some multiDimThreadId ∧
    threadsPerDimOf layout shape = Some threadsPerDim ∧
    ∀ (n k : nat) idx x, idxs !! n = Some idx → idx !! k = Some x →
      ∃ tid wid tile elem S T W,
        multiDimThreadId !! k = Some tid ∧
        multiDimWarpId !! k = Some wid ∧
        getMultiDimIndex (T := unsigned_int)
          (linearNanoTileId layout (Z.of_nat n)) threadsPerDim !! k = Some tile ∧
        multiElemsInNanoTileId layout (Z.of_nat n) !! k = Some elem ∧
        getSizePerThread layout !! k = Some S ∧
        getThreadsPerWarp layout !! k = Some T ∧
        getWarpsPerCTA layout !! k = Some W ∧
        x = u32 (S * (tid + wid * T) + tile * (S * T * W) + elem).
Proof.
  intros HS0 HT0 HW0. unfold emitIndicesForBlockedLayout. intros Hemit.
  destruct (multiDimBaseOf layout shape threadId) as [multiDimBase|] eqn:Hbase;
    [|done]. cbn [mbind option_bind] in Hemit.
  destruct (elemsPerThreadOf layout shape) as [elemsPerThread|]; [|done].
  cbn [mbind option_bind] in Hemit.
  destruct (offsetOf layout shape) as [offset|] eqn:Hoff; [|done].
  cbn [mbind option_bind] in Hemit.
  destruct (threadsPerDimOf layout shape) as [threadsPerDim|]; [|done].
  cbn [mbind option_bind] in Hemit.
  unfold multiDimBaseOf in Hbase. cbv zeta in Hbase.
  destruct (delinearize_order (threadId `div` 32) _ _) as [multiDimWarpId|];
    [|done]. cbn [mbind option_bind] in Hbase.
  destruct (delinearize_order (threadId `mod` 32) _ _) as [multiDimThreadId|];
    [|done]. cbn [mbind option_bind] in Hbase.
  exists multiDimWarpId, multiDimThreadId, threadsPerDim. split_and!; [done..|].
  intros n k idx x Hn Hk.
  pose proof (mapM_seqZ_lookup _ _ _ _ _ Hemit Hn) as Hidx. cbv beta in Hidx.
  pose proof (mapM_seqZ_lookup _ _ _ _ _ Hidx Hk) as Hx.
  unfold multiDimIdxAt in Hx. rewrite !at_lookup in Hx.
  destruct (getMultiDimIndex _ threadsPerDim !! k) as [tile|]; [|done].
  destruct (getSizePerThread layout !! k) as [S|] eqn:HS; [|done].
  destruct (getThreadsPerWarp layout !! k) as [T|] eqn:HT; [|done].
  destruct (getWarpsPerCTA layout !! k) as [W|] eqn:HW; [|done].
  destruct (multiElemsInNanoTileId layout (Z.of_nat n) !! k) as [elem|]; [|done].
  destruct (multiDimBase !! k) as [base|] eqn:Hbk; [|done].
  destruct (offset !! k) as [offset_k|] eqn:Hok; [|done].
  cbn [mbind option_bind] in Hx.
  destruct (offsetOf_at layout shape offset k offset_k S T W) as [s ->];
    [done|by rewrite at_lookup..|].
  destruct (at_ (offsetsOfDim s S T W) _) as [off|] eqn:Hoffx; [|done].
  cbn [mbind option_bind] in Hx. injection Hx as <-.
  apply offsetsOfDim_at in Hoffx.
  2:{ by apply (Forall_lookup_1 _ _ _ _ HS0 HS). }
  2:{ by apply (Forall_lookup_1 _ _ _ _ HT0 HT). }
  2:{ by apply (Forall_lookup_1 _ _ _ _ HW0 HW). }
  pose proof (mapM_seqZ_lookup _ _ _ _ _ Hbase Hbk) as Hb. cbv beta in Hb.
  rewrite !at_lookup, HS, HT in Hb. cbn [mbind option_bind] in Hb.
  destruct (multiDimThreadId !! k) as [tid|]; [|done].
  cbn [mbind option_bind] in Hb.
  destruct (multiDimWarpId !! k) as [wid|]; [|done].
  cbn [mbind option_bind] in Hb. injection Hb as <-.
  exists tid, wid, tile, elem, S, T, W. split_and!; try done.
  subst off.
  rewrite (u32_add_r tid (wid * T)), (u32_mul_r S (tid + wid * T)).
  rewrite (u32_mul_l (S * T) W), (u32_mul_r tile (S * T * W)).
  rewrite u32_idemp, (u32_add_l (tile * (S * T * W)) elem).
  rewrite u32_add_l, u32_add_r. f_equal. lia.
Qed.

Lemma emitIndices_formula_witness :
  let layout := {| getSizePerThread := [2; 2]; getThreadsPerWarp := [4; 8];
                   getWarpsPerCTA := [1; 1]; getOrder := [0; 1] |} in
  let idxs := [[2; 2]; [2; 3]; [3; 2]; [3; 3]] in
  ∃ multiDimWarpId multiDimThreadId threadsPerDim,
    delinearize_order (9 `div` 32) (getWarpsPerCTA layout) (getOrder layout)
    = Some multiDimWarpId ∧
    delinearize_order (9 `mod` 32) (getThreadsPerWarp layout) (getOrder layout)
    = Some multiDimThreadId ∧
    threadsPerDimOf layout [8; 16] = Some threadsPerDim ∧
    ∀ (n k : nat) idx x, idxs !! n = Some idx → idx !! k = Some x →
      ∃ tid wid tile elem S T W,
        multiDimThreadId !! k = Some tid ∧
        multiDimWarpId !! k = Some wid ∧
        getMultiDimIndex (T := unsigned_int)
          (linearNanoTileId layout (Z.of_nat n)) threadsPerDim !! k = Some tile ∧
        multiElemsInNanoTileId layout (Z.of_nat n) !! k = Some elem ∧
        getSizePerThread layout !! k = Some S ∧
        getThreadsPerWarp layout !! k = Some T ∧
        getWarpsPerCTA layout !! k = Some W ∧
        x = u32 (S * (tid + wid * T) + tile * (S * T * W) + elem).
Proof.
  intros layout idxs. apply (emitIndices_formula layout [8; 16] 9 idxs).
  - repeat constructor; lia.
  - repeat constructor; lia.
  - repeat constructor; lia.
  - reflexivity.
Defined.

(** ** When the index computation is defined *)

Lemma delinearize_order_is_Some (linear : Z) (shape order : list Z) :
  shape ≠ [] → length shape = length order →
  Forall (λ o, 0 ≤ o < Z.of_nat (length shape)) order →
  ∃ multiDim, delinearize_order linear shape order = Some multiDim ∧
              length multiDim = length shape.
Proof.
  intros Hne Hlen Hin. unfold delinearize_order. rewrite decide_True by done.
  replace (seqZ 0 (Z.of_nat (length shape)))
    with (seqZ 0 (Z.of_nat (length order))) by by rewrite Hlen.
  rewrite mapM_at_seqZ.
  destruct (mapM_is_Some_2 (at_ shape) order) as [reordered Hre].
  { eapply Forall_impl; [exact Hin|]. intros o Ho. cbv beta in Ho. simpl.
    unfold at_. rewrite decide_True by lia. apply lookup_lt_is_Some_2. lia. }
  rewrite Hre. cbn [mbind option_bind].
  pose proof (Forall2_length _ _ _ (mapM_Some_1 _ _ _ Hre)) as Hlen'.
  destruct (delinearize_is_Some linear reordered) as (multiDim & Hmd & Hl).
  { destruct reordered, shape; simpl in *; (done || lia). }
  exists multiDim. split; [done|]. lia.
Qed.

Lemma mapM_seqZ_is_Some {A} (f : Z → option A) (n : Z) :
  is_Some (mapM f (seqZ 0 n)) ↔ ∀ k, 0 ≤ k < n → is_Some (f k).
Proof.
  rewrite mapM_is_Some, Forall_forall. split.
  - intros H k Hk. apply (H k). apply elem_of_seqZ. lia.
  - intros H k Hk. apply elem_of_seqZ in Hk. apply H. lia.
Qed.

Lemma multiDimBaseOf_is_Some layout shape threadId :
  wf_layout layout (length shape) → shape ≠ [] →
  length (getOrder layout) = length shape →
  Forall (λ o, 0 ≤ o < Z.of_nat (length shape)) (getOrder layout) →
  ∃ multiDimBase, multiDimBaseOf layout shape threadId = Some multiDimBase ∧
                  length multiDimBase = length shape.
Proof.
  intros (HlS & HlT & HlW & _) Hne Hlo Hin. unfold multiDimBaseOf. cbv zeta.
  destruct (delinearize_order_is_Some (threadId `div` 32) (getWarpsPerCTA layout)
              (getOrder layout)) as (wids & -> & Hlw);
    [by intros Heq; rewrite Heq in HlW; destruct shape|lia|by rewrite HlW|].
  destruct (delinearize_order_is_Some (threadId `mod` 32) (getThreadsPerWarp layout)
              (getOrder layout)) as (tids & -> & Hlt);
    [by intros Heq; rewrite Heq in HlT; destruct shape|lia|by rewrite HlT|].
  cbn [mbind option_bind].
  destruct (proj2 (mapM_seqZ_is_Some
    (λ k, threadsPerWarpK ← at_ (getThreadsPerWarp layout) k;
          sizePerThreadK ← at_ (getSizePerThread layout) k;
          tid ← at_ tids k;
          wid ← at_ wids k;
          Some (u32 (sizePerThreadK * u32 (tid + u32 (wid * threadsPerWarpK)))))
    (Z.of_nat (length shape)))) as [base Hbase].
  { intros k Hk. rewrite <- (Z2Nat.id k) by lia. rewrite !at_lookup.
    destruct (lookup_lt_is_Some_2 (getThreadsPerWarp layout) (Z.to_nat k)) as [? ->];
      [lia|].
    destruct (lookup_lt_is_Some_2 (getSizePerThread layout) (Z.to_nat k)) as [? ->];
      [lia|].
    destruct (lookup_lt_is_Some_2 tids (Z.to_nat k)) as [? ->]; [lia|].
    destruct (lookup_lt_is_Some_2 wids (Z.to_nat k)) as [? ->]; [lia|].
    done. }
  exists base. split; [done|]. apply mapM_seqZ_length in Hbase. lia.
Qed.

Lemma offsetOf_is_Some layout shape :
  wf_layout layout (length shape) →
  ∃ offset, offsetOf layout shape = Some offset ∧ length offset = length shape.
Proof.
  intros (HlS & HlT & HlW & _). unfold offsetOf.
  destruct (proj2 (mapM_seqZ_is_Some
    (λ k, s ← at_ shape k;
          S ← at_ (getSizePerThread layout) k;
          T ← at_ (getThreadsPerWarp layout) k;
          W ← at_ (getWarpsPerCTA layout) k;
          Some (offsetsOfDim s S T W))
    (Z.of_nat (length shape)))) as [offset Hoffset].
  { intros k Hk. rewrite <- (Z2Nat.id k) by lia. rewrite !at_lookup.
    destruct (lookup_lt_is_Some_2 shape (Z.to_nat k)) as [? ->]; [lia|].
    destruct (lookup_lt_is_Some_2 (getSizePerThread layout) (Z.to_nat k)) as [? ->];
      [lia|].
    destruct (lookup_lt_is_Some_2 (getThreadsPerWarp layout) (Z.to_nat k)) as [? ->];
      [lia|].
    destruct (lookup_lt_is_Some_2 (getWarpsPerCTA layout) (Z.to_nat k)) as [? ->];
      [lia|].
    done. }
  exists offset. split; [done|]. apply mapM_seqZ_length in Hoffset. lia.
Qed.

(** X22. For a well-formed layout and order, the only way the index
    computation aborts is the subscript of the offset table: it is defined
    exactly when, for every element [n] of the thread and every dimension
    [k], the nano tile coordinate times the extent of a CTA tile plus the
    coordinate inside the nano tile (in 32-bit arithmetic) is below the
    number of whole CTA tiles times the extent of a tile. *)
Theorem emitIndices_defined (layout : TritonGPUBlockedEncodingAttr) (shape : list Z)
    (threadId elemsPerThread : Z) (threadsPerDim : list Z) :
  wf_layout layout (length shape) → shape ≠ [] →
  length (getOrder layout) = length shape →
  Forall (λ o, 0 ≤ o < Z.of_nat (length shape)) (getOrder layout) →
  Forall (λ t, t < 2 ^ 32) (tileShape layout) →
  Forall (λ s, 0 ≤ s < 2 ^ 32) shape →
  elemsPerThreadOf layout shape = Some elemsPerThread →
  threadsPerDimOf layout shape = Some threadsPerDim →
  (is_Some (emitIndicesForBlockedLayout layout shape threadId) ↔
   ∀ (n k : nat) tile elem s tileExtent,
     Z.of_nat n < elemsPerThread →
     getMultiDimIndex (T := unsigned_int)
       (linearNanoTileId layout (Z.of_nat n)) threadsPerDim !! k = Some tile →
     multiElemsInNanoTileId layout (Z.of_nat n) !! k = Some elem →
     shape !! k = Some s → tileShape layout !! k = Some tileExtent →
     0 ≤ u32 (u32 (tile * tileExtent) + elem) < Z.quot s tileExtent * tileExtent).
Proof.
  intros Hwf Hne Hlo Hin Htile Hshape Helems Htpd.
  destruct (multiDimBaseOf_is_Some layout shape threadId Hwf Hne Hlo Hin)
    as (base & Hbase & Hlb).
  destruct (offsetOf_is_Some layout shape Hwf) as (offset & Hoff & Hloff).
  pose proof (mapM_seqZ_length _ _ _ Htpd) as Hltpd.
  unfold emitIndicesForBlockedLayout. rewrite Hbase, Helems, Hoff, Htpd.
  cbn [mbind option_bind].
  destruct Hwf as (HlS & HlT & HlW & HpS & HpT & HpW).
  assert (∀ (n k : nat), (k < length shape)%nat →
            ∃ tile elem s S T W b,
              getMultiDimIndex (T := unsigned_int)
                (linearNanoTileId layout (Z.of_nat n)) threadsPerDim !! k = Some tile ∧
              multiElemsInNanoTileId layout (Z.of_nat n) !! k = Some elem ∧
              shape !! k = Some s ∧
              tileShape layout !! k = Some (S * (T * W)) ∧
              0 < S ∧ 0 < T ∧ 0 < W ∧ S * (T * W) < 2 ^ 32 ∧ 0 ≤ s < 2 ^ 32 ∧
              multiDimIdxAt layout base offset threadsPerDim (Z.of_nat n) (Z.of_nat k)
              = (off ← at_ (offsetsOfDim s S T W)
                           (u32 (u32 (tile * (S * (T * W))) + elem));
                 Some (u32 (b + off)))) as Hat.
  { intros n k Hk.
    destruct (lookup_lt_is_Some_2 (getMultiDimIndex (T := unsigned_int)
                (linearNanoTileId layout (Z.of_nat n)) threadsPerDim) k)
      as [tile Htl]; [rewrite length_getMultiDimIndex; lia|].
    destruct (lookup_lt_is_Some_2 (multiElemsInNanoTileId layout (Z.of_nat n)) k)
      as [elem Hel];
      [unfold multiElemsInNanoTileId; rewrite length_getMultiDimIndex; lia|].
    destruct (lookup_lt_is_Some_2 shape k) as [s Hs]; [lia|].
    destruct (lookup_lt_is_Some_2 (getSizePerThread layout) k) as [S HS]; [lia|].
    destruct (lookup_lt_is_Some_2 (getThreadsPerWarp layout) k) as [T HT]; [lia|].
    destruct (lookup_lt_is_Some_2 (getWarpsPerCTA layout) k) as [W HW]; [lia|].
    destruct (lookup_lt_is_Some_2 base k) as [b Hb]; [lia|].
    destruct (lookup_lt_is_Some_2 offset k) as [offset_k Hok]; [lia|].
    destruct (tileShape_lookup layout (length shape) k S T W)
      as (HS0 & HT0 & HW0 & Hts & Hu); [done..|].
    destruct (offsetOf_at layout shape offset k offset_k S T W) as [s' Hs'];
      [done|by rewrite at_lookup..|].
    pose proof (mapM_seqZ_lookup _ _ _ _ _ Hoff Hok) as Hs''. cbv beta in Hs''.
    rewrite !at_lookup, Hs, HS, HT, HW in Hs''. cbn [mbind option_bind] in Hs''.
    injection Hs'' as <-.
    exists tile, elem, s, S, T, W, b. split_and!; try done.
    - by apply (Forall_lookup_1 _ _ _ _ Htile Hts).
    - by apply (Forall_lookup_1 _ _ _ _ Hshape Hs).
    - by apply (Forall_lookup_1 _ _ _ _ Hshape Hs).
    - unfold multiDimIdxAt. rewrite !at_lookup, Htl, HS, HT, HW, Hel, Hb, Hok.
      cbn [mbind option_bind]. by rewrite Hu. }
  rewrite mapM_seqZ_is_Some. split.
  - intros Hdef n k tile elem s tileExtent Hn Htl Hel Hs Hts.
    assert (k < length shape)%nat as Hk by (by apply lookup_lt_Some in Hs).
    destruct (Hat n k Hk)
      as (tile' & elem' & s' & S & T & W & b & Htl' & Hel' & Hs' & Hts' & HS0 & HT0
          & HW0 & Hfit & Hsr & Hidx).
    simplify_eq.
    specialize (Hdef (Z.of_nat n) ltac:(lia)).
    apply mapM_seqZ_is_Some with (k := Z.of_nat k) in Hdef; [|lia].
    rewrite Hidx in Hdef.
    rewrite offsetsOfDim_lookup in Hdef by (done || lia).
    replace (S * T * W) with (S * (T * W)) in Hdef by lia.
    destruct (decide _) as [Hr|]; [done|]. by destruct Hdef.
  - intros Hcond n Hn. apply mapM_seqZ_is_Some. intros k Hk.
    rewrite <- (Z2Nat.id n), <- (Z2Nat.id k) by lia.
    destruct (Hat (Z.to_nat n) (Z.to_nat k) ltac:(lia))
      as (tile & elem & s & S & T & W & b & Htl & Hel & Hs & Hts & HS0 & HT0
          & HW0 & Hfit & Hsr & Hidx).
    rewrite Hidx. rewrite offsetsOfDim_lookup by (done || lia).
    replace (S * T * W) with (S * (T * W)) by lia.
    rewrite decide_True; [done|].
    apply (Hcond (Z.to_nat n) (Z.to_nat k) tile elem s); try done. lia.
Qed.

Lemma emitIndices_defined_witness :
  let layout := {| getSizePerThread := [2; 2]; getThreadsPerWarp := [4; 8];
                   getWarpsPerCTA := [1; 1]; getOrder := [0; 1] |} in
  is_Some (emitIndicesForBlockedLayout layout [8; 16] 9) ↔
  ∀ (n k : nat) tile elem s tileExtent,
    Z.of_nat n < 4 →
    getMultiDimIndex (T := unsigned_int)
      (linearNanoTileId layout (Z.of_nat n)) [4; 8] !! k = Some tile →
    multiElemsInNanoTileId layout (Z.of_nat n) !! k = Some elem →
    [8; 16] !! k = Some s → tileShape layout !! k = Some tileExtent →
    0 ≤ u32 (u32 (tile * tileExtent) + elem) < Z.quot s tileExtent * tileExtent.
Proof.
  intros layout. apply (emitIndices_defined layout [8; 16] 9 4 [4; 8]).
  - repeat split; repeat constructor; lia.
  - done.
  - reflexivity.
  - repeat constructor; simpl; lia.
  - repeat constructor.
  - repeat constructor; lia.
  - reflexivity.
  - reflexivity.
Defined.

Lemma delinearize_order_defined_witness :
  (is_Some (delinearize_order 20 [4; 8] [1; 0]) ↔
   [4; 8] ≠ [] ∧ length [4; 8] = length [1; 0] ∧
   Forall (λ o, 0 ≤ o < Z.of_nat (length [4; 8])) [1; 0]) ∧
  (∀ multiDim, delinearize_order 20 [4; 8] [1; 0] = Some multiDim →
               length multiDim = length [4; 8]).
Proof. apply (delinearize_order_defined 20 [4; 8] [1; 0]). Defined.

Lemma filterFuncAttributes_retained_witness :
  let attrs := [("sym_name", 1); ("noinline", 2); ("arg_attrs", 3); ("type", 4)] in
  (∃ kept,
     filterFuncAttributes "sym_name" "type" "arg_attrs" attrs true [("first", 0)]
     = [("first", 0)] ++ kept ∧
     kept = filterFuncAttributes "sym_name" "type" "arg_attrs" attrs true [] ∧
     kept `sublist_of` attrs) ∧
  (∀ attr,
     attr ∈ filterFuncAttributes "sym_name" "type" "arg_attrs" attrs true [] ↔
     attr ∈ attrs ∧ attr.1 ≠ "sym_name" ∧ attr.1 ≠ "type" ∧
     attr.1 ≠ "std.varargs" ∧ (true = true → attr.1 ≠ "arg_attrs")) ∧
  filterFuncAttributes "sym_name" "type" "arg_attrs"
    (filterFuncAttributes "sym_name" "type" "arg_attrs" attrs true []) true []
  = filterFuncAttributes "sym_name" "type" "arg_attrs" attrs true [].
Proof.
  intros attrs.
  apply (filterFuncAttributes_retained "sym_name" "type" "arg_attrs" attrs true
           [("first", 0)]).
Defined.
